(** * AFL Coach Sim: the static scanner [Tools/ci/static_scan.py]

    A shallow embedding of the scanner's two algorithmic parts:
    [find_method_ranges] (the brace-depth walk that locates the bodies of
    [Update], [FixedUpdate] and [LateUpdate]) and the per-file part of
    [main] (the rule chain that appends findings).

    Texts are Python [str] values restricted to the code points 0..255,
    modelled as [list ascii].  Regular expressions are modelled by a
    backtracking matcher that lists the end positions of a pattern at a
    start position in the order in which Python's [re] tries them. *)

From Stdlib Require Import List Arith Lia Bool Ascii String ZArith Sorted.
Import ListNotations.

Open Scope string_scope.
Open Scope list_scope.
Open Scope nat_scope.

(** ** Texts and characters *)

Definition text := list ascii.

Definition txt (s : string) : text := list_ascii_of_string s.

Definition LF : ascii := "010"%char.
Definition CR : ascii := "013"%char.

Definition code (c : ascii) : nat := nat_of_ascii c.

Definition between (lo hi n : nat) : bool := (lo <=? n) && (n <=? hi).

(** [\s] of a [str] pattern: the Unicode white space below 256. *)
Definition is_space (c : ascii) : bool :=
  let n := code c in
  between 9 13 n || between 28 32 n || (n =? 133) || (n =? 160).

(** [\w] of a [str] pattern: alphanumeric code points below 256, or [_]. *)
Definition is_word (c : ascii) : bool :=
  let n := code c in
  between 48 57 n || between 65 90 n || between 97 122 n || (n =? 95)
  || (n =? 170) || (n =? 178) || (n =? 179) || (n =? 181)
  || between 185 186 n || between 188 190 n
  || between 192 214 n || between 216 246 n || between 248 255 n.

(** The characters at which [str.splitlines] breaks a line. *)
Definition is_linebreak (c : ascii) : bool :=
  let n := code c in
  between 10 13 n || between 28 30 n || (n =? 133).

Definition not_char (x c : ascii) : bool := negb (Ascii.eqb c x).

(** ** Python string operations used by the scanner *)

Fixpoint prefixb (w t : text) : bool :=
  match w, t with
  | [], _ => true
  | a :: w', b :: t' => Ascii.eqb a b && prefixb w' t'
  | _ :: _, [] => false
  end.

(** [text[a:b]] *)
Definition slice {A} (l : list A) (a b : nat) : list A :=
  firstn (b - a) (skipn a l).

(** Index of the first [c] in an already sliced text, counted from [i]. *)
Fixpoint find_from (c : ascii) (t : text) (i : nat) : option nat :=
  match t with
  | [] => None
  | x :: t' => if Ascii.eqb x c then Some i else find_from c t' (S i)
  end.

(** [text.find(c, start)] for a one-character [c]; [None] stands for -1. *)
Definition str_find (c : ascii) (t : text) (start : nat) : option nat :=
  find_from c (skipn start t) start.

(** Occurrences of [sub] in [t], not overlapping, left to right. [skip]
    counts the characters still covered by the occurrence just counted. *)
Fixpoint count_occ_sub (sub t : text) (skip : nat) : nat :=
  match t with
  | [] => 0
  | _ :: t' =>
      match skip with
      | S k => count_occ_sub sub t' k
      | 0 => if prefixb sub t
             then S (count_occ_sub sub t' (List.length sub - 1))
             else count_occ_sub sub t' 0
      end
  end.

(** [text.count(sub, a, b)] for a non-empty [sub]. *)
Definition str_count (sub t : text) (a b : nat) : nat :=
  count_occ_sub sub (slice t a b) 0.

(** [sub in text] *)
Fixpoint str_contains (sub t : text) : bool :=
  prefixb sub t ||
  match t with
  | [] => false
  | _ :: t' => str_contains sub t'
  end.

(** [text.splitlines()]: [cur] holds the current line, reversed. *)
Fixpoint splitlines_aux (t cur : text) : list text :=
  match t with
  | [] => match cur with [] => [] | _ => [rev cur] end
  | c :: t' =>
      if Ascii.eqb c CR then
        match t' with
        | d :: t'' =>
            if Ascii.eqb d LF then rev cur :: splitlines_aux t'' []
            else rev cur :: splitlines_aux t' []
        | [] => rev cur :: splitlines_aux t' []
        end
      else if is_linebreak c then rev cur :: splitlines_aux t' []
      else splitlines_aux t' (c :: cur)
  end.

Definition splitlines (t : text) : list text := splitlines_aux t [].

(** [sep.join(parts)] *)
Fixpoint join (sep : text) (parts : list text) : text :=
  match parts with
  | [] => []
  | [p] => p
  | p :: rest => p ++ sep ++ join sep rest
  end.

(** [str.lower] on one code point below 256. *)
Definition lower_char (c : ascii) : ascii :=
  let n := code c in
  if between 65 90 n || (between 192 222 n && negb (n =? 215))
  then ascii_of_nat (n + 32) else c.

Fixpoint lower (s : string) : string :=
  match s with
  | EmptyString => EmptyString
  | String c s' => String (lower_char c) (lower s')
  end.

(** ** Regular expressions *)

Inductive regex : Type :=
| Eps                                   (* the empty pattern *)
| Lit (w : string)                      (* a literal run of characters *)
| Cls (p : ascii -> bool)               (* one character of a class *)
| StarCls (p : ascii -> bool)           (* greedy [c*] over a class *)
| Seq (r1 r2 : regex)
| Alt (r1 r2 : regex)                   (* [r1|r2], [r1] tried first *)
| WordB                                 (* [\b] *)
| Bol.                                  (* [^] under re.MULTILINE *)

Definition Opt (r : regex) : regex := Alt r Eps.          (* greedy [r?] *)
Definition PlusCls (p : ascii -> bool) : regex := Seq (Cls p) (StarCls p).

Declare Scope regex_scope.
Delimit Scope regex_scope with re.
Bind Scope regex_scope with regex.
Infix "+++" := Seq (at level 60, right associativity) : regex_scope.

Fixpoint alts (w : string) (ws : list string) : regex :=
  match ws with
  | [] => Lit w
  | w' :: ws' => Alt (Lit w) (alts w' ws')
  end.

(** Length of the longest run of class [p] at the front of [t]. *)
Fixpoint span (p : ascii -> bool) (t : text) : nat :=
  match t with
  | c :: t' => if p c then S (span p t') else 0
  | [] => 0
  end.

Definition word_at (t : text) (i : nat) : bool :=
  match nth_error t i with Some c => is_word c | None => false end.

Definition word_before (t : text) (i : nat) : bool :=
  match i with 0 => false | S j => word_at t j end.

Definition line_start (t : text) (i : nat) : bool :=
  match i with
  | 0 => true
  | S j => match nth_error t j with
           | Some c => Ascii.eqb c LF
           | None => false
           end
  end.

(** [ends r t i]: the end positions of the matches of [r] in [t] that
    start at [i], in the order the backtracking matcher reaches them. *)
Fixpoint ends (r : regex) (t : text) (i : nat) : list nat :=
  match r with
  | Eps => [i]
  | Lit w => if prefixb (txt w) (skipn i t) then [i + String.length w] else []
  | Cls p => match nth_error t i with
             | Some c => if p c then [S i] else []
             | None => []
             end
  | StarCls p => map (fun k => i + k) (rev (seq 0 (S (span p (skipn i t)))))
  | Seq r1 r2 => flat_map (ends r2 t) (ends r1 t i)
  | Alt r1 r2 => ends r1 t i ++ ends r2 t i
  | WordB => if xorb (word_before t i) (word_at t i) then [i] else []
  | Bol => if line_start t i then [i] else []
  end.

(** A match object: [m.start()], [m.end()] and [m.group(1)]. *)
Record Match : Type := mkMatch {
  m_start : nat;
  m_end : nat;
  m_group : string
}.

(** A pattern is used through its anchored matcher: the match of the
    pattern that starts at a given position, if there is one. *)
Definition matcher := text -> nat -> option Match.

Definition match_at (r : regex) : matcher := fun t i =>
  match ends r t i with
  | e :: _ => Some (mkMatch i e EmptyString)
  | [] => None
  end.

(** [pre (w1|w2|...) post] with the alternative as capturing group 1:
    every end position is paired with the alternative that led to it. *)
Definition ends_group (pre : regex) (ws : list string) (post : regex)
    (t : text) (i : nat) : list (string * nat) :=
  flat_map (fun j =>
    flat_map (fun w => map (pair w) (ends (Seq (Lit w) post) t j)) ws)
    (ends pre t i).

Definition match_group_at (pre : regex) (ws : list string) (post : regex)
    : matcher := fun t i =>
  match ends_group pre ws post t i with
  | (w, e) :: _ => Some (mkMatch i e w)
  | [] => None
  end.

(** [pattern.search(text)]: the match at the leftmost start position. *)
Fixpoint search_from (m : matcher) (t : text) (starts : list nat)
    : option Match :=
  match starts with
  | [] => None
  | s :: rest => match m t s with
                 | Some x => Some x
                 | None => search_from m t rest
                 end
  end.

Definition positions (t : text) : list nat := seq 0 (S (List.length t)).

Definition re_search (m : matcher) (t : text) : option Match :=
  search_from m t (positions t).

Definition found (o : option Match) : bool :=
  match o with Some _ => true | None => false end.

(** [pattern.finditer(text)]: scan the start positions left to right; after
    a match the scan resumes at its end.  (None of the scanner's patterns
    matches the empty string.) *)
Fixpoint finditer_from (m : matcher) (t : text) (starts : list nat)
    (pos : nat) : list Match :=
  match starts with
  | [] => []
  | s :: rest =>
      if s <? pos then finditer_from m t rest pos
      else match m t s with
           | Some x => x :: finditer_from m t rest (m_end x)
           | None => finditer_from m t rest pos
           end
  end.

Definition finditer (m : matcher) (t : text) : list Match :=
  finditer_from m t (positions t) 0.

(** ** The pattern table [PATTERNS] and [METHOD_START_RE] *)

Definition ws_star : regex := StarCls is_space.     (* [\s*] *)
Definition ws_plus : regex := PlusCls is_space.     (* [\s+] *)

Definition RE_expensive_call_in_update : regex :=
  (WordB +++
   alts "GetComponent" ["FindObjectOfType"; "FindObjectsOfType";
                        "GameObject.Find"; "Resources.Load";
                        "Instantiate"; "Destroy"] +++
   WordB)%re.

Definition RE_linq_in_update : regex :=
  (WordB +++
   alts "Select" ["Where"; "OrderBy"; "OrderByDescending"; "ToList";
                  "GroupBy"; "Distinct"; "Join"] +++
   ws_star +++ Lit "(")%re.

Definition RE_debug_in_update : regex :=
  (WordB +++ Lit "Debug." +++ alts "Log" ["LogWarning"; "LogError"] +++
   ws_star +++ Lit "(")%re.

Definition RE_empty_catch : regex :=
  (Lit "catch" +++ ws_star +++ Lit "(" +++ StarCls (not_char ")") +++
   Lit ")" +++ ws_star +++ Lit "{" +++
   Alt (ws_star +++ Lit "//" +++ StarCls (not_char LF) +++ Cls (Ascii.eqb LF))
       ws_star +++
   Lit "}")%re.

Definition RE_using_unityeditor : regex :=
  (Bol +++ ws_star +++ Lit "using" +++ ws_plus +++ Lit "UnityEditor" +++
   ws_star +++ Lit ";")%re.

Definition RE_start_coroutine : regex :=
  (WordB +++ Lit "StartCoroutine" +++ ws_star +++ Lit "(")%re.

Definition RE_subscribe_event : regex := Lit "+=".

Definition RE_unsubscribe_event : regex := Lit "-=".

Definition RE_async_void : regex :=
  (WordB +++ Lit "async" +++ ws_plus +++ Lit "void" +++ ws_plus +++
   PlusCls is_word +++ ws_star +++ Lit "(")%re.

Definition RE_fixedupdate_physics_calls : regex :=
  (WordB +++ alts "AddForce" ["MovePosition"; "MoveRotation"; "velocity"] +++
   WordB)%re.

(** The part of [METHOD_START_RE] before its capturing group. *)
Definition METHOD_START_pre : regex :=
  (WordB +++
   Opt (alts "public" ["private"; "protected"; "internal"]) +++ ws_star +++
   Opt (Lit "async" +++ ws_plus) +++
   Opt (Lit "override" +++ ws_plus) +++
   Opt (Lit "static" +++ ws_plus) +++
   Lit "void" +++ ws_plus)%re.

(** The alternatives of the capturing group, in the pattern's order. *)
Definition METHOD_NAMES : list string := ["Update"; "FixedUpdate"; "LateUpdate"].

(** The part of [METHOD_START_RE] after its capturing group. *)
Definition METHOD_START_post : regex := (ws_star +++ Lit "(")%re.

Definition METHOD_START_RE : matcher :=
  match_group_at METHOD_START_pre METHOD_NAMES METHOD_START_post.

(** ** Exceptions *)

(** [OSError] is what reading a file can raise. *)
Inductive exn : Type := IndexError | KeyError | OSError.

Inductive result (A : Type) : Type :=
| Ok (a : A)
| Raise (e : exn).

Arguments Ok {A} a.
Arguments Raise {A} e.

Definition bind {A B} (x : result A) (f : A -> result B) : result B :=
  match x with
  | Ok a => f a
  | Raise e => Raise e
  end.

Notation "x <- c ;; k" := (bind c (fun x => k))
  (at level 61, c at next level, right associativity).

(** ** [find_method_ranges] *)

Definition Range : Type := (nat * nat)%type.

(** The dict [ranges], in insertion order. *)
Definition Ranges : Type := list (string * list Range).

Definition initial_ranges : Ranges :=
  [("Update", []); ("FixedUpdate", []); ("LateUpdate", [])].

(** [ranges[name].append(x)]: a missing key raises. *)
Fixpoint dict_append (d : Ranges) (name : string) (x : Range) : result Ranges :=
  match d with
  | [] => Raise KeyError
  | (k, v) :: d' =>
      if String.eqb k name then Ok ((k, v ++ [x]) :: d')
      else d'' <- dict_append d' name x ;; Ok ((k, v) :: d'')
  end.

(** [text[i]] *)
Definition char_at (t : text) (i : nat) : result ascii :=
  match nth_error t i with
  | Some c => Ok c
  | None => Raise IndexError
  end.

(** The [while i < text_len] loop; [n] is [text_len - i], the number of
    iterations the loop condition still allows.  The result is [end_pos]. *)
Fixpoint brace_walk (t : text) (n i : nat) (depth : Z) : result (option nat) :=
  match n with
  | 0 => Ok None
  | S n' =>
      ch <- char_at t i ;;
      if Ascii.eqb ch "{" then brace_walk t n' (i + 1) (depth + 1)
      else if Ascii.eqb ch "}" then
        if (depth - 1 =? 0)%Z then Ok (Some i)
        else brace_walk t n' (i + 1) (depth - 1)
      else brace_walk t n' (i + 1) depth
  end.

(** The 1-based line of an offset, as [find_method_ranges] computes it. *)
Definition line_of (t : text) (pos : nat) : nat :=
  str_count [LF] t 0 pos + 1.

(** One iteration of the loop over the matches, up to the append:
    [None] is a [continue]. *)
Definition range_of_match (t : text) (m : Match) : result (option Range) :=
  let text_len := List.length t in
  match str_find "{" t (m_end m) with
  | None => Ok None
  | Some brace_pos =>
      end_pos <- brace_walk t (text_len - brace_pos) brace_pos 0 ;;
      match end_pos with
      | None => Ok None
      | Some end_pos =>
          let start_line := line_of t brace_pos in
          let end_line := line_of t end_pos in
          Ok (Some (start_line, end_line))
      end
  end.

Fixpoint method_loop (t : text) (ms : list Match) (ranges : Ranges)
    : result Ranges :=
  match ms with
  | [] => Ok ranges
  | m :: ms' =>
      let name := m_group m in
      r <- range_of_match t m ;;
      match r with
      | None => method_loop t ms' ranges
      | Some x =>
          ranges' <- dict_append ranges name x ;;
          method_loop t ms' ranges'
      end
  end.

Definition find_method_ranges (t : text) : result Ranges :=
  method_loop t (finditer METHOD_START_RE t) initial_ranges.

(** ** The per-file part of [main] *)

(** One row of the report. *)
Record Finding : Type := mkFinding {
  file : string;
  line : nat;
  severity : string;
  rule : string;
  detail : string
}.

(** The line that the three file-scope occurrence rules report: they count
    the two characters backslash and [n] before the match. *)
Definition escaped_line_of (t : text) (pos : nat) : nat :=
  str_count (txt "\n") t 0 pos + 1.

(** [for m in ms: findings.append(mk(m))] *)
Definition append_each {A} (mk : A -> Finding) (ms : list A)
    (findings : list Finding) : list Finding :=
  fold_left (fun fs m => fs ++ [mk m]) ms findings.

Definition using_finding (f : string) (t : text) (m : Match) : Finding :=
  mkFinding f (escaped_line_of t (m_start m)) "warn"
    "using-UnityEditor-in-runtime"
    "File imports UnityEditor; wrap editor-only code or move to Editor/.".

Definition empty_catch_finding (f : string) (t : text) (m : Match) : Finding :=
  mkFinding f (escaped_line_of t (m_start m)) "warn"
    "empty-catch-block"
    "Empty catch block swallows exceptions.".

Definition async_void_finding (f : string) (t : text) (m : Match) : Finding :=
  mkFinding f (escaped_line_of t (m_start m)) "warn"
    "async-void"
    "Avoid async void (except event handlers); prefer async Task.".

Definition unsubscribe_finding (f : string) : Finding :=
  mkFinding f 1 "info" "event-unsubscribe-missing"
    "Subscriptions detected but no obvious unsubscription; ensure to unsubscribe in OnDisable/OnDestroy.".

Definition coroutine_finding (f : string) : Finding :=
  mkFinding f 1 "info" "coroutine-stop-missing"
    "StartCoroutine used without a stop path.".

(** The file-scope rules, in the order [main] evaluates them. *)
Definition file_rules (f : string) (t : text) (findings : list Finding)
    : list Finding :=
  let findings :=
    match re_search (match_at RE_using_unityeditor) t with
    | Some m => findings ++ [using_finding f t m]
    | None => findings
    end in
  let findings :=
    append_each (empty_catch_finding f t)
      (finditer (match_at RE_empty_catch) t) findings in
  let findings :=
    append_each (async_void_finding f t)
      (finditer (match_at RE_async_void) t) findings in
  let findings :=
    if found (re_search (match_at RE_subscribe_event) t)
       && negb (found (re_search (match_at RE_unsubscribe_event) t))
    then findings ++ [unsubscribe_finding f]
    else findings in
  let findings :=
    if found (re_search (match_at RE_start_coroutine) t) then
      if negb (str_contains (txt "OnDisable") t)
         && negb (str_contains (txt "OnDestroy") t)
         && negb (str_contains (txt "StopCoroutine") t)
      then findings ++ [coroutine_finding f]
      else findings
    else findings in
  findings.

Definition expensive_finding (f method_name : string) (s : nat) : Finding :=
  mkFinding f s "warn"
    (lower method_name ++ "-expensive-call")%string
    ("Potentially expensive call inside " ++ method_name ++ "().")%string.

Definition linq_finding (f method_name : string) (s : nat) : Finding :=
  mkFinding f s "info"
    (lower method_name ++ "-linq-allocation")%string
    ("LINQ usage inside " ++ method_name ++ "() can allocate per-frame.")%string.

Definition debug_finding (f method_name : string) (s : nat) : Finding :=
  mkFinding f s "info"
    (lower method_name ++ "-debuglog")%string
    ("Debug logging inside " ++ method_name ++ "() can be noisy.")%string.

Definition physics_finding (f : string) (s : nat) : Finding :=
  mkFinding f s "ok" "fixedupdate-physics"
    "Physics calls in FixedUpdate (generally correct).".

(** The text the body-scope rules see: [lines[s-1:e]] joined by the two
    characters backslash and [n].  ([s] is at least 1 for every range
    [find_method_ranges] builds, so [s-1] is not negative.) *)
Definition body_text (lines : list text) (s e : nat) : text :=
  join (txt "\n") (slice lines (s - 1) e).

(** The body of the loop over the ranges of one method name. *)
Definition body_rules (f : string) (lines : list text) (method_name : string)
    (se : Range) (findings : list Finding) : list Finding :=
  let '(s, e) := se in
  let body := body_text lines s e in
  let findings :=
    if found (re_search (match_at RE_expensive_call_in_update) body)
    then findings ++ [expensive_finding f method_name s] else findings in
  let findings :=
    if found (re_search (match_at RE_linq_in_update) body)
    then findings ++ [linq_finding f method_name s] else findings in
  let findings :=
    if found (re_search (match_at RE_debug_in_update) body)
    then findings ++ [debug_finding f method_name s] else findings in
  let findings :=
    if String.eqb method_name "FixedUpdate"
       && found (re_search (match_at RE_fixedupdate_physics_calls) body)
    then findings ++ [physics_finding f s] else findings in
  findings.

(** [for method_name, ranges in method_ranges.items(): for (s, e) in ranges] *)
Definition method_rules (f : string) (lines : list text)
    (method_ranges : Ranges) (findings : list Finding) : list Finding :=
  fold_left (fun fs group =>
      fold_left (fun fs' se => body_rules f lines (fst group) se fs')
                (snd group) fs)
    method_ranges findings.

(** One iteration of the loop over the files: [f] is the path relative to
    the root, [t] the text read from it. *)
Definition scan_file (f : string) (t : text) (findings : list Finding)
    : result (list Finding) :=
  let lines := splitlines t in
  method_ranges <- find_method_ranges t ;;
  let findings := file_rules f t findings in
  let findings := method_rules f lines method_ranges findings in
  Ok findings.

(** The loop over the files.  Each file comes with its path relative to
    the root and with what [p.read_text(errors="ignore")] gives for it: a
    text, or the exception it raises (a directory or a dangling link named
    [*.cs], a file that may not be read).  An exception ends the loop. *)
Fixpoint scan_files (files : list (string * result text))
    (findings : list Finding) : result (list Finding) :=
  match files with
  | [] => Ok findings
  | (f, read) :: rest =>
      text <- read ;;
      findings' <- scan_file f text findings ;;
      scan_files rest findings'
  end.

(** The findings [main] writes for one file scanned on its own. *)
Definition evaluate (f : string) (t : text) : result (list Finding) :=
  scan_file f t [].

(** ** Notions the properties are stated with *)

(** What one character adds to the brace depth. *)
Definition brace_delta (c : ascii) : Z :=
  if Ascii.eqb c "{" then 1%Z else if Ascii.eqb c "}" then (-1)%Z else 0%Z.

Fixpoint net_depth (l : text) : Z :=
  match l with
  | [] => 0%Z
  | c :: l' => (brace_delta c + net_depth l')%Z
  end.

(** The brace depth once the character at offset [k] has been read, the
    walk having started at offset [bp] with depth zero. *)
Definition depth_after (t : text) (bp k : nat) : Z :=
  net_depth (slice t bp (S k)).

(** Offset [k] holds a closing brace that returns the depth to zero. *)
Definition closes_at (t : text) (bp k : nat) : Prop :=
  nth_error t k = Some "}"%char /\ depth_after t bp k = 0%Z.

Definition first_close (t : text) (bp ep : nat) : Prop :=
  bp <= ep /\ closes_at t bp ep /\
  forall k, bp <= k < ep -> ~ closes_at t bp k.

Definition never_closes (t : text) (bp : nat) : Prop :=
  forall k, bp <= k -> ~ closes_at t bp k.

(** [bp] is the offset of the first opening brace at or after [from]. *)
Definition first_brace (t : text) (from bp : nat) : Prop :=
  from <= bp /\ nth_error t bp = Some "{"%char /\
  forall k, from <= k < bp -> nth_error t k <> Some "{"%char.

Definition no_brace (t : text) (from : nat) : Prop :=
  forall k, from <= k -> nth_error t k <> Some "{"%char.

(** The 1-based number of the line that holds offset [pos]: one more than
    the number of newline characters before it. *)
Definition line_number (t : text) (pos : nat) : nat :=
  S (List.length (filter (Ascii.eqb LF) (firstn pos t))).

(** The ranges one declaration match adds to its group: one or none. *)
Definition contribution (t : text) (m : Match) : list Range :=
  match range_of_match t m with
  | Ok (Some r) => [r]
  | _ => []
  end.

(** The ranges the matches named [name] add, in textual order. *)
Definition ranges_named (t : text) (name : string) (ms : list Match)
    : list Range :=
  flat_map (contribution t)
    (filter (fun m => String.eqb (m_group m) name) ms).

(** [ranges.get(name)] *)
Fixpoint lookup (d : Ranges) (name : string) : option (list Range) :=
  match d with
  | [] => None
  | (k, v) :: d' => if String.eqb k name then Some v else lookup d' name
  end.

(** [sub] occurs in [t] at offset [i]. *)
Definition occurs_at (sub t : text) (i : nat) : Prop :=
  exists pre post, t = pre ++ sub ++ post /\ List.length pre = i.

Definition substring (sub t : text) : Prop := exists i, occurs_at sub t i.

(** No position of [t] starts a declaration of one of the three methods. *)
Definition no_declaration (t : text) : Prop :=
  forall i, METHOD_START_RE t i = None.

(** *** The findings of one file, rule by rule *)

Definition using_findings (f : string) (t : text) : list Finding :=
  match re_search (match_at RE_using_unityeditor) t with
  | Some m => [using_finding f t m]
  | None => []
  end.

Definition empty_catch_findings (f : string) (t : text) : list Finding :=
  map (empty_catch_finding f t) (finditer (match_at RE_empty_catch) t).

Definition async_void_findings (f : string) (t : text) : list Finding :=
  map (async_void_finding f t) (finditer (match_at RE_async_void) t).

Definition unsubscribe_findings (f : string) (t : text) : list Finding :=
  if found (re_search (match_at RE_subscribe_event) t)
     && negb (found (re_search (match_at RE_unsubscribe_event) t))
  then [unsubscribe_finding f] else [].

Definition coroutine_findings (f : string) (t : text) : list Finding :=
  if found (re_search (match_at RE_start_coroutine) t)
     && (negb (str_contains (txt "OnDisable") t)
         && negb (str_contains (txt "OnDestroy") t)
         && negb (str_contains (txt "StopCoroutine") t))
  then [coroutine_finding f] else [].

(** The body-scope rules that apply to a range of [method_name] starting
    at line [s], in the order of their [if]s: pattern and finding. *)
Definition body_rule_table (f method_name : string) (s : nat)
    : list (regex * Finding) :=
  [(RE_expensive_call_in_update, expensive_finding f method_name s);
   (RE_linq_in_update, linq_finding f method_name s);
   (RE_debug_in_update, debug_finding f method_name s)]
  ++ (if String.eqb method_name "FixedUpdate"
      then [(RE_fixedupdate_physics_calls, physics_finding f s)]
      else []).

(** The pattern is found somewhere in [body]. *)
Definition triggered (body : text) (r : regex) : bool :=
  found (re_search (match_at r) body).

Definition body_findings (f : string) (lines : list text)
    (method_name : string) (se : Range) : list Finding :=
  map snd
    (filter (fun rf => triggered (body_text lines (fst se) (snd se)) (fst rf))
            (body_rule_table f method_name (fst se))).

Definition group_findings (f : string) (lines : list text)
    (group : string * list Range) : list Finding :=
  flat_map (body_findings f lines (fst group)) (snd group).

(** The findings whose rule identifier is [r]. *)
Definition with_rule (r : string) (fs : list Finding) : list Finding :=
  filter (fun x => String.eqb (rule x) r) fs.

(** The two characters backslash and [n] do not occur in [t] before
    offset [pos]. *)
Definition no_escaped_newline_before (t : text) (pos : nat) : Prop :=
  forall i, i + 2 <= pos -> ~ occurs_at (txt "\n") t i.

(** The identifiers of the body-scope rules of the three methods. *)
Definition body_rule_ids : list string :=
  ["update-expensive-call"; "update-linq-allocation"; "update-debuglog";
   "fixedupdate-expensive-call"; "fixedupdate-linq-allocation";
   "fixedupdate-debuglog"; "fixedupdate-physics";
   "lateupdate-expensive-call"; "lateupdate-linq-allocation";
   "lateupdate-debuglog"].

(** The pattern [r] has a match on the line [l] that ends at or before an
    opening brace of the line. *)
Definition match_before_open_brace (r : regex) (l : text) : Prop :=
  exists a b i j,
    l = a ++ "{"%char :: b /\ In j (ends r l i) /\ j <= List.length a.

(** The pattern [r] has a match on the line [l] that starts after a
    closing brace of the line. *)
Definition match_after_close_brace (r : regex) (l : text) : Prop :=
  exists a b i j,
    l = a ++ "}"%char :: b /\ List.length a < i <= List.length l /\
    In j (ends r l i).

(** Every offset from [a] up to, not including, [b] holds a character of
    the class [p]. *)
Definition run (p : ascii -> bool) (t : text) (a b : nat) : Prop :=
  forall k, a <= k < b -> exists c, nth_error t k = Some c /\ p c = true.

(** [pre] does not end with a word character. *)
Definition no_word_at_end (pre : text) : Prop :=
  pre = [] \/ exists pre' c, pre = pre' ++ [c] /\ is_word c = false.

(** The declaration of the scenario for the async-void rule. *)
Definition ASYNC_VOID_FOO : text := txt "async void Foo() { }".

(** *** The rest of [main] *)





(** Reading gives a text. *)
Definition readable (read : result text) : Prop := exists t, read = Ok t.

(** *** Further notions *)

(** The rule identifiers the scanner can emit, each with its severity. *)
Definition rule_severity_table : list (string * string) :=
  [("using-UnityEditor-in-runtime", "warn");
   ("empty-catch-block", "warn");
   ("async-void", "warn");
   ("event-unsubscribe-missing", "info");
   ("coroutine-stop-missing", "info");
   ("update-expensive-call", "warn");
   ("update-linq-allocation", "info");
   ("update-debuglog", "info");
   ("fixedupdate-expensive-call", "warn");
   ("fixedupdate-linq-allocation", "info");
   ("fixedupdate-debuglog", "info");
   ("fixedupdate-physics", "ok");
   ("lateupdate-expensive-call", "warn");
   ("lateupdate-linq-allocation", "info");
   ("lateupdate-debuglog", "info")].

(** The matches lie one after the other from offset [from] on, none empty,
    none overlapping the next. *)
Fixpoint spans_in_order (from : nat) (ms : list Match) : Prop :=
  match ms with
  | [] => True
  | m :: ms' =>
      from <= m_start m /\ m_start m < m_end m /\ spans_in_order (m_end m) ms'
  end.

(** A matcher reports the start it was asked for and an end not before it. *)
Definition matcher_ok (mt : matcher) : Prop :=
  forall t s x, mt t s = Some x -> m_start x = s /\ s <= m_end x.

(** The findings of the file-scope rules for one file. *)
Definition file_scope_findings (f : string) (t : text) : list Finding :=
  using_findings f t ++ empty_catch_findings f t ++ async_void_findings f t
  ++ unsubscribe_findings f t ++ coroutine_findings f t.

(** The identifiers of the file-scope rules. *)
Definition file_rule_ids : list string :=
  ["using-UnityEditor-in-runtime"; "empty-catch-block"; "async-void";
   "event-unsubscribe-missing"; "coroutine-stop-missing"].

(** Membership of an explicit element in an explicit list. *)
Ltac solve_in := simpl; repeat (first [left; reflexivity | right]).

(** Every line break of the text is a newline, or a carriage return
    directly followed by one (Unix or Windows line ends). *)
Fixpoint plain_line_ends (t : text) : bool :=
  match t with
  | [] => true
  | c :: t' =>
      if Ascii.eqb c CR then
        match t' with
        | d :: _ => Ascii.eqb d LF && plain_line_ends t'
        | [] => false
        end
      else if is_linebreak c then Ascii.eqb c LF && plain_line_ends t'
      else plain_line_ends t'
  end.

(** The line [l] is a stretch of the text [t] that covers offset [pos]. *)
Definition line_holds (t l : text) (pos : nat) : Prop :=
  exists a b, t = a ++ l ++ b /\
              List.length a <= pos < List.length a + List.length l.

(** * Properties *)

(** ** Lists and slices *)

Lemma skipn_nth_error_cons {A} (l : list A) i c :
  nth_error l i = Some c -> skipn i l = c :: skipn (S i) l.
Proof.
  revert i; induction l as [|a l IH]; intros [|i] H; simpl in *; try discriminate.
  - now inversion H.
  - now apply IH.
Qed.

Lemma slice_cons {A} (l : list A) i k c :
  nth_error l i = Some c -> i <= k ->
  slice l i (S k) = c :: slice l (S i) (S k).
Proof.
  intros H Hle. unfold slice.
  rewrite (skipn_nth_error_cons _ _ _ H).
  replace (S k - i) with (S (S k - S i)) by lia. reflexivity.
Qed.

Lemma slice_last {A} (l : list A) (i k : nat) (c : A) :
  nth_error l k = Some c -> i <= k ->
  slice l i (S k) = slice l i k ++ [c].
Proof.
  revert i k; induction l as [|a l IH]; intros i k H Hle.
  - destruct k; discriminate.
  - destruct i as [|i].
    + unfold slice. simpl skipn. rewrite !Nat.sub_0_r.
      clear IH Hle. revert a l H.
      induction k as [|k IHk]; intros a l H; simpl in *.
      * now inversion H.
      * destruct l as [|b l]; [destruct k; discriminate|].
        simpl. f_equal. apply (IHk b l H).
    + destruct k as [|k]; [lia|]. simpl in H.
      unfold slice in *. simpl skipn.
      replace (S (S k) - S i) with (S k - i) by lia.
      replace (S k - S i) with (k - i) by lia.
      apply IH; [assumption | lia].
Qed.

(** ** The brace walk *)

Lemma char_at_ok (t : text) (i : nat) :
  i < List.length t -> exists c, nth_error t i = Some c /\ char_at t i = Ok c.
Proof.
  intros H. unfold char_at.
  destruct (nth_error t i) as [c|] eqn:E.
  - eauto.
  - apply nth_error_None in E. lia.
Qed.

(** The walk started with depth [d] at offset [i] stops at the first
    closing brace after which the depth is zero, and raises nothing. *)
Lemma brace_walk_spec (t : text) (n : nat) :
  forall (i : nat) (d : Z), i + n = List.length t ->
  match brace_walk t n i d with
  | Ok (Some ep) =>
      i <= ep /\ nth_error t ep = Some "}"%char /\
      (d + net_depth (slice t i (S ep)) = 0)%Z /\
      forall k, i <= k < ep ->
        ~ (nth_error t k = Some "}"%char /\
           (d + net_depth (slice t i (S k)) = 0)%Z)
  | Ok None =>
      forall k, i <= k ->
        ~ (nth_error t k = Some "}"%char /\
           (d + net_depth (slice t i (S k)) = 0)%Z)
  | Raise _ => False
  end.
Proof.
  induction n as [|n IH]; intros i d Hn; simpl.
  - intros k Hk [Hc _]. assert (nth_error t k = None) by (apply nth_error_None; lia).
    congruence.
  - destruct (char_at_ok t i) as (c & Hc & ->); [lia|]. simpl.
    assert (Hstep : forall k, i < k -> 
              net_depth (slice t i (S k)) = (brace_delta c + net_depth (slice t (i + 1) (S k)))%Z).
    { intros k Hk. rewrite (slice_cons t i k c Hc) by lia.
      replace (i + 1) with (S i) by lia. reflexivity. }
    assert (Hhere : net_depth (slice t i (S i)) = brace_delta c).
    { rewrite (slice_cons t i i c Hc) by lia. unfold slice.
      rewrite Nat.sub_diag. simpl. lia. }
    assert (Hrec : forall d',
      (d' = d + brace_delta c)%Z ->
      (nth_error t i = Some "}"%char -> d' <> 0%Z) ->
      match brace_walk t n (i + 1) d' with
      | Ok (Some ep) =>
          i <= ep /\ nth_error t ep = Some "}"%char /\
          (d + net_depth (slice t i (S ep)) = 0)%Z /\
          forall k, i <= k < ep ->
            ~ (nth_error t k = Some "}"%char /\
               (d + net_depth (slice t i (S k)) = 0)%Z)
      | Ok None =>
          forall k, i <= k ->
            ~ (nth_error t k = Some "}"%char /\
               (d + net_depth (slice t i (S k)) = 0)%Z)
      | Raise _ => False
      end).
    { intros d' Hd' Hnz. specialize (IH (i + 1) d' ltac:(lia)).
      destruct (brace_walk t n (i + 1) d') as [[ep|]|e]; [| |exact IH].
      - destruct IH as (Hle & Hep & Hz & Hfirst).
        split; [lia|]. split; [exact Hep|]. split.
        + rewrite Hstep by lia. lia.
        + intros k Hk [Hk1 Hk2].
          destruct (Nat.eq_dec k i) as [->|Hne].
          * rewrite Hhere in Hk2. apply (Hnz Hk1). lia.
          * apply (Hfirst k); [lia|]. split; [exact Hk1|].
            rewrite Hstep in Hk2 by lia. lia.
      - intros k Hk [Hk1 Hk2].
        destruct (Nat.eq_dec k i) as [->|Hne].
        + rewrite Hhere in Hk2. apply (Hnz Hk1). lia.
        + apply (IH k); [lia|]. split; [exact Hk1|].
          rewrite Hstep in Hk2 by lia. lia. }
    unfold brace_delta in *.
    destruct (Ascii.eqb c "{") eqn:E1.
    + apply Hrec; [lia|]. apply Ascii.eqb_eq in E1. subst c. congruence.
    + destruct (Ascii.eqb c "}") eqn:E2.
      * destruct (d - 1 =? 0)%Z eqn:E3.
        -- apply Z.eqb_eq in E3. apply Ascii.eqb_eq in E2. subst c.
           split; [lia|]. split; [exact Hc|]. split; [rewrite Hhere; lia|].
           intros k Hk. lia.
        -- apply Z.eqb_neq in E3. apply Hrec; [lia|]. intros _. lia.
      * apply Hrec; [lia|]. intros H. rewrite Hc in H. inversion H. subst c.
        discriminate.
Qed.

(** ** [str.find] and [str.count] *)

Lemma find_from_spec (c : ascii) (l : text) :
  forall i,
  match find_from c l i with
  | Some j => i <= j /\ nth_error l (j - i) = Some c /\
              forall k, k < j - i -> nth_error l k <> Some c
  | None => forall k, nth_error l k <> Some c
  end.
Proof.
  induction l as [|x l IH]; intros i; simpl.
  - intros [|k]; discriminate.
  - destruct (Ascii.eqb x c) eqn:E.
    + apply Ascii.eqb_eq in E. subst x. rewrite Nat.sub_diag.
      split; [lia|]. split; [reflexivity|]. intros k Hk. lia.
    + apply Ascii.eqb_neq in E. specialize (IH (S i)).
      destruct (find_from c l (S i)) as [j|].
      * destruct IH as (Hle & Hj & Hfirst).
        replace (j - i) with (S (j - S i)) by lia.
        split; [lia|]. split; [exact Hj|].
        intros [|k] Hk; simpl; [congruence|]. apply Hfirst. lia.
      * intros [|k]; simpl; [congruence|]. apply IH.
Qed.

Lemma nth_error_skipn {A} (l : list A) (a k : nat) :
  nth_error (skipn a l) k = nth_error l (a + k).
Proof.
  revert l; induction a as [|a IH]; intros l; simpl; [reflexivity|].
  destruct l as [|x l]; [now destruct k|]. apply IH.
Qed.

Lemma str_find_some (t : text) (from bp : nat) :
  str_find "{" t from = Some bp <-> first_brace t from bp.
Proof.
  unfold str_find, first_brace.
  pose proof (find_from_spec "{" (skipn from t) from) as H.
  destruct (find_from "{" (skipn from t) from) as [j|].
  - destruct H as (Hle & Hj & Hfirst).
    rewrite nth_error_skipn in Hj. replace (from + (j - from)) with j in Hj by lia.
    assert (Hf : forall k, from <= k < j -> nth_error t k <> Some "{"%char).
    { intros k Hk. specialize (Hfirst (k - from) ltac:(lia)).
      rewrite nth_error_skipn in Hfirst.
      now replace (from + (k - from)) with k in Hfirst by lia. }
    split.
    + intros E. inversion E. subst j. auto.
    + intros (Hle' & Hbp & Hfirst'). f_equal.
      destruct (Nat.lt_trichotomy j bp) as [Hlt|[->|Hgt]]; [|reflexivity|].
      * exfalso. apply (Hfirst' j); [lia | exact Hj].
      * exfalso. apply (Hf bp); [lia | exact Hbp].
  - split; [discriminate|]. intros (Hle & Hbp & _). exfalso.
    apply (H (bp - from)). rewrite nth_error_skipn.
    now replace (from + (bp - from)) with bp by lia.
Qed.

Lemma str_find_none (t : text) (from : nat) :
  str_find "{" t from = None <-> no_brace t from.
Proof.
  unfold str_find, no_brace.
  pose proof (find_from_spec "{" (skipn from t) from) as H.
  destruct (find_from "{" (skipn from t) from) as [j|].
  - split; [discriminate|]. intros Hno. exfalso.
    destruct H as (Hle & Hj & _). rewrite nth_error_skipn in Hj.
    apply (Hno (from + (j - from))); [lia | exact Hj].
  - split; [|reflexivity]. intros _ k Hk.
    specialize (H (k - from)). rewrite nth_error_skipn in H.
    now replace (from + (k - from)) with k in H by lia.
Qed.

Lemma count_occ_sub_single (c : ascii) (l : text) :
  count_occ_sub [c] l 0 = List.length (filter (Ascii.eqb c) l).
Proof.
  induction l as [|x l IH]; simpl; [reflexivity|].
  rewrite andb_true_r. destruct (Ascii.eqb c x); simpl; now rewrite IH.
Qed.

Lemma slice_0 {A} (l : list A) (b : nat) : slice l 0 b = firstn b l.
Proof. unfold slice. now rewrite Nat.sub_0_r. Qed.

(** [text.count("\n", 0, pos) + 1] is the line number of [pos]. *)
Lemma line_of_line_number (t : text) (pos : nat) :
  line_of t pos = line_number t pos.
Proof.
  unfold line_of, line_number, str_count.
  rewrite slice_0, count_occ_sub_single. lia.
Qed.

Lemma firstn_le_app {A} (l : list A) (a b : nat) :
  a <= b -> exists r, firstn b l = firstn a l ++ r.
Proof.
  revert a b; induction l as [|x l IH]; intros a b Hle.
  - exists []. now rewrite !firstn_nil.
  - destruct a as [|a]; [now exists (firstn b (x :: l))|].
    destruct b as [|b]; [lia|]. destruct (IH a b ltac:(lia)) as [r Hr].
    exists r. simpl. now rewrite Hr.
Qed.

Lemma line_number_mono (t : text) (a b : nat) :
  a <= b -> line_number t a <= line_number t b.
Proof.
  intros Hle. unfold line_number.
  destruct (firstn_le_app t a b Hle) as [r ->].
  rewrite filter_app, length_app. lia.
Qed.

(** ** One declaration match *)

Lemma first_brace_in_text (t : text) (from bp : nat) :
  first_brace t from bp -> bp < List.length t.
Proof.
  intros (_ & H & _). apply nth_error_Some. congruence.
Qed.

Lemma range_of_match_no_brace (t : text) (m : Match) :
  no_brace t (m_end m) -> range_of_match t m = Ok None.
Proof.
  intros H. apply str_find_none in H. unfold range_of_match. now rewrite H.
Qed.

Lemma range_of_match_closed (t : text) (m : Match) (bp ep : nat) :
  first_brace t (m_end m) bp -> first_close t bp ep ->
  range_of_match t m = Ok (Some (line_number t bp, line_number t ep)).
Proof.
  intros Hb (Hle & [Hc Hz] & Hfirst).
  pose proof (first_brace_in_text _ _ _ Hb) as Hlen.
  apply str_find_some in Hb. unfold range_of_match. rewrite Hb.
  pose proof (brace_walk_spec t (List.length t - bp) bp 0 ltac:(lia)) as H.
  destruct (brace_walk t (List.length t - bp) bp 0) as [[ep'|]|e]; simpl.
  - destruct H as (Hle' & Hc' & Hz' & Hfirst').
    assert (ep' = ep) as ->.
    { destruct (Nat.lt_trichotomy ep' ep) as [Hlt|[E|Hgt]]; [|exact E|].
      - exfalso. apply (Hfirst ep'); [lia|]. split; [exact Hc'|].
        unfold depth_after. lia.
      - exfalso. apply (Hfirst' ep); [lia|]. split; [exact Hc|].
        unfold depth_after in Hz. lia. }
    now rewrite !line_of_line_number.
  - exfalso. apply (H ep Hle). split; [exact Hc|].
    unfold depth_after in Hz. lia.
  - contradiction.
Qed.

Lemma range_of_match_never_closed (t : text) (m : Match) (bp : nat) :
  first_brace t (m_end m) bp -> never_closes t bp ->
  range_of_match t m = Ok None.
Proof.
  intros Hb Hnever.
  pose proof (first_brace_in_text _ _ _ Hb) as Hlen.
  apply str_find_some in Hb. unfold range_of_match. rewrite Hb.
  pose proof (brace_walk_spec t (List.length t - bp) bp 0 ltac:(lia)) as H.
  destruct (brace_walk t (List.length t - bp) bp 0) as [[ep'|]|e]; simpl.
  - exfalso. destruct H as (Hle' & Hc' & Hz' & _).
    apply (Hnever ep' Hle'). split; [exact Hc'|]. unfold depth_after. lia.
  - reflexivity.
  - contradiction.
Qed.

(** No text and no match make the loop body raise. *)
Lemma range_of_match_total (t : text) (m : Match) :
  exists r, range_of_match t m = Ok r.
Proof.
  unfold range_of_match.
  destruct (str_find "{" t (m_end m)) as [bp|] eqn:E; [|eauto].
  apply str_find_some in E. apply first_brace_in_text in E.
  pose proof (brace_walk_spec t (List.length t - bp) bp 0 ltac:(lia)) as H.
  destruct (brace_walk t (List.length t - bp) bp 0) as [[ep'|]|e]; simpl;
    [eauto | eauto | contradiction].
Qed.

(** ** The dict of ranges and the loop over the matches *)

Lemma dict_append_spec (d : Ranges) (name : string) (x : Range) :
  In name (map fst d) ->
  exists d', dict_append d name x = Ok d' /\
             map fst d' = map fst d /\
             forall k, lookup d' k =
                       if String.eqb name k
                       then option_map (fun v => v ++ [x]) (lookup d k)
                       else lookup d k.
Proof.
  induction d as [|[k0 v0] d IH]; intros Hin; [contradiction|].
  simpl. destruct (String.eqb k0 name) eqn:E.
  - apply String.eqb_eq in E. subst k0.
    eexists; split; [reflexivity|]. split; [reflexivity|].
    intros k. simpl. destruct (String.eqb name k); reflexivity.
  - destruct Hin as [Hin|Hin].
    { simpl in Hin. subst k0. rewrite String.eqb_refl in E. discriminate. }
    destruct (IH Hin) as (d' & -> & Hkeys & Hlook). simpl.
    eexists; split; [reflexivity|]. split; [simpl; now rewrite Hkeys|].
    intros k. simpl. rewrite Hlook.
    destruct (String.eqb k0 k) eqn:E'; [|reflexivity].
    apply String.eqb_eq in E'. subst k0.
    now rewrite String.eqb_sym, E.
Qed.

Lemma ranges_named_cons (t : text) (name : string) (m : Match) (ms : list Match) :
  ranges_named t name (m :: ms) =
  (if String.eqb (m_group m) name then contribution t m else [])
  ++ ranges_named t name ms.
Proof.
  unfold ranges_named. simpl.
  destruct (String.eqb (m_group m) name); reflexivity.
Qed.

Lemma ranges_named_app (t : text) (name : string) (ms1 ms2 : list Match) :
  ranges_named t name (ms1 ++ ms2) =
  ranges_named t name ms1 ++ ranges_named t name ms2.
Proof.
  unfold ranges_named. now rewrite filter_app, flat_map_app.
Qed.

(** The loop keeps the keys, raises nothing, and extends every group by
    the ranges of its own matches, in the order of the matches. *)
Lemma method_loop_spec (t : text) (ms : list Match) :
  forall d : Ranges,
  Forall (fun m => In (m_group m) (map fst d)) ms ->
  exists d', method_loop t ms d = Ok d' /\
             map fst d' = map fst d /\
             forall k v, lookup d k = Some v ->
                         lookup d' k = Some (v ++ ranges_named t k ms).
Proof.
  induction ms as [|m ms IH]; intros d Hall.
  - exists d. split; [reflexivity|]. split; [reflexivity|].
    intros k v H. unfold ranges_named. simpl. now rewrite app_nil_r.
  - inversion Hall as [|? ? Hm Hms]; subst. simpl.
    assert (Hc : forall k, ranges_named t k (m :: ms) =
              (if String.eqb (m_group m) k then contribution t m else [])
              ++ ranges_named t k ms) by (intros; apply ranges_named_cons).
    unfold contribution in Hc.
    destruct (range_of_match_total t m) as [o Ho]. rewrite Ho in *. simpl.
    destruct o as [r|].
    + destruct (dict_append_spec d (m_group m) r Hm) as (d1 & -> & Hk1 & Hl1).
      simpl. destruct (IH d1) as (d' & -> & Hk & Hl).
      { rewrite Hk1. exact Hms. }
      exists d'. split; [reflexivity|]. split; [congruence|].
      intros k v Hv. rewrite Hc. specialize (Hl1 k). rewrite Hv in Hl1.
      destruct (String.eqb (m_group m) k); simpl in Hl1.
      * rewrite (Hl k _ Hl1). now rewrite <- app_assoc.
      * apply (Hl k _ Hl1).
    + destruct (IH d Hms) as (d' & -> & Hk & Hl).
      exists d'. split; [reflexivity|]. split; [exact Hk|].
      intros k v Hv. rewrite Hc.
      destruct (String.eqb (m_group m) k); simpl; apply (Hl k v Hv).
Qed.

(** ** [finditer] and the declaration pattern *)

Lemma finditer_from_matcher (mt : matcher) (t : text) (starts : list nat) :
  forall pos x, In x (finditer_from mt t starts pos) ->
  exists s, In s starts /\ mt t s = Some x.
Proof.
  induction starts as [|s starts IH]; intros pos x Hin; [contradiction|].
  simpl in Hin. destruct (s <? pos).
  - destruct (IH _ _ Hin) as (s' & ? & ?). exists s'. simpl. auto.
  - destruct (mt t s) as [y|] eqn:E.
    + destruct Hin as [->|Hin]; [exists s; simpl; auto|].
      destruct (IH _ _ Hin) as (s' & ? & ?). exists s'. simpl. auto.
    + destruct (IH _ _ Hin) as (s' & ? & ?). exists s'. simpl. auto.
Qed.

Lemma ends_group_name (pre : regex) (ws : list string) (post : regex)
    (t : text) (i : nat) (w : string) (e : nat) :
  In (w, e) (ends_group pre ws post t i) -> In w ws.
Proof.
  unfold ends_group. intros H.
  apply in_flat_map in H. destruct H as (j & _ & H).
  apply in_flat_map in H. destruct H as (w' & Hw' & H).
  apply in_map_iff in H. destruct H as (e' & E & _).
  inversion E. now subst.
Qed.

Lemma match_group_at_name (pre : regex) (ws : list string) (post : regex)
    (t : text) (i : nat) (x : Match) :
  match_group_at pre ws post t i = Some x -> In (m_group x) ws.
Proof.
  unfold match_group_at.
  destruct (ends_group pre ws post t i) as [|[w e] l] eqn:E; [discriminate|].
  intros H. inversion H. subst x. simpl.
  apply (ends_group_name pre ws post t i w e). rewrite E. now left.
Qed.

Lemma finditer_method_names (t : text) :
  Forall (fun m => In (m_group m) METHOD_NAMES) (finditer METHOD_START_RE t).
Proof.
  apply Forall_forall. intros x Hx.
  apply finditer_from_matcher in Hx. destruct Hx as (s & _ & Hs).
  now apply match_group_at_name in Hs.
Qed.

Lemma no_declaration_finditer (t : text) :
  no_declaration t -> finditer METHOD_START_RE t = [].
Proof.
  intros Hno. destruct (finditer METHOD_START_RE t) as [|x l] eqn:E; [reflexivity|].
  assert (Hx : In x (finditer METHOD_START_RE t)) by (rewrite E; now left).
  apply finditer_from_matcher in Hx. destruct Hx as (s & _ & Hs).
  rewrite Hno in Hs. discriminate.
Qed.

(** ** [find_method_ranges] as a whole *)

(** The mapping returned has the three names as keys, in the order of the
    dict literal, and binds each to the ranges of its own declarations. *)
Lemma find_method_ranges_spec (t : text) :
  exists rs, find_method_ranges t = Ok rs /\
             map fst rs = METHOD_NAMES /\
             forall name, In name METHOD_NAMES ->
               lookup rs name =
               Some (ranges_named t name (finditer METHOD_START_RE t)).
Proof.
  unfold find_method_ranges.
  destruct (method_loop_spec t (finditer METHOD_START_RE t) initial_ranges)
    as (rs & Hrs & Hkeys & Hlook).
  { apply finditer_method_names. }
  exists rs. split; [exact Hrs|]. split; [exact Hkeys|].
  intros name Hin.
  assert (H0 : lookup initial_ranges name = Some []).
  { simpl in Hin. destruct Hin as [<-|[<-|[<-|[]]]]; reflexivity. }
  now rewrite (Hlook name [] H0).
Qed.

Lemma brace_walk_first_close (t : text) (bp ep : nat) :
  bp <= List.length t ->
  brace_walk t (List.length t - bp) bp 0 = Ok (Some ep) ->
  first_close t bp ep.
Proof.
  intros Hlen Hw.
  pose proof (brace_walk_spec t (List.length t - bp) bp 0 ltac:(lia)) as H.
  rewrite Hw in H. destruct H as (Hle & Hc & Hz & Hfirst).
  split; [exact Hle|]. split.
  - split; [exact Hc|]. unfold depth_after. lia.
  - intros k Hk [Hk1 Hk2]. apply (Hfirst k Hk). split; [exact Hk1|].
    unfold depth_after in Hk2. lia.
Qed.

Lemma brace_walk_never_closes (t : text) (bp : nat) :
  bp <= List.length t ->
  brace_walk t (List.length t - bp) bp 0 = Ok None ->
  never_closes t bp.
Proof.
  intros Hlen Hw.
  pose proof (brace_walk_spec t (List.length t - bp) bp 0 ltac:(lia)) as H.
  rewrite Hw in H. intros k Hk [Hk1 Hk2]. apply (H k Hk).
  split; [exact Hk1|]. unfold depth_after in Hk2. lia.
Qed.

(** ** Claims about [find_method_ranges] *)

(** C1.  A declaration of [Update], [FixedUpdate] or [LateUpdate] whose
    signature is followed by an opening brace at offset [bp], and whose
    brace depth first returns to zero at the closing brace at offset [ep],
    adds exactly one range to the group of its name: the group is the
    ranges of the earlier declarations, then this one range, then the
    ranges of the later declarations.  The range starts at the line of the
    opening brace, ends at the line of that closing brace, and its end
    line is not before its start line. *)
Theorem locate_balanced_declaration (t : text) (m : Match) (bp ep : nat) :
  In m (finditer METHOD_START_RE t) ->
  first_brace t (m_end m) bp ->
  first_close t bp ep ->
  exists rs before after,
    find_method_ranges t = Ok rs /\
    finditer METHOD_START_RE t = before ++ m :: after /\
    In (m_group m) METHOD_NAMES /\
    contribution t m = [(line_number t bp, line_number t ep)] /\
    lookup rs (m_group m) =
      Some (ranges_named t (m_group m) before
            ++ [(line_number t bp, line_number t ep)]
            ++ ranges_named t (m_group m) after) /\
    line_number t bp <= line_number t ep.
Proof.
  intros Hin Hb Hc.
  destruct (find_method_ranges_spec t) as (rs & Hrs & _ & Hlook).
  destruct (in_split _ _ Hin) as (before & after & Hsplit).
  assert (Hname : In (m_group m) METHOD_NAMES).
  { pose proof (finditer_method_names t) as H.
    rewrite Forall_forall in H. now apply H. }
  assert (Hcontrib : contribution t m = [(line_number t bp, line_number t ep)]).
  { unfold contribution. now rewrite (range_of_match_closed t m bp ep Hb Hc). }
  exists rs, before, after.
  repeat split; try assumption.
  - rewrite (Hlook _ Hname), Hsplit, ranges_named_app, ranges_named_cons.
    now rewrite String.eqb_refl, Hcontrib.
  - apply line_number_mono. now destruct Hc.
Qed.

Lemma locate_balanced_declaration_witness :
  let t := txt "void Update() { if (x) { GetComponent<Foo>(); } }" in
  let m := mkMatch 0 12 "Update" in
  In m (finditer METHOD_START_RE t) /\
  first_brace t (m_end m) 14 /\
  first_close t 14 48 /\
  exists rs before after,
    find_method_ranges t = Ok rs /\
    finditer METHOD_START_RE t = before ++ m :: after /\
    In (m_group m) METHOD_NAMES /\
    contribution t m = [(line_number t 14, line_number t 48)] /\
    lookup rs (m_group m) =
      Some (ranges_named t (m_group m) before
            ++ [(line_number t 14, line_number t 48)]
            ++ ranges_named t (m_group m) after) /\
    line_number t 14 <= line_number t 48.
Proof.
  intros t m.
  assert (H1 : In m (finditer METHOD_START_RE t)) by (vm_compute; auto).
  assert (H2 : first_brace t (m_end m) 14)
    by (apply str_find_some; vm_compute; reflexivity).
  assert (H3 : first_close t 14 48)
    by (apply brace_walk_first_close; [vm_compute; lia | vm_compute; reflexivity]).
  split; [exact H1|]. split; [exact H2|]. split; [exact H3|].
  exact (locate_balanced_declaration t m 14 48 H1 H2 H3).
Defined.

(** C2.  [find_method_ranges] returns a mapping for every text and raises
    nothing, the empty text included; and a declaration match with no
    opening brace at or after the end of its signature, or whose brace
    depth never returns to zero, adds no range: the loop body takes the
    [continue] branch for it, and every group of the mapping returned is
    made of the ranges of the other declaration matches only. *)
Theorem locate_unmatched_declaration_skipped (t : text) :
  (exists rs, find_method_ranges t = Ok rs) /\
  find_method_ranges [] = Ok initial_ranges /\
  forall m : Match,
    no_brace t (m_end m) \/
    (exists bp, first_brace t (m_end m) bp /\ never_closes t bp) ->
    range_of_match t m = Ok None /\ contribution t m = [] /\
    (In m (finditer METHOD_START_RE t) ->
     exists rs before after,
       find_method_ranges t = Ok rs /\
       finditer METHOD_START_RE t = before ++ m :: after /\
       forall name, In name METHOD_NAMES ->
         lookup rs name =
           Some (ranges_named t name before ++ ranges_named t name after)).
Proof.
  split.
  { destruct (find_method_ranges_spec t) as (rs & Hrs & _). eauto. }
  split; [reflexivity|].
  intros m H.
  assert (Hr : range_of_match t m = Ok None).
  { destruct H as [H|(bp & Hb & Hn)].
    - now apply range_of_match_no_brace.
    - now apply (range_of_match_never_closed t m bp). }
  assert (Hc : contribution t m = []) by (unfold contribution; now rewrite Hr).
  split; [exact Hr|]. split; [exact Hc|].
  intros Hin.
  destruct (find_method_ranges_spec t) as (rs & Hrs & _ & Hlook).
  destruct (in_split _ _ Hin) as (before & after & Hsplit).
  exists rs, before, after. split; [exact Hrs|]. split; [exact Hsplit|].
  intros name Hname.
  rewrite (Hlook name Hname), Hsplit, ranges_named_app, ranges_named_cons, Hc.
  now destruct (String.eqb (m_group m) name).
Qed.

Lemma locate_unmatched_declaration_skipped_witness :
  let t := txt "void Update() { } void LateUpdate() { if (x) { y(); }" in
  let m1 := mkMatch 18 34 "LateUpdate" in
  let t2 := txt "void Update(); void LateUpdate();" in
  let m2 := mkMatch 15 31 "LateUpdate" in
  (exists bp, first_brace t (m_end m1) bp /\ never_closes t bp) /\
  In m1 (finditer METHOD_START_RE t) /\
  no_brace t2 (m_end m2) /\
  (range_of_match t m1 = Ok None /\ contribution t m1 = []) /\
  (exists rs before after,
     find_method_ranges t = Ok rs /\
     finditer METHOD_START_RE t = before ++ m1 :: after /\
     forall name, In name METHOD_NAMES ->
       lookup rs name =
         Some (ranges_named t name before ++ ranges_named t name after)) /\
  find_method_ranges t =
    Ok [("Update", [(1, 1)]); ("FixedUpdate", []); ("LateUpdate", [])] /\
  (range_of_match t2 m2 = Ok None /\ contribution t2 m2 = []).
Proof.
  intros t m1 t2 m2.
  assert (H1 : exists bp, first_brace t (m_end m1) bp /\ never_closes t bp).
  { exists 36. split.
    - apply str_find_some. vm_compute. reflexivity.
    - apply brace_walk_never_closes; [vm_compute; lia | vm_compute; reflexivity]. }
  assert (Hin : In m1 (finditer METHOD_START_RE t)) by (vm_compute; auto).
  assert (H2 : no_brace t2 (m_end m2))
    by (apply str_find_none; vm_compute; reflexivity).
  pose proof (proj2 (proj2 (locate_unmatched_declaration_skipped t)) m1
                (or_intror H1)) as (Hr & Hc & Hmap).
  pose proof (proj2 (proj2 (locate_unmatched_declaration_skipped t2)) m2
                (or_introl H2)) as (Hr2 & Hc2 & _).
  split; [exact H1|]. split; [exact Hin|]. split; [exact H2|].
  split; [split; assumption|]. split; [exact (Hmap Hin)|].
  split; [vm_compute; reflexivity|]. split; assumption.
Defined.

(** C8, as the code has it.  For a text in which no position starts a
    declaration of one of the three methods, [find_method_ranges] returns
    the mapping it starts from: the three keys [Update], [FixedUpdate] and
    [LateUpdate], in this order, each bound to the empty list.  (The
    mapping holds no range, but it is not the empty dict.) *)
Theorem locate_no_declaration (t : text) :
  no_declaration t ->
  find_method_ranges t = Ok initial_ranges /\
  map fst initial_ranges = METHOD_NAMES /\
  forall name, In name METHOD_NAMES -> lookup initial_ranges name = Some [].
Proof.
  intros Hno. split.
  - unfold find_method_ranges. now rewrite (no_declaration_finditer t Hno).
  - split; [reflexivity|].
    intros name Hin. simpl in Hin.
    destruct Hin as [<-|[<-|[<-|[]]]]; reflexivity.
Qed.

Lemma no_declaration_empty : no_declaration [].
Proof.
  intros i. unfold METHOD_START_RE, match_group_at, ends_group.
  simpl. unfold word_before, word_at.
  destruct i as [|i]; simpl.
  - reflexivity.
  - destruct i; reflexivity.
Qed.

Lemma locate_no_declaration_witness :
  no_declaration [] /\ find_method_ranges [] = Ok initial_ranges.
Proof.
  split; [exact no_declaration_empty|].
  exact (proj1 (locate_no_declaration [] no_declaration_empty)).
Defined.

(** C8, as the spec words it, fails: the empty text holds no declaration,
    and the mapping returned for it has three keys. *)
Lemma locate_no_declaration_not_empty_mapping :
  no_declaration (txt "") /\
  find_method_ranges (txt "") =
    Ok [("Update", []); ("FixedUpdate", []); ("LateUpdate", [])] /\
  find_method_ranges (txt "") <> Ok [].
Proof.
  split; [exact no_declaration_empty|]. split; [reflexivity | discriminate].
Qed.

(** ** The rule chain of [main] *)

Lemma append_each_map {A} (mk : A -> Finding) (ms : list A) :
  forall fs, append_each mk ms fs = fs ++ map mk ms.
Proof.
  unfold append_each.
  induction ms as [|m ms IH]; intros fs; simpl.
  - now rewrite app_nil_r.
  - rewrite IH, <- app_assoc. reflexivity.
Qed.

Lemma file_rules_spec (f : string) (t : text) (fs : list Finding) :
  file_rules f t fs =
  fs ++ using_findings f t ++ empty_catch_findings f t
     ++ async_void_findings f t ++ unsubscribe_findings f t
     ++ coroutine_findings f t.
Proof.
  unfold file_rules, using_findings, empty_catch_findings,
    async_void_findings, unsubscribe_findings, coroutine_findings.
  rewrite !append_each_map.
  destruct (re_search (match_at RE_using_unityeditor) t);
  destruct (found (re_search (match_at RE_subscribe_event) t)
            && negb (found (re_search (match_at RE_unsubscribe_event) t)));
  destruct (found (re_search (match_at RE_start_coroutine) t));
  destruct (negb (str_contains (txt "OnDisable") t)
            && negb (str_contains (txt "OnDestroy") t)
            && negb (str_contains (txt "StopCoroutine") t));
  simpl; rewrite <- ?app_assoc, ?app_nil_r; reflexivity.
Qed.

Lemma body_rules_spec (f : string) (lines : list text) (name : string)
    (se : Range) (fs : list Finding) :
  body_rules f lines name se fs = fs ++ body_findings f lines name se.
Proof.
  destruct se as [s e].
  unfold body_rules, body_findings, body_rule_table, triggered. simpl.
  destruct (found (re_search (match_at RE_expensive_call_in_update) (body_text lines s e)));
  destruct (found (re_search (match_at RE_linq_in_update) (body_text lines s e)));
  destruct (found (re_search (match_at RE_debug_in_update) (body_text lines s e)));
  destruct (String.eqb name "FixedUpdate");
  simpl;
  try destruct (found (re_search (match_at RE_fixedupdate_physics_calls) (body_text lines s e)));
  simpl; rewrite <- ?app_assoc, ?app_nil_r; reflexivity.
Qed.

Lemma method_rules_spec (f : string) (lines : list text) (rs : Ranges) :
  forall fs,
  method_rules f lines rs fs = fs ++ flat_map (group_findings f lines) rs.
Proof.
  unfold method_rules.
  induction rs as [|[name ranges] rs IH]; intros fs; simpl.
  - now rewrite app_nil_r.
  - rewrite IH. unfold group_findings at 2. simpl.
    rewrite app_assoc. f_equal.
    clear IH. revert fs. induction ranges as [|se ranges IHr]; intros fs; simpl.
    + now rewrite app_nil_r.
    + rewrite IHr, body_rules_spec, <- app_assoc. reflexivity.
Qed.

(** One file appends its findings to those collected so far. *)
Lemma scan_file_spec (f : string) (t : text) (fs : list Finding) :
  exists rs,
    find_method_ranges t = Ok rs /\
    map fst rs = METHOD_NAMES /\
    scan_file f t fs =
    Ok (fs ++ using_findings f t ++ empty_catch_findings f t
           ++ async_void_findings f t ++ unsubscribe_findings f t
           ++ coroutine_findings f t
           ++ flat_map (group_findings f (splitlines t)) rs).
Proof.
  destruct (find_method_ranges_spec t) as (rs & Hrs & Hkeys & _).
  exists rs. split; [exact Hrs|]. split; [exact Hkeys|].
  unfold scan_file. rewrite Hrs. simpl.
  rewrite method_rules_spec, file_rules_spec, <- !app_assoc. reflexivity.
Qed.

(** ** Rule identifiers *)

Lemma string_append_inv_head (a b c : string) :
  (a ++ b)%string = (a ++ c)%string -> b = c.
Proof.
  induction a as [|x a IH]; simpl; intros H; [exact H|].
  inversion H. now apply IH.
Qed.

Lemma String_eqb_true_eq (a b : string) : String.eqb a b = true -> a = b.
Proof. apply String.eqb_eq. Qed.

(** The rules that apply to one range have different identifiers. *)
Lemma body_rule_table_NoDup (f name : string) (s : nat) :
  NoDup (map (fun rf => rule (snd rf)) (body_rule_table f name s)).
Proof.
  unfold body_rule_table.
  assert (H3 : NoDup [(lower name ++ "-expensive-call")%string;
                      (lower name ++ "-linq-allocation")%string;
                      (lower name ++ "-debuglog")%string]).
  { repeat constructor; simpl; intuition;
      match goal with
      | H : _ = _ |- _ => apply string_append_inv_head in H; discriminate H
      end. }
  destruct (String.eqb name "FixedUpdate") eqn:E; simpl.
  - apply String_eqb_true_eq in E. subst name. simpl.
    repeat constructor; simpl; intuition discriminate.
  - exact H3.
Qed.

Lemma body_rule_table_line (f name : string) (s : nat) :
  Forall (fun rf => line (snd rf) = s) (body_rule_table f name s).
Proof.
  unfold body_rule_table.
  destruct (String.eqb name "FixedUpdate"); repeat constructor.
Qed.

Lemma NoDup_map_filter {A B} (g : A -> B) (P : A -> bool) (l : list A) :
  NoDup (map g l) -> NoDup (map g (filter P l)).
Proof.
  induction l as [|x l IH]; simpl; intros H; [constructor|].
  inversion H as [|? ? Hnin Hnd]; subst.
  destruct (P x); simpl; [|now apply IH].
  constructor; [|now apply IH].
  intros Hin. apply Hnin. apply in_map_iff in Hin.
  destruct Hin as (y & Hy & Hin). apply filter_In in Hin.
  apply in_map_iff. exists y. tauto.
Qed.

Lemma with_rule_NoDup (r : string) (fs : list Finding) :
  NoDup (map rule fs) -> List.length (with_rule r fs) <= 1.
Proof.
  unfold with_rule.
  induction fs as [|x fs IH]; simpl; intros H; [lia|].
  inversion H as [|? ? Hnin Hnd]; subst.
  destruct (String.eqb (rule x) r) eqn:E; [|now apply IH].
  apply String.eqb_eq in E. simpl.
  assert (Hnone : filter (fun y => String.eqb (rule y) r) fs = []).
  { destruct (filter (fun y => String.eqb (rule y) r) fs) as [|y l] eqn:Ef;
      [reflexivity|].
    exfalso. apply Hnin.
    assert (Hy : In y (filter (fun y => String.eqb (rule y) r) fs))
      by (rewrite Ef; now left).
    apply filter_In in Hy. destruct Hy as [Hy Hr].
    apply String.eqb_eq in Hr. apply in_map_iff. exists y. split; congruence. }
  rewrite Hnone. simpl. lia.
Qed.

(** ** Claims about the rule chain *)

(** C3.  For one range of one method, the body-scope rules append their
    findings to those collected so far; among the appended findings no rule
    identifier occurs twice, every one carries the start line of the range,
    and the finding of an applicable rule is appended exactly when its
    pattern is found in the body text, however often it occurs there. *)
Theorem body_rule_fires_at_most_once
    (f : string) (lines : list text) (name : string)
    (s e : nat) (fs : list Finding) :
  exists new,
    body_rules f lines name (s, e) fs = fs ++ new /\
    (forall r, List.length (with_rule r new) <= 1) /\
    Forall (fun x => line x = s) new /\
    (forall r fd, In (r, fd) (body_rule_table f name s) ->
       (In fd new <-> triggered (body_text lines s e) r = true)).
Proof.
  exists (body_findings f lines name (s, e)).
  split; [apply body_rules_spec|].
  pose proof (body_rule_table_NoDup f name s) as Hnd.
  pose proof (body_rule_table_line f name s) as Hline.
  unfold body_findings. simpl fst. simpl snd.
  set (P := fun rf : regex * Finding =>
              triggered (body_text lines s e) (fst rf)).
  split; [|split].
  - intros r. apply with_rule_NoDup. rewrite map_map.
    now apply NoDup_map_filter.
  - apply Forall_forall. intros x Hx. apply in_map_iff in Hx.
    destruct Hx as ([r fd] & <- & Hin). apply filter_In in Hin.
    rewrite Forall_forall in Hline. now apply (Hline (r, fd)).
  - intros r fd Hin. split.
    + intros Hfd. apply in_map_iff in Hfd.
      destruct Hfd as ([r' fd'] & Hsnd & Hin'). simpl in Hsnd. subst fd'.
      apply filter_In in Hin'. destruct Hin' as [Hin' HP].
      assert (r' = r) as <-; [|exact HP].
      clear HP. revert Hnd Hin Hin'.
      generalize (body_rule_table f name s) as tbl.
      induction tbl as [|[r0 fd0] tbl IH]; simpl; intros Hnd H1 H2;
        [contradiction|].
      inversion Hnd as [|? ? Hnin Hnd']; subst.
      destruct H1 as [H1|H1], H2 as [H2|H2].
      * congruence.
      * inversion H1; subst. exfalso. apply Hnin.
        apply in_map_iff. now exists (r', fd).
      * inversion H2; subst. exfalso. apply Hnin.
        apply in_map_iff. now exists (r, fd).
      * now apply IH.
    + intros Htr. apply in_map_iff. exists (r, fd). split; [reflexivity|].
      apply filter_In. split; [exact Hin | exact Htr].
Qed.

Lemma body_rule_fires_at_most_once_witness :
  let lines := [txt "void Update() { GetComponent<A>(); GetComponent<B>(); }"] in
  let fd := expensive_finding "a.cs" "Update" 1 in
  In (RE_expensive_call_in_update, fd) (body_rule_table "a.cs" "Update" 1) /\
  triggered (body_text lines 1 1) RE_expensive_call_in_update = true /\
  exists new,
    body_rules "a.cs" lines "Update" (1, 1) [] = [] ++ new /\
    List.length (with_rule "update-expensive-call" new) <= 1 /\
    Forall (fun x => line x = 1) new /\
    In fd new.
Proof.
  intros lines fd.
  assert (Hin : In (RE_expensive_call_in_update, fd)
                   (body_rule_table "a.cs" "Update" 1)) by (simpl; auto).
  assert (Htr : triggered (body_text lines 1 1) RE_expensive_call_in_update
                = true) by (vm_compute; reflexivity).
  split; [exact Hin|]. split; [exact Htr|].
  destruct (body_rule_fires_at_most_once "a.cs" lines "Update" 1 1 [])
    as (new & Heq & Hcount & Hline & Hiff).
  exists new. split; [exact Heq|]. split; [apply Hcount|].
  split; [exact Hline|]. apply (Hiff _ _ Hin). exact Htr.
Defined.

(** C4.  The findings of one file are the findings of the five file-scope
    rules, in the order editor import, empty catch, async void, missing
    unsubscription, missing coroutine stop; then, for the groups [Update],
    [FixedUpdate], [LateUpdate] in this order and for each range of a group
    in textual order, the findings of the body-scope rules in the order of
    their table.  Equal texts give equal sequences. *)
Theorem findings_order_deterministic (f : string) (t : text) :
  exists rs,
    find_method_ranges t = Ok rs /\
    map fst rs = ["Update"; "FixedUpdate"; "LateUpdate"] /\
    evaluate f t =
      Ok (using_findings f t ++ empty_catch_findings f t
          ++ async_void_findings f t ++ unsubscribe_findings f t
          ++ coroutine_findings f t
          ++ flat_map (fun group =>
               flat_map (body_findings f (splitlines t) (fst group))
                        (snd group)) rs) /\
    Forall (fun x => rule x = "using-UnityEditor-in-runtime")
           (using_findings f t) /\
    Forall (fun x => rule x = "empty-catch-block") (empty_catch_findings f t) /\
    Forall (fun x => rule x = "async-void") (async_void_findings f t) /\
    Forall (fun x => rule x = "event-unsubscribe-missing")
           (unsubscribe_findings f t) /\
    Forall (fun x => rule x = "coroutine-stop-missing")
           (coroutine_findings f t) /\
    (forall t', t' = t -> evaluate f t' = evaluate f t).
Proof.
  destruct (scan_file_spec f t []) as (rs & Hrs & Hkeys & Hscan).
  exists rs. split; [exact Hrs|]. split; [exact Hkeys|].
  split; [exact Hscan|].
  repeat split.
  - unfold using_findings.
    destruct (re_search (match_at RE_using_unityeditor) t); repeat constructor.
  - unfold empty_catch_findings. apply Forall_forall. intros x Hx.
    apply in_map_iff in Hx. now destruct Hx as (m & <- & _).
  - unfold async_void_findings. apply Forall_forall. intros x Hx.
    apply in_map_iff in Hx. now destruct Hx as (m & <- & _).
  - unfold unsubscribe_findings.
    destruct (found (re_search (match_at RE_subscribe_event) t)
              && negb (found (re_search (match_at RE_unsubscribe_event) t)));
      repeat constructor.
  - unfold coroutine_findings.
    destruct (found (re_search (match_at RE_start_coroutine) t)
              && (negb (str_contains (txt "OnDisable") t)
                  && negb (str_contains (txt "OnDestroy") t)
                  && negb (str_contains (txt "StopCoroutine") t)));
      repeat constructor.
  - intros t' ->. reflexivity.
Qed.

Lemma findings_order_deterministic_witness :
  let t := txt "void FixedUpdate() { rb.AddForce(Vector3.up); } async void Foo() { }" in
  t = t /\
  evaluate "a.cs" t = evaluate "a.cs" t /\
  exists rs,
    find_method_ranges t = Ok rs /\
    evaluate "a.cs" t =
      Ok (using_findings "a.cs" t ++ empty_catch_findings "a.cs" t
          ++ async_void_findings "a.cs" t ++ unsubscribe_findings "a.cs" t
          ++ coroutine_findings "a.cs" t
          ++ flat_map (fun group =>
               flat_map (body_findings "a.cs" (splitlines t) (fst group))
                        (snd group)) rs).
Proof.
  intros t.
  destruct (findings_order_deterministic "a.cs" t)
    as (rs & Hrs & _ & Heval & _ & _ & _ & _ & _ & Hdet).
  split; [reflexivity|]. split; [exact (Hdet t eq_refl)|].
  exists rs. split; [exact Hrs | exact Heval].
Defined.

(** ** Searching *)

Lemma search_from_found (mt : matcher) (t : text) (starts : list nat) :
  found (search_from mt t starts) = true <->
  exists s, In s starts /\ mt t s <> None.
Proof.
  induction starts as [|s starts IH]; simpl.
  - split; [discriminate|]. intros (s & [] & _).
  - destruct (mt t s) as [x|] eqn:E; simpl.
    + split; [|reflexivity]. intros _. exists s. split; [now left|congruence].
    + rewrite IH. split.
      * intros (s' & Hin & H). exists s'. auto.
      * intros (s' & [->|Hin] & H); [congruence|]. exists s'. auto.
Qed.

Lemma match_at_some (r : regex) (t : text) (s : nat) :
  match_at r t s <> None <-> exists e, In e (ends r t s).
Proof.
  unfold match_at. destruct (ends r t s) as [|e l].
  - split; [congruence|]. intros (e & []).
  - split; [|discriminate]. intros _. exists e. now left.
Qed.

Lemma in_positions (t : text) (s : nat) :
  In s (positions t) <-> s <= List.length t.
Proof. unfold positions. rewrite in_seq. lia. Qed.

(** A search succeeds exactly when the pattern matches at some offset. *)
Lemma triggered_iff (r : regex) (t : text) :
  triggered t r = true <->
  exists s e, s <= List.length t /\ In e (ends r t s).
Proof.
  unfold triggered, re_search. rewrite search_from_found. split.
  - intros (s & Hs & H). apply in_positions in Hs. apply match_at_some in H.
    destruct H as [e He]. eauto.
  - intros (s & e & Hs & He). exists s. split; [now apply in_positions|].
    apply match_at_some. eauto.
Qed.

Lemma prefixb_true (w l : text) :
  prefixb w l = true <-> exists post, l = w ++ post.
Proof.
  revert l; induction w as [|a w IH]; intros l; simpl.
  - split; [eauto|reflexivity].
  - destruct l as [|b l].
    + split; [discriminate|]. intros (post & H). discriminate.
    + rewrite andb_true_iff, Ascii.eqb_eq, IH. split.
      * intros (-> & post & ->). eauto.
      * intros (post & H). inversion H. eauto.
Qed.

Lemma prefixb_skipn_occurs (w t : text) (i : nat) :
  w <> [] ->
  prefixb w (skipn i t) = true <-> occurs_at w t i.
Proof.
  intros Hw. rewrite prefixb_true. unfold occurs_at. split.
  - intros (post & H). exists (firstn i t), post. split.
    + rewrite <- H. symmetry. apply firstn_skipn.
    + apply firstn_length_le.
      destruct (Nat.le_gt_cases i (List.length t)) as [Hle|Hgt]; [exact Hle|].
      rewrite skipn_all2 in H by lia. destruct w; [congruence|discriminate].
  - intros (pre & post & -> & <-). exists post.
    rewrite skipn_app, Nat.sub_diag, skipn_all. reflexivity.
Qed.

Lemma occurs_at_bound (w t : text) (i : nat) :
  occurs_at w t i -> i + List.length w <= List.length t.
Proof.
  intros (pre & post & -> & <-). rewrite !length_app. lia.
Qed.

Lemma triggered_Lit (w : string) (t : text) :
  txt w <> [] ->
  triggered t (Lit w) = true <-> substring (txt w) t.
Proof.
  intros Hw. rewrite triggered_iff. unfold substring. split.
  - intros (s & e & _ & He). simpl in He.
    destruct (prefixb (txt w) (skipn s t)) eqn:E; [|contradiction].
    exists s. now apply prefixb_skipn_occurs.
  - intros (i & Hi). exists i, (i + String.length w). split.
    + apply occurs_at_bound in Hi. lia.
    + simpl. apply prefixb_skipn_occurs in Hi; [|exact Hw].
      rewrite Hi. now left.
Qed.

(** ** Counting a two-character sequence *)

Lemma count_occ_sub_none (sub l : text) :
  (forall j, prefixb sub (skipn j l) = false) ->
  forall k, count_occ_sub sub l k = 0.
Proof.
  induction l as [|x l IH]; intros Hno k; simpl; [reflexivity|].
  assert (Hl : forall j, prefixb sub (skipn j l) = false)
    by (intros j; apply (Hno (S j))).
  destruct k as [|k]; [|now apply IH].
  specialize (Hno 0). simpl in Hno. rewrite Hno. now apply IH.
Qed.

Lemma escaped_line_one (t : text) (pos : nat) :
  no_escaped_newline_before t pos -> escaped_line_of t pos = 1.
Proof.
  intros Hno. unfold escaped_line_of, str_count. rewrite slice_0.
  rewrite count_occ_sub_none; [reflexivity|].
  intros j. destruct (prefixb (txt "\n") (skipn j (firstn pos t))) eqn:E;
    [|reflexivity].
  exfalso. apply prefixb_skipn_occurs in E; [|discriminate].
  pose proof (occurs_at_bound _ _ _ E) as Hb.
  rewrite length_firstn in Hb. simpl in Hb.
  apply (Hno j); [lia|].
  destruct E as (pre & post & Hsplit & Hlen).
  exists pre, (post ++ skipn pos t). split; [|exact Hlen].
  rewrite <- (firstn_skipn pos t) at 1. rewrite Hsplit.
  now rewrite <- !app_assoc.
Qed.

(** ** Claims about the file-scope rules *)

(** C6.  The editor-import, empty-catch and async-void findings take their
    line from the count of the two characters backslash and [n] before the
    match: when that pair does not occur before the match, the line
    reported is 1, whatever line the match is on. *)
Theorem escaped_count_reports_line_one (f : string) (t : text) :
  (forall m : Match,
     no_escaped_newline_before t (m_start m) ->
     line (using_finding f t m) = 1 /\
     line (empty_catch_finding f t m) = 1 /\
     line (async_void_finding f t m) = 1) /\
  ((forall i, ~ occurs_at (txt "\n") t i) ->
   Forall (fun x => line x = 1)
     (using_findings f t ++ empty_catch_findings f t
      ++ async_void_findings f t)).
Proof.
  assert (H1 : forall m : Match,
     no_escaped_newline_before t (m_start m) ->
     line (using_finding f t m) = 1 /\
     line (empty_catch_finding f t m) = 1 /\
     line (async_void_finding f t m) = 1).
  { intros m Hno. simpl. now rewrite (escaped_line_one t _ Hno). }
  split; [exact H1|].
  intros Hnone.
  assert (H2 : forall m : Match, no_escaped_newline_before t (m_start m))
    by (intros m i _; apply Hnone).
  rewrite !Forall_app. repeat split.
  - unfold using_findings.
    destruct (re_search (match_at RE_using_unityeditor) t) as [m|];
      repeat constructor. apply (H1 m (H2 m)).
  - unfold empty_catch_findings. apply Forall_forall. intros x Hx.
    apply in_map_iff in Hx. destruct Hx as (m & <- & _). apply (H1 m (H2 m)).
  - unfold async_void_findings. apply Forall_forall. intros x Hx.
    apply in_map_iff in Hx. destruct Hx as (m & <- & _). apply (H1 m (H2 m)).
Qed.

Lemma escaped_count_reports_line_one_witness :
  let t := txt "// one" ++ [LF] ++ txt "// two" ++ [LF]
           ++ txt "async void Foo() { }" in
  let m := mkMatch 14 29 "" in
  In m (finditer (match_at RE_async_void) t) /\
  no_escaped_newline_before t (m_start m) /\
  line_number t (m_start m) = 3 /\
  line (async_void_finding "a.cs" t m) = 1.
Proof.
  intros t m.
  assert (Hno : no_escaped_newline_before t (m_start m)).
  { intros i Hi Hocc. apply prefixb_skipn_occurs in Hocc; [|discriminate].
    simpl in Hi.
    do 13 (destruct i as [|i]; [vm_compute in Hocc; discriminate Hocc|]).
    lia. }
  split; [vm_compute; auto|]. split; [exact Hno|]. split; [reflexivity|].
  exact (proj2 (proj2 (proj1 (escaped_count_reports_line_one "a.cs" t) m Hno))).
Defined.

Lemma with_rule_app (r : string) (a b : list Finding) :
  with_rule r (a ++ b) = with_rule r a ++ with_rule r b.
Proof. apply filter_app. Qed.

Lemma with_rule_other (r r' : string) (fs : list Finding) :
  Forall (fun x => rule x = r') fs -> r' <> r -> with_rule r fs = [].
Proof.
  intros H Hne. unfold with_rule.
  induction H as [|x fs Hx _ IH]; simpl; [reflexivity|].
  rewrite Hx. destruct (String.eqb r' r) eqn:E; [|exact IH].
  apply String.eqb_eq in E. contradiction.
Qed.

Lemma with_rule_same (r : string) (fs : list Finding) :
  Forall (fun x => rule x = r) fs -> with_rule r fs = fs.
Proof.
  intros H. unfold with_rule.
  induction H as [|x fs Hx _ IH]; simpl; [reflexivity|].
  now rewrite Hx, String.eqb_refl, IH.
Qed.

Lemma with_rule_not_in (r : string) (ids : list string) (fs : list Finding) :
  ~ In r ids -> Forall (fun x => In (rule x) ids) fs -> with_rule r fs = [].
Proof.
  intros Hnin H. unfold with_rule.
  induction H as [|x fs Hx _ IH]; simpl; [reflexivity|].
  destruct (String.eqb (rule x) r) eqn:E; [|exact IH].
  apply String.eqb_eq in E. subst r. contradiction.
Qed.

(** The body-scope findings of the three groups carry body-scope rule
    identifiers. *)
Lemma group_findings_rules (f : string) (lines : list text) (rs : Ranges) :
  Forall (fun name => In name METHOD_NAMES) (map fst rs) ->
  Forall (fun x => In (rule x) body_rule_ids)
         (flat_map (group_findings f lines) rs).
Proof.
  intros Hkeys. apply Forall_forall. intros x Hx.
  apply in_flat_map in Hx. destruct Hx as ([name ranges] & Hg & Hx).
  unfold group_findings in Hx. simpl in Hx.
  apply in_flat_map in Hx. destruct Hx as ([s e] & _ & Hx).
  unfold body_findings in Hx. apply in_map_iff in Hx.
  destruct Hx as ([r fd] & <- & Hin). apply filter_In in Hin.
  destruct Hin as [Hin _]. simpl.
  rewrite Forall_forall in Hkeys.
  assert (Hname : In name METHOD_NAMES).
  { apply Hkeys. apply in_map_iff. now exists (name, ranges). }
  simpl in Hname.
  destruct Hname as [<-|[<-|[<-|[]]]]; simpl in Hin;
    repeat (destruct Hin as [Hin|Hin];
            [inversion Hin; subst; simpl; tauto|]);
    contradiction.
Qed.

(** The findings of one file that carry a file-scope rule identifier [r]
    are those of the file-scope rules. *)
Lemma evaluate_with_file_rule (f : string) (t : text) (r : string) :
  ~ In r body_rule_ids ->
  exists fs,
    evaluate f t = Ok fs /\
    with_rule r fs =
      with_rule r (using_findings f t) ++ with_rule r (empty_catch_findings f t)
      ++ with_rule r (async_void_findings f t)
      ++ with_rule r (unsubscribe_findings f t)
      ++ with_rule r (coroutine_findings f t).
Proof.
  intros Hr.
  destruct (scan_file_spec f t []) as (rs & _ & Hkeys & Hscan).
  eexists. split; [exact Hscan|].
  simpl app. rewrite !with_rule_app.
  rewrite (with_rule_not_in r body_rule_ids
             (flat_map (group_findings f (splitlines t)) rs) Hr).
  - now rewrite app_nil_r.
  - apply group_findings_rules. rewrite Hkeys. apply Forall_forall. auto.
Qed.

Lemma using_findings_rule (f : string) (t : text) :
  Forall (fun x => rule x = "using-UnityEditor-in-runtime") (using_findings f t).
Proof.
  unfold using_findings.
  destruct (re_search (match_at RE_using_unityeditor) t); repeat constructor.
Qed.

Lemma empty_catch_findings_rule (f : string) (t : text) :
  Forall (fun x => rule x = "empty-catch-block") (empty_catch_findings f t).
Proof.
  apply Forall_forall. intros x Hx.
  apply in_map_iff in Hx. now destruct Hx as (m & <- & _).
Qed.

Lemma async_void_findings_rule (f : string) (t : text) :
  Forall (fun x => rule x = "async-void") (async_void_findings f t).
Proof.
  apply Forall_forall. intros x Hx.
  apply in_map_iff in Hx. now destruct Hx as (m & <- & _).
Qed.

Lemma unsubscribe_findings_rule (f : string) (t : text) :
  Forall (fun x => rule x = "event-unsubscribe-missing")
         (unsubscribe_findings f t).
Proof.
  unfold unsubscribe_findings.
  destruct (found (re_search (match_at RE_subscribe_event) t)
            && negb (found (re_search (match_at RE_unsubscribe_event) t)));
    repeat constructor.
Qed.

Lemma coroutine_findings_rule (f : string) (t : text) :
  Forall (fun x => rule x = "coroutine-stop-missing") (coroutine_findings f t).
Proof.
  unfold coroutine_findings.
  destruct (found (re_search (match_at RE_start_coroutine) t)
            && (negb (str_contains (txt "OnDisable") t)
                && negb (str_contains (txt "OnDestroy") t)
                && negb (str_contains (txt "StopCoroutine") t)));
    repeat constructor.
Qed.

(** The findings of one file with the rule [event-unsubscribe-missing]. *)
Lemma evaluate_unsubscribe (f : string) (t : text) :
  exists fs,
    evaluate f t = Ok fs /\
    with_rule "event-unsubscribe-missing" fs = unsubscribe_findings f t.
Proof.
  destruct (evaluate_with_file_rule f t "event-unsubscribe-missing")
    as (fs & Hfs & Hr).
  { simpl. intuition discriminate. }
  exists fs. split; [exact Hfs|]. rewrite Hr.
  rewrite (with_rule_other "event-unsubscribe-missing" _ _ (using_findings_rule f t))
    by discriminate.
  rewrite (with_rule_other "event-unsubscribe-missing" _ _ (empty_catch_findings_rule f t))
    by discriminate.
  rewrite (with_rule_other "event-unsubscribe-missing" _ _ (async_void_findings_rule f t))
    by discriminate.
  rewrite (with_rule_other "event-unsubscribe-missing" _ _ (coroutine_findings_rule f t))
    by discriminate.
  rewrite (with_rule_same _ _ (unsubscribe_findings_rule f t)).
  simpl. now rewrite app_nil_r.
Qed.

(** C7.  A file whose text contains [+=] and nowhere [-=] gets exactly one
    finding with the rule [event-unsubscribe-missing], of severity [info]
    and at line 1; a file that contains [-=], or that does not contain
    [+=], gets none. *)
Theorem unsubscribe_rule_correct (f : string) (t : text) :
  exists fs,
    evaluate f t = Ok fs /\
    (substring (txt "+=") t -> ~ substring (txt "-=") t ->
     with_rule "event-unsubscribe-missing" fs =
       [mkFinding f 1 "info" "event-unsubscribe-missing"
          "Subscriptions detected but no obvious unsubscription; ensure to unsubscribe in OnDisable/OnDestroy."]) /\
    (substring (txt "-=") t \/ ~ substring (txt "+=") t ->
     with_rule "event-unsubscribe-missing" fs = []).
Proof.
  destruct (evaluate_unsubscribe f t) as (fs & Hfs & Hr).
  exists fs. split; [exact Hfs|]. rewrite Hr.
  unfold unsubscribe_findings.
  change (found (re_search (match_at RE_subscribe_event) t))
    with (triggered t (Lit "+=")).
  change (found (re_search (match_at RE_unsubscribe_event) t))
    with (triggered t (Lit "-=")).
  pose proof (triggered_Lit "+=" t ltac:(discriminate)) as Hp.
  pose proof (triggered_Lit "-=" t ltac:(discriminate)) as Hm.
  split.
  - intros Hplus Hminus. apply Hp in Hplus. rewrite Hplus.
    destruct (triggered t (Lit "-=")) eqn:E; [|reflexivity].
    exfalso. apply Hminus. now apply Hm.
  - intros [Hminus|Hplus].
    + apply Hm in Hminus. rewrite Hminus.
      now destruct (triggered t (Lit "+=")).
    + destruct (triggered t (Lit "+=")) eqn:E; [|reflexivity].
      exfalso. apply Hplus. now apply Hp.
Qed.

Lemma unsubscribe_rule_correct_witness :
  let t := txt "void OnEnable() { button.clicked += OnClick; }" in
  substring (txt "+=") t /\ ~ substring (txt "-=") t /\
  exists fs,
    evaluate "a.cs" t = Ok fs /\
    with_rule "event-unsubscribe-missing" fs =
      [mkFinding "a.cs" 1 "info" "event-unsubscribe-missing"
         "Subscriptions detected but no obvious unsubscription; ensure to unsubscribe in OnDisable/OnDestroy."].
Proof.
  intros t.
  assert (Hp : substring (txt "+=") t).
  { apply (triggered_Lit "+=" t); [discriminate | vm_compute; reflexivity]. }
  assert (Hm : ~ substring (txt "-=") t).
  { intros H. apply (triggered_Lit "-=" t) in H; [|discriminate].
    vm_compute in H. discriminate H. }
  split; [exact Hp|]. split; [exact Hm|].
  destruct (unsubscribe_rule_correct "a.cs" t) as (fs & Hfs & Hone & _).
  exists fs. split; [exact Hfs | exact (Hone Hp Hm)].
Defined.

(** C5 at a failing input.  In this one-line file the two characters
    backslash and [n] stand before the [async void] declaration, and the
    finding for the declaration is reported at line 2. *)
Theorem file_scope_line_beyond_file :
  let t := txt "char c = '\n'; async void Foo() { }" in
  List.length (splitlines t) = 1 /\
  line_number t 15 = 1 /\
  evaluate "a.cs" t =
    Ok [mkFinding "a.cs" 2 "warn" "async-void"
          "Avoid async void (except event handlers); prefer async Task."].
Proof. vm_compute. repeat split. Qed.

(** ** Matches and their context *)

Lemma in_ends_star (p : ascii -> bool) (t : text) (i e : nat) :
  In e (ends (StarCls p) t i) <->
  exists k, k <= span p (skipn i t) /\ e = i + k.
Proof.
  cbn [ends]. rewrite in_map_iff. split.
  - intros (k & <- & Hk). rewrite <- in_rev in Hk. apply in_seq in Hk.
    exists k. split; lia.
  - intros (k & Hk & ->). exists k. split; [reflexivity|].
    rewrite <- in_rev. apply in_seq. lia.
Qed.

Lemma span_le_length (p : ascii -> bool) (l : text) :
  span p l <= List.length l.
Proof.
  induction l as [|c l IH]; simpl; [lia|]. destruct (p c); simpl; lia.
Qed.

Lemma span_app_le (p : ascii -> bool) (a b : text) :
  span p a <= span p (a ++ b).
Proof.
  induction a as [|c a IH]; simpl; [lia|]. destruct (p c); lia.
Qed.

Lemma prefixb_length (w l : text) :
  prefixb w l = true -> List.length w <= List.length l.
Proof.
  intros H. apply prefixb_true in H. destruct H as (post & ->).
  rewrite length_app. lia.
Qed.

Lemma prefixb_app (w a b : text) :
  prefixb w a = true -> prefixb w (a ++ b) = true.
Proof.
  intros H. apply prefixb_true in H. destruct H as (post & ->).
  apply prefixb_true. exists (post ++ b). now rewrite app_assoc.
Qed.

Lemma length_txt (w : string) : List.length (txt w) = String.length w.
Proof.
  unfold txt. induction w as [|c w IH]; simpl; [reflexivity|]. now rewrite IH.
Qed.

(** A match does not end before its start. *)
Lemma ends_ge (r : regex) (t : text) :
  forall i e, In e (ends r t i) -> i <= e.
Proof.
  induction r as [|w|p|p|r1 IH1 r2 IH2|r1 IH1 r2 IH2| |]; intros i e He.
  - simpl in He. destruct He as [<-|[]]. lia.
  - simpl in He. destruct (prefixb (txt w) (skipn i t)); [|contradiction].
    destruct He as [<-|[]]. lia.
  - simpl in He. destruct (nth_error t i) as [c|]; [|contradiction].
    destruct (p c); [|contradiction]. destruct He as [<-|[]]. lia.
  - apply in_ends_star in He. destruct He as (k & _ & ->). lia.
  - simpl in He. apply in_flat_map in He. destruct He as (m & Hm & He).
    pose proof (IH1 _ _ Hm). pose proof (IH2 _ _ He). lia.
  - simpl in He. apply in_app_or in He. destruct He as [He|He]; eauto.
  - simpl in He. destruct (xorb (word_before t i) (word_at t i)); [|contradiction].
    destruct He as [<-|[]]. lia.
  - simpl in He. destruct (line_start t i); [|contradiction].
    destruct He as [<-|[]]. lia.
Qed.

(** A match starting inside the text ends inside it. *)
Lemma ends_bound (r : regex) (t : text) :
  forall i e, In e (ends r t i) -> i <= List.length t ->
              i <= e /\ e <= List.length t.
Proof.
  induction r as [|w|p|p|r1 IH1 r2 IH2|r1 IH1 r2 IH2| |]; intros i e He Hi.
  - simpl in He. destruct He as [<-|[]]. lia.
  - simpl in He. destruct (prefixb (txt w) (skipn i t)) eqn:E; [|contradiction].
    destruct He as [<-|[]]. apply prefixb_length in E.
    rewrite length_skipn, length_txt in E. lia.
  - simpl in He. destruct (nth_error t i) as [c|] eqn:E; [|contradiction].
    destruct (p c); [|contradiction]. destruct He as [<-|[]].
    assert (i < List.length t) by (apply nth_error_Some; congruence). lia.
  - apply in_ends_star in He. destruct He as (k & Hk & ->).
    pose proof (span_le_length p (skipn i t)) as Hs.
    rewrite length_skipn in Hs. lia.
  - simpl in He. apply in_flat_map in He. destruct He as (m & Hm & He).
    destruct (IH1 _ _ Hm Hi) as [H1 H2].
    destruct (IH2 _ _ He H2). lia.
  - simpl in He. apply in_app_or in He. destruct He as [He|He]; eauto.
  - simpl in He. destruct (xorb (word_before t i) (word_at t i)); [|contradiction].
    destruct He as [<-|[]]. lia.
  - simpl in He. destruct (line_start t i); [|contradiction].
    destruct He as [<-|[]]. lia.
Qed.

Lemma nth_error_app_left {A} (l post : list A) (i : nat) :
  i < List.length l -> nth_error (l ++ post) i = nth_error l i.
Proof. intros H. now apply nth_error_app1. Qed.

Lemma word_before_app (l post : text) (i : nat) :
  i <= List.length l -> word_before (l ++ post) i = word_before l i.
Proof.
  destruct i as [|j]; [reflexivity|]. intros H. unfold word_before, word_at.
  now rewrite nth_error_app_left by lia.
Qed.

Lemma line_start_app (l post : text) (i : nat) :
  i <= List.length l -> line_start (l ++ post) i = line_start l i.
Proof.
  destruct i as [|j]; [reflexivity|]. intros H. unfold line_start.
  now rewrite nth_error_app_left by lia.
Qed.

Lemma word_at_app (l post : text) (i : nat) :
  i <= List.length l -> word_at post 0 = false ->
  word_at (l ++ post) i = word_at l i.
Proof.
  intros Hi Hpost. unfold word_at in *.
  destruct (Nat.eq_dec i (List.length l)) as [->|Hne].
  - rewrite nth_error_app2 by lia. rewrite Nat.sub_diag.
    destruct (nth_error l (List.length l)) eqn:E.
    + assert (List.length l < List.length l) by (apply nth_error_Some; congruence).
      lia.
    + exact Hpost.
  - now rewrite nth_error_app_left by lia.
Qed.

(** Text added after a line, not starting with a word character, keeps
    the matches of the line. *)
Lemma ends_app_right (r : regex) (l post : text) :
  word_at post 0 = false ->
  forall i e, i <= List.length l -> In e (ends r l i) ->
              In e (ends r (l ++ post) i).
Proof.
  intros Hpost.
  induction r as [|w|p|p|r1 IH1 r2 IH2|r1 IH1 r2 IH2| |]; intros i e Hi He.
  - exact He.
  - simpl in *. rewrite skipn_app.
    destruct (prefixb (txt w) (skipn i l)) eqn:E; [|contradiction].
    now rewrite (prefixb_app _ _ _ E).
  - simpl in *. destruct (nth_error l i) as [c|] eqn:E; [|contradiction].
    rewrite nth_error_app_left, E; [exact He|].
    apply nth_error_Some. congruence.
  - apply in_ends_star in He. destruct He as (k & Hk & ->).
    apply in_ends_star. exists k. split; [|reflexivity].
    rewrite skipn_app. pose proof (span_app_le p (skipn i l) (skipn (i - List.length l) post)).
    lia.
  - simpl in *. apply in_flat_map in He. destruct He as (m & Hm & He).
    apply in_flat_map. exists m. split; [now apply IH1|].
    apply IH2; [|exact He]. now apply (ends_bound r1 l i m).
  - simpl in *. apply in_or_app. apply in_app_or in He.
    destruct He as [He|He]; [left; now apply IH1 | right; now apply IH2].
  - simpl in *. now rewrite word_before_app, word_at_app.
  - simpl in *. now rewrite line_start_app.
Qed.

Lemma skipn_app_shift {A} (pre l : list A) (i : nat) :
  skipn (List.length pre + i) (pre ++ l) = skipn i l.
Proof.
  rewrite skipn_app. rewrite skipn_all2 by lia.
  now replace (List.length pre + i - List.length pre) with i by lia.
Qed.

Lemma nth_error_app_shift {A} (pre l : list A) (i : nat) :
  nth_error (pre ++ l) (List.length pre + i) = nth_error l i.
Proof.
  rewrite nth_error_app2 by lia.
  now replace (List.length pre + i - List.length pre) with i by lia.
Qed.

Lemma flat_map_map_shift (g h : nat -> list nat) (d : nat) (l : list nat) :
  (forall m, In m l -> g (d + m) = map (Nat.add d) (h m)) ->
  flat_map g (map (Nat.add d) l) = map (Nat.add d) (flat_map h l).
Proof.
  induction l as [|m l IH]; intros H; simpl; [reflexivity|].
  rewrite map_app, H by now left. f_equal. apply IH.
  intros m' Hm'. apply H. now right.
Qed.

(** Text added before a line shifts the matches of the line that do not
    start at its first column, and adds none. *)
Lemma ends_shift (r : regex) (pre l : text) :
  forall i, 1 <= i ->
  ends r (pre ++ l) (List.length pre + i) =
  map (Nat.add (List.length pre)) (ends r l i).
Proof.
  induction r as [|w|p|p|r1 IH1 r2 IH2|r1 IH1 r2 IH2| |]; intros i Hi.
  - reflexivity.
  - cbn [ends]. rewrite skipn_app_shift.
    destruct (prefixb (txt w) (skipn i l)); [|reflexivity].
    cbn [map]. f_equal. lia.
  - cbn [ends]. rewrite nth_error_app_shift.
    destruct (nth_error l i) as [c|]; [|reflexivity].
    destruct (p c); [|reflexivity]. cbn [map]. f_equal. lia.
  - cbn [ends]. rewrite skipn_app_shift, map_map.
    apply map_ext. intros k. lia.
  - cbn [ends]. rewrite IH1 by exact Hi.
    apply flat_map_map_shift. intros m Hm. apply IH2.
    pose proof (ends_ge r1 l i m Hm). lia.
  - cbn [ends]. rewrite IH1, IH2 by exact Hi. now rewrite map_app.
  - cbn [ends]. destruct i as [|j]; [lia|].
    replace (List.length pre + S j) with (S (List.length pre + j)) by lia.
    unfold word_before, word_at. rewrite nth_error_app_shift.
    replace (S (List.length pre + j)) with (List.length pre + S j) by lia.
    rewrite nth_error_app_shift.
    destruct (xorb match nth_error l j with Some c => is_word c | None => false end
                   match nth_error l (S j) with Some c => is_word c | None => false end);
      reflexivity.
  - cbn [ends]. destruct i as [|j]; [lia|].
    replace (List.length pre + S j) with (S (List.length pre + j)) by lia.
    unfold line_start. rewrite nth_error_app_shift.
    replace (S (List.length pre + j)) with (List.length pre + S j) by lia.
    destruct (nth_error l j) as [c|]; [|reflexivity].
    destruct (Ascii.eqb c LF); reflexivity.
Qed.

Lemma ends_app_left (r : regex) (pre l : text) :
  forall i e, 1 <= i -> In e (ends r l i) ->
              In (List.length pre + e) (ends r (pre ++ l) (List.length pre + i)).
Proof.
  intros i e Hi He. rewrite ends_shift by exact Hi. now apply in_map.
Qed.

(** ** The body text of a range *)

Lemma slice_first {A} (l : list A) (i k : nat) (c : A) :
  nth_error l i = Some c -> i <= k ->
  exists rest, slice l i (S k) = c :: rest.
Proof.
  intros H Hle. rewrite (slice_cons l i k c H Hle). eauto.
Qed.

Lemma join_cons_split (sep l : text) (rest : list text) :
  exists post, join sep (l :: rest) = l ++ post /\
               (post = [] \/ exists post', post = sep ++ post').
Proof.
  destruct rest as [|l' rest]; simpl.
  - exists []. split; [now rewrite app_nil_r | now left].
  - eexists. split; [reflexivity|]. right. eauto.
Qed.

Lemma join_snoc_split (sep l : text) (mid : list text) :
  exists pre, join sep (mid ++ [l]) = pre ++ l.
Proof.
  induction mid as [|x mid IH]; simpl.
  - now exists [].
  - destruct IH as (pre & Hpre).
    destruct (mid ++ [l]) as [|y ys] eqn:E.
    + destruct mid; discriminate.
    + exists (x ++ sep ++ pre). rewrite Hpre. now rewrite <- !app_assoc.
Qed.

(** The body text of a range begins with the whole start line. *)
Lemma body_text_start_line (lines : list text) (s e : nat) (l : text) :
  1 <= s -> s <= e -> nth_error lines (s - 1) = Some l ->
  exists post, body_text lines s e = l ++ post /\ word_at post 0 = false.
Proof.
  intros Hs Hse Hl. unfold body_text.
  destruct (slice_first lines (s - 1) (e - 1) l Hl ltac:(lia)) as (rest & Hr).
  replace (S (e - 1)) with e in Hr by lia. rewrite Hr.
  destruct (join_cons_split (txt "\n") l rest) as (post & Hj & Hcase).
  rewrite Hj. exists post. split; [reflexivity|].
  destruct Hcase as [->|(post' & ->)]; reflexivity.
Qed.

(** The body text of a range ends with the whole end line. *)
Lemma body_text_end_line (lines : list text) (s e : nat) (l : text) :
  1 <= s -> s <= e -> nth_error lines (e - 1) = Some l ->
  exists pre, body_text lines s e = pre ++ l.
Proof.
  intros Hs Hse Hl. unfold body_text.
  pose proof (slice_last lines (s - 1) (e - 1) l Hl ltac:(lia)) as Hr.
  replace (S (e - 1)) with e in Hr by lia. rewrite Hr.
  apply join_snoc_split.
Qed.

Lemma triggered_start_line (r : regex) (lines : list text) (s e : nat)
    (l : text) (i j : nat) :
  1 <= s -> s <= e -> nth_error lines (s - 1) = Some l ->
  i <= List.length l -> In j (ends r l i) ->
  triggered (body_text lines s e) r = true.
Proof.
  intros Hs Hse Hl Hi Hj.
  destruct (body_text_start_line lines s e l Hs Hse Hl) as (post & -> & Hpost).
  apply triggered_iff. exists i, j. split.
  - rewrite length_app. lia.
  - now apply ends_app_right.
Qed.

Lemma triggered_end_line (r : regex) (lines : list text) (s e : nat)
    (l : text) (i j : nat) :
  1 <= s -> s <= e -> nth_error lines (e - 1) = Some l ->
  1 <= i <= List.length l -> In j (ends r l i) ->
  triggered (body_text lines s e) r = true.
Proof.
  intros Hs Hse Hl Hi Hj.
  destruct (body_text_end_line lines s e l Hs Hse Hl) as (pre & ->).
  apply triggered_iff. exists (List.length pre + i), (List.length pre + j). split.
  - rewrite length_app. lia.
  - apply ends_app_left; [lia | exact Hj].
Qed.

Lemma slice_nth_error {A} (l : list A) (a b k : nat) :
  k < b - a -> nth_error (slice l a b) k = nth_error l (a + k).
Proof.
  intros Hk. unfold slice.
  rewrite nth_error_firstn.
  destruct (k <? b - a) eqn:E.
  - apply nth_error_skipn.
  - apply Nat.ltb_ge in E. lia.
Qed.

Lemma slice_length {A} (l : list A) (a b : nat) :
  b <= List.length l -> List.length (slice l a b) = b - a.
Proof.
  intros Hb. unfold slice. rewrite length_firstn, length_skipn. lia.
Qed.

(** ** Line numbers and [splitlines] *)

Lemma splitlines_aux_nonempty (t cur : text) :
  t <> [] -> 1 <= List.length (splitlines_aux t cur).
Proof.
  revert cur; induction t as [|c t IH]; intros cur Hne; [congruence|].
  simpl. destruct (Ascii.eqb c CR).
  - destruct t as [|d t'']; simpl; [lia|]. destruct (Ascii.eqb d LF); simpl; lia.
  - destruct (is_linebreak c); simpl; [lia|].
    destruct t as [|d t'']; [simpl; lia|]. apply IH. discriminate.
Qed.

Lemma LF_is_linebreak (c : ascii) : Ascii.eqb LF c = true -> is_linebreak c = true.
Proof. intros H. apply Ascii.eqb_eq in H. now subst c. Qed.

Lemma splitlines_aux_CRLF (t cur : text) :
  splitlines_aux (CR :: LF :: t) cur = rev cur :: splitlines_aux t [].
Proof. reflexivity. Qed.

Lemma splitlines_aux_CR (d : ascii) (t cur : text) :
  Ascii.eqb d LF = false ->
  splitlines_aux (CR :: d :: t) cur = rev cur :: splitlines_aux (d :: t) [].
Proof.
  intros H. change (splitlines_aux (CR :: d :: t) cur)
    with (if Ascii.eqb d LF then rev cur :: splitlines_aux t []
          else rev cur :: splitlines_aux (d :: t) []).
  now rewrite H.
Qed.

Lemma splitlines_aux_break (c : ascii) (t cur : text) :
  Ascii.eqb c CR = false -> is_linebreak c = true ->
  splitlines_aux (c :: t) cur = rev cur :: splitlines_aux t [].
Proof.
  intros H1 H2.
  change (splitlines_aux (c :: t) cur)
    with (if Ascii.eqb c CR then
            match t with
            | d :: t'' =>
                if Ascii.eqb d LF then rev cur :: splitlines_aux t'' []
                else rev cur :: splitlines_aux t []
            | [] => rev cur :: splitlines_aux t []
            end
          else if is_linebreak c then rev cur :: splitlines_aux t []
          else splitlines_aux t (c :: cur)).
  now rewrite H1, H2.
Qed.

Lemma splitlines_aux_char (c : ascii) (t cur : text) :
  Ascii.eqb c CR = false -> is_linebreak c = false ->
  splitlines_aux (c :: t) cur = splitlines_aux t (c :: cur).
Proof.
  intros H1 H2.
  change (splitlines_aux (c :: t) cur)
    with (if Ascii.eqb c CR then
            match t with
            | d :: t'' =>
                if Ascii.eqb d LF then rev cur :: splitlines_aux t'' []
                else rev cur :: splitlines_aux t []
            | [] => rev cur :: splitlines_aux t []
            end
          else if is_linebreak c then rev cur :: splitlines_aux t []
          else splitlines_aux t (c :: cur)).
  now rewrite H1, H2.
Qed.

Lemma newlines_cons (c : ascii) (l : text) (p : nat) :
  List.length (filter (Ascii.eqb LF) (firstn (S p) (c :: l))) =
  (if Ascii.eqb LF c then 1 else 0)
  + List.length (filter (Ascii.eqb LF) (firstn p l)).
Proof.
  cbn [firstn filter]. destruct (Ascii.eqb LF c); reflexivity.
Qed.

(** A line number counted with newlines never exceeds the number of lines
    [splitlines] returns. *)
Lemma line_number_le_splitlines_aux (n : nat) :
  forall (t cur : text) (pos : nat),
  List.length t <= n -> pos < List.length t ->
  line_number t pos <= List.length (splitlines_aux t cur).
Proof.
  unfold line_number.
  induction n as [|n IH]; intros t cur pos Hn Hpos; [lia|].
  destruct t as [|c t]; [simpl in Hpos; lia|].
  destruct pos as [|p].
  { cbn [firstn filter List.length].
    apply splitlines_aux_nonempty. discriminate. }
  cbn [List.length] in Hn, Hpos.
  rewrite newlines_cons.
  assert (IHt : forall cur', S (List.length (filter (Ascii.eqb LF) (firstn p t)))
                       <= List.length (splitlines_aux t cur'))
    by (intros; apply IH; lia).
  destruct (Ascii.eqb c CR) eqn:Ecr.
  - apply Ascii.eqb_eq in Ecr. subst c.
    change (Ascii.eqb LF CR) with false. cbv iota.
    destruct t as [|d t'']; [cbn [List.length] in Hpos; lia|].
    destruct (Ascii.eqb d LF) eqn:Elf.
    + apply Ascii.eqb_eq in Elf. subst d. rewrite splitlines_aux_CRLF.
      cbn [List.length] in *.
      destruct p as [|q]; [cbn [firstn filter List.length]; lia|].
      rewrite newlines_cons. change (Ascii.eqb LF LF) with true. cbv iota.
      specialize (IH t'' [] q ltac:(lia) ltac:(lia)). lia.
    + rewrite (splitlines_aux_CR d t'' cur Elf). specialize (IHt []).
      cbn [List.length] in *. lia.
  - destruct (is_linebreak c) eqn:Elb.
    + rewrite (splitlines_aux_break c t cur Ecr Elb). specialize (IHt []).
      cbn [List.length]. destruct (Ascii.eqb LF c); lia.
    + rewrite (splitlines_aux_char c t cur Ecr Elb).
      destruct (Ascii.eqb LF c) eqn:Elf.
      * apply LF_is_linebreak in Elf. congruence.
      * apply IHt.
Qed.

Lemma line_number_le_splitlines (t : text) (pos : nat) :
  pos < List.length t -> line_number t pos <= List.length (splitlines t).
Proof.
  intros H. apply (line_number_le_splitlines_aux (List.length t)); [lia | exact H].
Qed.

Lemma range_of_match_in_file (t : text) (m : Match) (s e : nat) :
  range_of_match t m = Ok (Some (s, e)) ->
  1 <= s /\ s <= e /\ e <= List.length (splitlines t).
Proof.
  unfold range_of_match.
  destruct (str_find "{" t (m_end m)) as [bp|] eqn:Eb; [|discriminate].
  apply str_find_some in Eb. apply first_brace_in_text in Eb.
  pose proof (brace_walk_spec t (List.length t - bp) bp 0 ltac:(lia)) as H.
  destruct (brace_walk t (List.length t - bp) bp 0) as [[ep|]|x]; simpl;
    [|discriminate|contradiction].
  destruct H as (Hle & Hc & _). intros E. inversion E. subst s e.
  rewrite !line_of_line_number.
  assert (ep < List.length t) by (apply nth_error_Some; congruence).
  split; [unfold line_number; lia|]. split.
  - now apply line_number_mono.
  - now apply line_number_le_splitlines.
Qed.

Lemma lookup_in (rs : Ranges) (name : string) (ranges : list Range) :
  NoDup (map fst rs) -> In (name, ranges) rs -> lookup rs name = Some ranges.
Proof.
  induction rs as [|[k v] rs IH]; intros Hnd Hin; [contradiction|].
  simpl in *. inversion Hnd as [|? ? Hnin Hnd']; subst.
  destruct Hin as [E|Hin].
  - inversion E; subst. now rewrite String.eqb_refl.
  - destruct (String.eqb k name) eqn:E.
    + apply String.eqb_eq in E. subst k. exfalso. apply Hnin.
      apply in_map_iff. now exists (name, ranges).
    + now apply IH.
Qed.

(** Every range [find_method_ranges] returns lies within the file, and
    its group is one of the three method names. *)
Lemma extracted_range_in_file (t : text) (rs : Ranges) (name : string)
    (ranges : list Range) (s e : nat) :
  find_method_ranges t = Ok rs ->
  In (name, ranges) rs -> In (s, e) ranges ->
  In name METHOD_NAMES /\
  1 <= s /\ s <= e /\ e <= List.length (splitlines t).
Proof.
  intros Hrs Hg Hse.
  destruct (find_method_ranges_spec t) as (rs' & Hrs' & Hkeys & Hlook).
  rewrite Hrs in Hrs'. inversion Hrs'. subst rs'. clear Hrs'.
  assert (Hname : In name METHOD_NAMES).
  { rewrite <- Hkeys. apply in_map_iff. now exists (name, ranges). }
  split; [exact Hname|].
  assert (Hnd : NoDup (map fst rs)).
  { rewrite Hkeys. repeat constructor; simpl; intuition discriminate. }
  pose proof (lookup_in rs name ranges Hnd Hg) as Hl.
  rewrite (Hlook name Hname) in Hl. inversion Hl. subst ranges.
  unfold ranges_named in Hse. apply in_flat_map in Hse.
  destruct Hse as (m & _ & Hm). unfold contribution in Hm.
  destruct (range_of_match t m) as [[r|]|x] eqn:Er; try contradiction.
  destruct Hm as [->|[]]. now apply (range_of_match_in_file t m).
Qed.

(** ** The claim about the body text *)

(** What does hold of the body text.  For a returned range, a match of
    the pattern of an applicable rule that lies on element [s-1] of
    [text.splitlines()] and ends at or before an opening brace of it, or
    that lies on element [e-1] and starts after a closing brace of it, is
    also a match in the body text, so the rule adds its finding. *)
Lemma edge_line_match_triggers (f : string) (t : text) (rs : Ranges)
    (name : string) (ranges : list Range) (s e : nat) :
  find_method_ranges t = Ok rs ->
  In (name, ranges) rs -> In (s, e) ranges ->
  forall (r : regex) (fd : Finding) (l : text) (fs : list Finding),
    In (r, fd) (body_rule_table f name s) ->
    (nth_error (splitlines t) (s - 1) = Some l /\
     match_before_open_brace r l) \/
    (nth_error (splitlines t) (e - 1) = Some l /\
     match_after_close_brace r l) ->
    In fd (body_rules f (splitlines t) name (s, e) fs).
Proof.
  intros Hrs Hg Hse.
  destruct (extracted_range_in_file t rs name ranges s e Hrs Hg Hse)
    as (_ & Hs & Hle & Hlen).
  intros r fd l fs Hin Hocc.
  rewrite body_rules_spec. apply in_or_app. right.
  unfold body_findings. apply in_map_iff. exists (r, fd).
  split; [reflexivity|]. apply filter_In. split; [exact Hin|].
  cbn [fst snd].
  destruct Hocc as [[Hl (a & b & i & j & Hsplit & Hj & Hja)]
                   |[Hl (a & b & i & j & Hsplit & Hi & Hj)]].
  - apply (triggered_start_line r (splitlines t) s e l i j Hs Hle Hl);
      [|exact Hj].
    pose proof (ends_ge r l i j Hj). rewrite Hsplit, length_app. lia.
  - apply (triggered_end_line r (splitlines t) s e l i j Hs Hle Hl);
      [lia|exact Hj].
Qed.

(** C10 at two failing inputs.

    First input, four lines: the range of [Update] is (2, 4), and the
    text of lines 2 to 4 holds a [Debug.Log(] call.  The body text is not
    that text: the three lines are joined by the two characters backslash
    and [n], the letter [n] then stands right before [Debug], the pattern
    is not found and the file gets no finding.

    Second input, one line by the count of newlines, with a form feed in
    it: a [Destroy] call stands on the start line before the opening
    brace, but [splitlines] also breaks at the form feed, element 0 of its
    result is the text before the form feed, and the file gets no
    finding. *)
Theorem body_text_not_text_of_lines :
  let t := txt "void Update()" ++ [LF] ++ txt "{" ++ [LF]
           ++ txt "Debug.Log(1);" ++ [LF] ++ txt "}" in
  let text_of_lines_2_to_4 :=
    txt "{" ++ [LF] ++ txt "Debug.Log(1);" ++ [LF] ++ txt "}" in
  let t' := txt "int x;" ++ ["012"%char]
            ++ txt " Destroy(y); void Update() { }" in
  (find_method_ranges t =
     Ok [("Update", [(2, 4)]); ("FixedUpdate", []); ("LateUpdate", [])] /\
   slice (splitlines t) (2 - 1) 4 = [txt "{"; txt "Debug.Log(1);"; txt "}"] /\
   slice t 14 (List.length t) = text_of_lines_2_to_4 /\
   triggered text_of_lines_2_to_4 RE_debug_in_update = true /\
   body_text (splitlines t) 2 4 = txt "{\nDebug.Log(1);\n}" /\
   body_text (splitlines t) 2 4 <> text_of_lines_2_to_4 /\
   triggered (body_text (splitlines t) 2 4) RE_debug_in_update = false /\
   evaluate "a.cs" t = Ok []) /\
  (find_method_ranges t' =
     Ok [("Update", [(1, 1)]); ("FixedUpdate", []); ("LateUpdate", [])] /\
   str_find "{" t' 32 = Some 34 /\
   line_number t' 34 = 1 /\ line_number t' 8 = 1 /\
   ends RE_expensive_call_in_update t' 8 = [15] /\
   body_text (splitlines t') 1 1 = txt "int x;" /\
   evaluate "a.cs" t' = Ok []).
Proof.
  intros t text_of_lines_2_to_4 t'. split.
  - split; [vm_compute; reflexivity|]. split; [vm_compute; reflexivity|].
    split; [vm_compute; reflexivity|]. split; [vm_compute; reflexivity|].
    split; [vm_compute; reflexivity|]. split.
    + intros H. vm_compute in H. discriminate H.
    + split; vm_compute; reflexivity.
  - repeat split; vm_compute; reflexivity.
Qed.

(** ** The shape of a match *)

Lemma ends_app_right_inside (r : regex) (l post : text) :
  forall i e, In e (ends r l i) -> e < List.length l ->
              In e (ends r (l ++ post) i).
Proof.
  induction r as [|w|p|p|r1 IH1 r2 IH2|r1 IH1 r2 IH2| |]; intros i e He Hlt;
    pose proof (ends_ge _ l i e He) as Hge.
  - exact He.
  - cbn [ends] in *. rewrite skipn_app.
    destruct (prefixb (txt w) (skipn i l)) eqn:E; [|contradiction].
    now rewrite (prefixb_app _ _ _ E).
  - cbn [ends] in *. destruct (nth_error l i) as [c|] eqn:E; [|contradiction].
    rewrite nth_error_app_left, E; [exact He | lia].
  - apply in_ends_star in He. destruct He as (k & Hk & ->).
    apply in_ends_star. exists k. split; [|reflexivity].
    rewrite skipn_app.
    pose proof (span_app_le p (skipn i l) (skipn (i - List.length l) post)). lia.
  - cbn [ends] in *. apply in_flat_map in He. destruct He as (m & Hm & He).
    pose proof (ends_ge r2 l m e He).
    apply in_flat_map. exists m. split; [apply IH1; [exact Hm | lia]|].
    now apply IH2.
  - cbn [ends] in *. apply in_or_app. apply in_app_or in He.
    destruct He as [He|He]; [left; now apply IH1 | right; now apply IH2].
  - cbn [ends] in *.
    rewrite word_before_app by lia. unfold word_at.
    rewrite nth_error_app_left by (destruct (xorb _ _); [destruct He as [<-|[]]; lia | contradiction]).
    exact He.
  - cbn [ends] in *. now rewrite line_start_app by lia.
Qed.

Lemma span_run (p : ascii -> bool) (l : text) :
  forall k j, k <= span p l -> j < k ->
  exists c, nth_error l j = Some c /\ p c = true.
Proof.
  induction l as [|x l IH]; intros k j Hk Hj; simpl in Hk; [lia|].
  destruct (p x) eqn:E; [|lia].
  destruct j as [|j]; [exists x; auto|].
  simpl. apply (IH (k - 1) j); lia.
Qed.

Lemma in_ends_star_run (p : ascii -> bool) (t : text) (i e : nat) :
  In e (ends (StarCls p) t i) -> i <= e /\ run p t i e.
Proof.
  intros He. apply in_ends_star in He. destruct He as (k & Hk & ->).
  split; [lia|]. intros j Hj.
  destruct (span_run p (skipn i t) k (j - i) Hk ltac:(lia)) as (c & Hc & Hp).
  rewrite nth_error_skipn in Hc. replace (i + (j - i)) with j in Hc by lia.
  eauto.
Qed.

Lemma run_app (p : ascii -> bool) (t : text) (a b c : nat) :
  run p t a b -> run p t b c -> run p t a c.
Proof.
  intros H1 H2 k Hk. destruct (Nat.lt_ge_cases k b); [apply H1 | apply H2]; lia.
Qed.

Lemma run_weaken (p q : ascii -> bool) (t : text) (a b : nat) :
  (forall c, p c = true -> q c = true) -> run p t a b -> run q t a b.
Proof.
  intros Hpq H k Hk. destruct (H k Hk) as (c & Hc & Hp). eauto.
Qed.

(** An offset holding a character outside the class lies outside the run. *)
Lemma run_excl (p : ascii -> bool) (t : text) (a b k : nat) (c : ascii) :
  run p t a b -> nth_error t k = Some c -> p c = false -> k < a \/ b <= k.
Proof.
  intros H Hc Hp.
  destruct (Nat.lt_ge_cases k a); [now left|].
  destruct (Nat.lt_ge_cases k b); [|now right].
  destruct (H k ltac:(lia)) as (c' & Hc' & Hp'). congruence.
Qed.

Lemma in_ends_plus_run (p : ascii -> bool) (t : text) (i e : nat) :
  In e (ends (PlusCls p) t i) -> i < e /\ run p t i e.
Proof.
  unfold PlusCls. cbn [ends]. intros He.
  apply in_flat_map in He. destruct He as (m & Hm & He).
  destruct (nth_error t i) as [c|] eqn:Ec; [|contradiction].
  destruct (p c) eqn:Ep; [|contradiction]. destruct Hm as [<-|[]].
  apply in_ends_star_run in He. destruct He as [Hle Hrun].
  split; [lia|]. apply (run_app p t i (S i) e); [|exact Hrun].
  intros k Hk. assert (k = i) as -> by lia. eauto.
Qed.

Lemma prefixb_nth (w l : text) :
  prefixb w l = true ->
  forall k c, nth_error w k = Some c -> nth_error l k = Some c.
Proof.
  intros H k c Hk. apply prefixb_true in H. destruct H as (post & ->).
  rewrite nth_error_app1; [exact Hk|]. apply nth_error_Some. congruence.
Qed.

Lemma in_ends_lit_run (p : ascii -> bool) (w : string) (t : text) (i e : nat) :
  forallb p (txt w) = true ->
  In e (ends (Lit w) t i) -> e = i + String.length w /\ run p t i e.
Proof.
  intros Hp He. cbn [ends] in He.
  destruct (prefixb (txt w) (skipn i t)) eqn:E; [|contradiction].
  destruct He as [<-|[]]. split; [reflexivity|].
  intros k Hk. rewrite <- length_txt in Hk.
  destruct (nth_error (txt w) (k - i)) as [c|] eqn:Ec.
  - exists c. split.
    + pose proof (prefixb_nth _ _ E (k - i) c Ec) as H.
      rewrite nth_error_skipn in H. now replace (i + (k - i)) with k in H by lia.
    + rewrite forallb_forall in Hp. apply Hp. eapply nth_error_In; eauto.
  - apply nth_error_None in Ec. lia.
Qed.

Lemma in_ends_lit_char (c : ascii) (t : text) (i e : nat) :
  In e (ends (Lit (String c EmptyString)) t i) ->
  nth_error t i = Some c /\ e = i + 1.
Proof.
  cbn [ends]. intros He.
  destruct (prefixb (txt (String c "")) (skipn i t)) eqn:E; [|contradiction].
  destruct He as [<-|[]]. split; [|reflexivity].
  pose proof (prefixb_nth _ _ E 0 c eq_refl) as H.
  rewrite nth_error_skipn in H. now rewrite Nat.add_0_r in H.
Qed.

(** What a match of the [async void] pattern from [s] to [e] looks like. *)
Lemma async_void_shape (t : text) (s e : nat) :
  In e (ends RE_async_void t s) ->
  exists m1 m2 m3 m4,
    xorb (word_before t s) (word_at t s) = true /\
    run is_word t s (s + 5) /\
    s + 5 < m1 /\ run is_space t (s + 5) m1 /\
    run is_word t m1 (m1 + 4) /\
    m1 + 4 < m2 /\ run is_space t (m1 + 4) m2 /\
    m2 < m3 /\ run is_word t m2 m3 /\
    m3 <= m4 /\ run is_space t m3 m4 /\
    nth_error t m4 = Some "("%char /\ e = m4 + 1.
Proof.
  unfold RE_async_void, ws_plus, ws_star. intros He.
  cbn [ends] in He.
  apply in_flat_map in He. destruct He as (s' & Hb & He).
  destruct (xorb (word_before t s) (word_at t s)) eqn:Exor; [|contradiction].
  destruct Hb as [<-|[]].
  change (In e (ends (Seq (Lit "async") (Seq (PlusCls is_space)
            (Seq (Lit "void") (Seq (PlusCls is_space) (Seq (PlusCls is_word)
            (Seq (StarCls is_space) (Lit "("))))))) t s)) in He.
  cbn [ends] in He.
  apply in_flat_map in He. destruct He as (a1 & Ha1 & He).
  apply (in_ends_lit_run is_word "async") in Ha1; [|reflexivity].
  destruct Ha1 as [-> Hr1]. simpl String.length in *.
  apply in_flat_map in He. destruct He as (m1 & Hm1 & He).
  apply (in_ends_plus_run is_space) in Hm1. destruct Hm1 as [Hlt1 Hs1].
  apply in_flat_map in He. destruct He as (a2 & Ha2 & He).
  apply (in_ends_lit_run is_word "void") in Ha2; [|reflexivity].
  destruct Ha2 as [-> Hr2]. simpl String.length in *.
  apply in_flat_map in He. destruct He as (m2 & Hm2 & He).
  apply (in_ends_plus_run is_space) in Hm2. destruct Hm2 as [Hlt2 Hs2].
  apply in_flat_map in He. destruct He as (m3 & Hm3 & He).
  apply (in_ends_plus_run is_word) in Hm3. destruct Hm3 as [Hlt3 Hw3].
  apply in_flat_map in He. destruct He as (m4 & Hm4 & He).
  apply in_ends_star_run in Hm4. destruct Hm4 as [Hle4 Hs4].
  apply in_ends_lit_char in He. destruct He as [Hparen ->].
  exists m1, m2, m3, m4. repeat split; assumption.
Qed.

(** ** An occurrence of [async void Foo() { }] *)

Lemma occurrence_nth (pre post : text) (j : nat) (c : ascii) :
  nth_error ASYNC_VOID_FOO j = Some c ->
  nth_error (pre ++ ASYNC_VOID_FOO ++ post) (List.length pre + j) = Some c.
Proof.
  intros H. rewrite nth_error_app_shift, nth_error_app1; [exact H|].
  apply nth_error_Some. congruence.
Qed.

(** A match of the [async void] pattern that starts before the occurrence
    ends before it. *)
Lemma async_void_no_overlap (pre post : text) (s e : nat) :
  In e (ends RE_async_void (pre ++ ASYNC_VOID_FOO ++ post) s) ->
  s < List.length pre -> e <= List.length pre.
Proof.
  set (t := pre ++ ASYNC_VOID_FOO ++ post). set (P := List.length pre).
  intros He Hs.
  destruct (async_void_shape t s e He)
    as (m1 & m2 & m3 & m4 & _ & Hr1 & Hlt1 & Hs1 & Hr2 & Hlt2 & Hs2 & Hlt3
        & Hw3 & Hle4 & Hs4 & Hparen & ->).
  destruct (Nat.lt_ge_cases m4 P) as [Hlt|Hge]; [lia|]. exfalso.
  assert (Hat : forall j c, nth_error ASYNC_VOID_FOO j = Some c ->
                            nth_error t (P + j) = Some c)
    by (intros; now apply occurrence_nth).
  (* every offset of the match before its parenthesis is a word character
     or white space *)
  set (q := fun c => is_word c || is_space c).
  assert (Hwq : forall c, is_word c = true -> q c = true)
    by (intros c H; unfold q; now rewrite H).
  assert (Hsq : forall c, is_space c = true -> q c = true)
    by (intros c H; unfold q; rewrite H; apply orb_true_r).
  assert (Hq : run q t s m4).
  { apply (run_app q t s (s + 5)); [now apply (run_weaken is_word)|].
    apply (run_app q t (s + 5) m1); [now apply (run_weaken is_space)|].
    apply (run_app q t m1 (m1 + 4)); [now apply (run_weaken is_word)|].
    apply (run_app q t (m1 + 4) m2); [now apply (run_weaken is_space)|].
    apply (run_app q t m2 m3); [now apply (run_weaken is_word)|].
    now apply (run_weaken is_space). }
  pose proof (run_excl q t s m4 (P + 14) "("%char Hq (Hat 14 _ eq_refl) eq_refl)
    as H14.
  assert (Hm4 : m4 = P + 14).
  { assert (Hj : exists j, m4 = P + j /\ j <= 14) by (exists (m4 - P); lia).
    destruct Hj as (j & -> & Hj).
    do 14 (destruct j as [|j];
           [match type of Hparen with
            | nth_error t (P + ?k) = _ =>
                rewrite (Hat k _ eq_refl) in Hparen; discriminate Hparen
            end|]).
    lia. }
  subst m4.
  pose proof (run_excl is_space t m3 (P + 14) (P + 13) "o"%char Hs4
                (Hat 13 _ eq_refl) eq_refl) as H13.
  pose proof (run_excl is_word t m2 m3 (P + 10) " "%char Hw3
                (Hat 10 _ eq_refl) eq_refl) as H10.
  pose proof (run_excl is_space t (m1 + 4) m2 (P + 12) "o"%char Hs2
                (Hat 12 _ eq_refl) eq_refl) as H12.
  pose proof (run_excl is_space t (m1 + 4) m2 (P + 11) "F"%char Hs2
                (Hat 11 _ eq_refl) eq_refl) as H11.
  pose proof (run_excl is_space t (m1 + 4) m2 (P + 9) "d"%char Hs2
                (Hat 9 _ eq_refl) eq_refl) as H9.
  pose proof (run_excl is_space t (s + 5) m1 (P + 4) "c"%char Hs1
                (Hat 4 _ eq_refl) eq_refl) as H4.
  lia.
Qed.

(** The pattern matches at the occurrence when no word character stands
    right before it. *)
Lemma async_void_matches_occurrence (pre post : text) :
  no_word_at_end pre ->
  In (List.length pre + 15)
     (ends RE_async_void (pre ++ ASYNC_VOID_FOO ++ post) (List.length pre)).
Proof.
  intros [->|(pre' & c & -> & Hc)].
  - change ([] ++ ASYNC_VOID_FOO ++ post) with (ASYNC_VOID_FOO ++ post).
    change (List.length (@nil ascii) + 15) with 15.
    change (List.length (@nil ascii)) with 0.
    apply (ends_app_right_inside RE_async_void ASYNC_VOID_FOO post 0 15);
      [vm_compute; auto | vm_compute; lia].
  - assert (H1 : In 16 (ends RE_async_void (c :: ASYNC_VOID_FOO) 1)).
    { unfold RE_async_void. cbn [ends].
      change (word_before (c :: ASYNC_VOID_FOO) 1) with (is_word c).
      rewrite Hc. vm_compute. auto. }
    apply (ends_app_right_inside _ _ post) in H1; [|vm_compute; lia].
    apply (ends_app_left _ pre') in H1; [|lia].
    rewrite <- app_assoc, length_app.
    change (List.length [c]) with 1.
    replace (List.length pre' + 1 + 15) with (List.length pre' + 16) by lia.
    exact H1.
Qed.

(** ** [finditer] around one offset *)

Lemma match_at_inv (r : regex) (t : text) (s : nat) (x : Match) :
  match_at r t s = Some x -> m_start x = s /\ In (m_end x) (ends r t s).
Proof.
  unfold match_at. destruct (ends r t s) as [|e l]; [discriminate|].
  intros H. inversion H. subst x. simpl. auto.
Qed.

(** While every match found ends at or before [P], the scan of the start
    positions [l1] leaves the scan of the later ones to resume at or
    before [P]. *)
Lemma finditer_from_prefix (mt : matcher) (t : text) (P : nat)
    (l1 l2 : list nat) :
  (forall s x, In s l1 -> mt t s = Some x -> m_end x <= P) ->
  forall pos, pos <= P ->
  exists ms1 pos',
    pos' <= P /\
    finditer_from mt t (l1 ++ l2) pos = ms1 ++ finditer_from mt t l2 pos' /\
    Forall (fun x => exists s, In s l1 /\ mt t s = Some x) ms1.
Proof.
  induction l1 as [|s l1 IH]; intros Hend pos Hpos.
  - exists [], pos. simpl. auto.
  - assert (Hend' : forall s' x, In s' l1 -> mt t s' = Some x -> m_end x <= P)
      by (intros s' x Hin; apply Hend; now right).
    simpl. destruct (s <? pos).
    + destruct (IH Hend' pos Hpos) as (ms1 & pos' & Hp & Heq & Hall).
      exists ms1, pos'. split; [exact Hp|]. split; [exact Heq|].
      eapply Forall_impl; [|exact Hall].
      intros x (s' & Hs' & Hx). exists s'. simpl. auto.
    + destruct (mt t s) as [x|] eqn:E.
      * destruct (IH Hend' (m_end x)) as (ms1 & pos' & Hp & Heq & Hall).
        { apply (Hend s x); [now left | exact E]. }
        exists (x :: ms1), pos'. split; [exact Hp|]. split.
        -- simpl. now rewrite Heq.
        -- constructor; [exists s; simpl; auto|].
           eapply Forall_impl; [|exact Hall].
           intros y (s' & Hs' & Hy). exists s'. simpl. auto.
      * destruct (IH Hend' pos Hpos) as (ms1 & pos' & Hp & Heq & Hall).
        exists ms1, pos'. split; [exact Hp|]. split; [exact Heq|].
        eapply Forall_impl; [|exact Hall].
        intros x (s' & Hs' & Hx). exists s'. simpl. auto.
Qed.

Lemma positions_split (t : text) (P : nat) :
  P <= List.length t ->
  positions t = seq 0 P ++ P :: seq (S P) (List.length t - P).
Proof.
  intros H. unfold positions.
  replace (S (List.length t)) with (P + S (List.length t - P)) by lia.
  rewrite seq_app. reflexivity.
Qed.

(** ** The claim about [async void] *)

(** The findings of one file with the rule [async-void]: one for each match
    of the pattern, in textual order. *)
Lemma evaluate_async_void (f : string) (t : text) :
  exists fs,
    evaluate f t = Ok fs /\
    with_rule "async-void" fs =
      map (async_void_finding f t) (finditer (match_at RE_async_void) t).
Proof.
  destruct (evaluate_with_file_rule f t "async-void") as (fs & Hfs & Hr).
  { simpl. intuition discriminate. }
  exists fs. split; [exact Hfs|]. rewrite Hr.
  rewrite (with_rule_other "async-void" _ _ (using_findings_rule f t))
    by discriminate.
  rewrite (with_rule_other "async-void" _ _ (empty_catch_findings_rule f t))
    by discriminate.
  rewrite (with_rule_other "async-void" _ _ (unsubscribe_findings_rule f t))
    by discriminate.
  rewrite (with_rule_other "async-void" _ _ (coroutine_findings_rule f t))
    by discriminate.
  rewrite (with_rule_same _ _ (async_void_findings_rule f t)).
  simpl. now rewrite app_nil_r.
Qed.

(** C9, as the code has it.  For a text that contains
    [async void Foo() { }] at an offset not directly preceded by a word
    character, the pattern has exactly one match that starts at that
    offset; the findings of the file with the rule [async-void] are one per
    match, so exactly one of them is for the occurrence, and its severity
    is [warn]. *)
Theorem async_void_occurrence_reported (f : string) (pre post : text) :
  no_word_at_end pre ->
  let t := pre ++ ASYNC_VOID_FOO ++ post in
  exists fs ms1 m ms2,
    evaluate f t = Ok fs /\
    finditer (match_at RE_async_void) t = ms1 ++ m :: ms2 /\
    Forall (fun x => m_start x < List.length pre) ms1 /\
    m_start m = List.length pre /\
    Forall (fun x => List.length pre < m_start x) ms2 /\
    with_rule "async-void" fs =
      map (async_void_finding f t) ms1
      ++ async_void_finding f t m :: map (async_void_finding f t) ms2 /\
    rule (async_void_finding f t m) = "async-void" /\
    severity (async_void_finding f t m) = "warn".
Proof.
  intros Hpre t. set (P := List.length pre).
  destruct (evaluate_async_void f t) as (fs & Hfs & Hr).
  assert (HP : P <= List.length t).
  { unfold t, P. rewrite length_app. lia. }
  destruct (finditer_from_prefix (match_at RE_async_void) t P (seq 0 P)
              (P :: seq (S P) (List.length t - P)))
    with (pos := 0) as (ms1 & pos' & Hpos' & Heq & Hall1); [|lia|].
  { intros s x Hs Hx. apply in_seq in Hs.
    apply match_at_inv in Hx. destruct Hx as [_ Hx].
    apply (async_void_no_overlap pre post s); [exact Hx | lia]. }
  pose proof (async_void_matches_occurrence pre post Hpre) as Hocc.
  fold t P in Hocc.
  cbn [finditer_from] in Heq.
  assert (Hnlt : (P <? pos') = false) by (apply Nat.ltb_ge; lia).
  rewrite Hnlt in Heq.
  destruct (match_at RE_async_void t P) as [m|] eqn:Em.
  2:{ exfalso. revert Em. apply match_at_some. eauto. }
  pose proof (match_at_inv _ _ _ _ Em) as [Hstart _].
  exists fs, ms1, m, (finditer_from (match_at RE_async_void) t
                        (seq (S P) (List.length t - P)) (m_end m)).
  split; [exact Hfs|]. split.
  { unfold finditer. rewrite (positions_split t P HP). exact Heq. }
  split.
  { eapply Forall_impl; [|exact Hall1]. intros x (s & Hs & Hx).
    apply in_seq in Hs. apply match_at_inv in Hx. lia. }
  split; [exact Hstart|]. split.
  { apply Forall_forall. intros x Hx. apply finditer_from_matcher in Hx.
    destruct Hx as (s & Hs & Hx). apply in_seq in Hs.
    apply match_at_inv in Hx. fold P. lia. }
  split; [|split; reflexivity].
  rewrite Hr. unfold finditer. rewrite (positions_split t P HP), Heq.
  now rewrite map_app.
Qed.

Lemma async_void_occurrence_reported_witness :
  let pre := txt "class A { " in
  let post := txt " }" in
  let t := pre ++ ASYNC_VOID_FOO ++ post in
  no_word_at_end pre /\
  exists fs ms1 m ms2,
    evaluate "a.cs" t = Ok fs /\
    finditer (match_at RE_async_void) t = ms1 ++ m :: ms2 /\
    Forall (fun x => m_start x < List.length pre) ms1 /\
    m_start m = List.length pre /\
    Forall (fun x => List.length pre < m_start x) ms2 /\
    with_rule "async-void" fs =
      map (async_void_finding "a.cs" t) ms1
      ++ async_void_finding "a.cs" t m
         :: map (async_void_finding "a.cs" t) ms2 /\
    rule (async_void_finding "a.cs" t m) = "async-void" /\
    severity (async_void_finding "a.cs" t m) = "warn".
Proof.
  intros pre post t.
  assert (Hpre : no_word_at_end pre).
  { right. exists (txt "class A {"), " "%char. split; reflexivity. }
  split; [exact Hpre|].
  exact (async_void_occurrence_reported "a.cs" pre post Hpre).
Defined.

(** C9, as the spec words it, fails twice.  The finding for the
    declaration carries the rule [async-void], none carries
    [async-void-method]; and an occurrence directly after a word character
    gets no finding at all. *)
Lemma async_void_rule_id_counterexample :
  (exists fs,
     evaluate "a.cs" (txt "async void Foo() { }") = Ok fs /\
     with_rule "async-void-method" fs = [] /\
     with_rule "async-void" fs =
       [mkFinding "a.cs" 1 "warn" "async-void"
          "Avoid async void (except event handlers); prefer async Task."]) /\
  substring (txt "async void Foo() { }") (txt "xasync void Foo() { }") /\
  evaluate "a.cs" (txt "xasync void Foo() { }") = Ok [].
Proof.
  split; [|split].
  - eexists. split; [vm_compute; reflexivity|]. split; reflexivity.
  - exists 1, [ "x"%char ], []. split; reflexivity.
  - vm_compute. reflexivity.
Qed.

(** ** Lines of the body-scope findings *)

(** The body-scope findings of a file are reported at lines of the file. *)
Lemma body_scope_lines_in_file (f : string) (t : text) (rs : Ranges) :
  find_method_ranges t = Ok rs ->
  Forall (fun x => 1 <= line x <= List.length (splitlines t))
         (flat_map (group_findings f (splitlines t)) rs).
Proof.
  intros Hrs. apply Forall_forall. intros x Hx.
  apply in_flat_map in Hx. destruct Hx as ([name ranges] & Hg & Hx).
  unfold group_findings in Hx. cbn [fst snd] in Hx.
  apply in_flat_map in Hx. destruct Hx as ([s e] & Hse & Hx).
  destruct (extracted_range_in_file t rs name ranges s e Hrs Hg Hse)
    as (_ & Hs & Hle & Hlen).
  unfold body_findings in Hx. apply in_map_iff in Hx.
  destruct Hx as ([r fd] & <- & Hin). apply filter_In in Hin.
  destruct Hin as [Hin _]. cbn [fst snd] in *.
  pose proof (body_rule_table_line f name s) as Hline.
  rewrite Forall_forall in Hline. specialize (Hline _ Hin). cbn [snd] in Hline.
  lia.
Qed.

(** ** Scenarios *)

Example scenario_update_expensive_call :
  let t := txt "void Update() { GetComponent<Foo>(); }" in
  find_method_ranges t =
    Ok [("Update", [(1, 1)]); ("FixedUpdate", []); ("LateUpdate", [])] /\
  evaluate "a.cs" t =
    Ok [mkFinding "a.cs" 1 "warn" "update-expensive-call"
          "Potentially expensive call inside Update()."].
Proof. vm_compute. split; reflexivity. Qed.

Example scenario_fixedupdate_physics :
  evaluate "a.cs" (txt "void FixedUpdate() { rb.AddForce(Vector3.up); }") =
    Ok [mkFinding "a.cs" 1 "ok" "fixedupdate-physics"
          "Physics calls in FixedUpdate (generally correct)."].
Proof. vm_compute. reflexivity. Qed.

Example scenario_empty_catch :
  evaluate "a.cs" (txt "try { f(); } catch (Exception e) { }") =
    Ok [mkFinding "a.cs" 1 "warn" "empty-catch-block"
          "Empty catch block swallows exceptions."].
Proof. vm_compute. reflexivity. Qed.

Example scenario_empty_text :
  find_method_ranges [] = Ok initial_ranges /\ evaluate "a.cs" [] = Ok [].
Proof. vm_compute. split; reflexivity. Qed.

(** Line numbers over several lines, Windows line ends included. *)
Example scenario_multiline :
  let t := txt "class A {" ++ [CR; LF]
           ++ txt "  public override void Update()" ++ [CR; LF]
           ++ txt "  {" ++ [CR; LF]
           ++ txt "    if (x) { Debug.Log(1); }" ++ [CR; LF]
           ++ txt "  }" ++ [CR; LF]
           ++ txt "}" in
  find_method_ranges t =
    Ok [("Update", [(3, 5)]); ("FixedUpdate", []); ("LateUpdate", [])] /\
  List.length (splitlines t) = 6 /\
  evaluate "a.cs" t =
    Ok [mkFinding "a.cs" 3 "info" "update-debuglog"
          "Debug logging inside Update() can be noisy."].
Proof. vm_compute. repeat split. Qed.

(** A call at the first column of a later line of the body: the character
    [n] of the separator stands before it, so [\b] does not hold there. *)
Example scenario_first_column :
  let t := txt "void Update()" ++ [LF] ++ txt "{" ++ [LF]
           ++ txt "Debug.Log(1);" ++ [LF] ++ txt "}" in
  find_method_ranges t =
    Ok [("Update", [(2, 4)]); ("FixedUpdate", []); ("LateUpdate", [])] /\
  evaluate "a.cs" t = Ok [].
Proof. vm_compute. split; reflexivity. Qed.

(** * Further properties *)

(** ** Where a returned range comes from *)

Lemma returned_range_match (t : text) (rs : Ranges) (name : string)
    (ranges : list Range) (s e : nat) :
  find_method_ranges t = Ok rs ->
  In (name, ranges) rs -> In (s, e) ranges ->
  exists m, In m (finditer METHOD_START_RE t) /\ m_group m = name /\
            range_of_match t m = Ok (Some (s, e)).
Proof.
  intros Hrs Hg Hse.
  destruct (find_method_ranges_spec t) as (rs' & Hrs' & Hkeys & Hlook).
  rewrite Hrs in Hrs'. inversion Hrs'. subst rs'. clear Hrs'.
  assert (Hname : In name METHOD_NAMES).
  { rewrite <- Hkeys. apply in_map_iff. now exists (name, ranges). }
  assert (Hnd : NoDup (map fst rs)).
  { rewrite Hkeys. repeat constructor; simpl; intuition discriminate. }
  pose proof (lookup_in rs name ranges Hnd Hg) as Hl.
  rewrite (Hlook name Hname) in Hl. inversion Hl. subst ranges.
  unfold ranges_named in Hse. apply in_flat_map in Hse.
  destruct Hse as (m & Hm & Hc). apply filter_In in Hm.
  destruct Hm as [Hm Hn]. apply String.eqb_eq in Hn.
  exists m. split; [exact Hm|]. split; [exact Hn|].
  unfold contribution in Hc.
  destruct (range_of_match t m) as [[r|]|x]; try contradiction.
  destruct Hc as [->|[]]. reflexivity.
Qed.

Lemma net_depth_app (a b : text) :
  net_depth (a ++ b) = (net_depth a + net_depth b)%Z.
Proof.
  induction a as [|c a IH]; simpl; [reflexivity|]. rewrite IH. lia.
Qed.

Lemma depth_after_start (t : text) (bp : nat) (c : ascii) :
  nth_error t bp = Some c -> depth_after t bp bp = brace_delta c.
Proof.
  intros H. unfold depth_after.
  rewrite (slice_cons t bp bp c H (Nat.le_refl bp)). unfold slice.
  rewrite Nat.sub_diag. simpl. lia.
Qed.

Lemma depth_after_step (t : text) (bp k : nat) (c : ascii) :
  bp <= S k -> nth_error t (S k) = Some c ->
  depth_after t bp (S k) = (depth_after t bp k + brace_delta c)%Z.
Proof.
  intros Hle H. unfold depth_after.
  rewrite (slice_last t bp (S k) c H Hle), net_depth_app. simpl. lia.
Qed.

Lemma brace_delta_bounds (c : ascii) :
  (-1 <= brace_delta c <= 1)%Z /\
  (brace_delta c = (-1)%Z -> c = "}"%char).
Proof.
  unfold brace_delta.
  destruct (Ascii.eqb c "{") eqn:E1; [split; [lia|intros; lia]|].
  destruct (Ascii.eqb c "}") eqn:E2.
  - apply Ascii.eqb_eq in E2. split; [lia | auto].
  - split; [lia | intros; lia].
Qed.

(** Between the opening brace and the closing brace the walk stops at, the
    depth stays positive. *)
Lemma depth_positive_inside (t : text) (bp ep : nat) :
  nth_error t bp = Some "{"%char -> first_close t bp ep ->
  forall k, bp <= k < ep -> (1 <= depth_after t bp k)%Z.
Proof.
  intros Hb (Hle & [Hc Hz] & Hfirst) k Hk.
  assert (Hlen : ep < List.length t) by (apply nth_error_Some; congruence).
  assert (H : forall d, bp + d < ep -> (1 <= depth_after t bp (bp + d))%Z).
  { induction d as [|d IH]; intros Hd.
    - rewrite Nat.add_0_r, (depth_after_start t bp _ Hb). reflexivity.
    - replace (bp + S d) with (S (bp + d)) in * by lia.
      destruct (nth_error t (S (bp + d))) as [c|] eqn:Ec.
      2:{ apply nth_error_None in Ec. lia. }
      rewrite (depth_after_step t bp (bp + d) c ltac:(lia) Ec).
      specialize (IH ltac:(lia)).
      destruct (brace_delta_bounds c) as [Hbd Hclose].
      destruct (Z.eq_dec (brace_delta c) (-1)) as [E|E]; [|lia].
      specialize (Hclose E). subst c.
      assert (Hnz : depth_after t bp (S (bp + d)) <> 0%Z).
      { intros H0. apply (Hfirst (S (bp + d))); [lia|]. split; assumption. }
      rewrite (depth_after_step t bp (bp + d) "}" ltac:(lia) Ec) in Hnz. lia. }
  replace k with (bp + (k - bp)) by lia. apply H. lia.
Qed.

Lemma range_of_match_inv (t : text) (m : Match) (s e : nat) :
  range_of_match t m = Ok (Some (s, e)) ->
  exists bp ep,
    first_brace t (m_end m) bp /\ first_close t bp ep /\
    s = line_number t bp /\ e = line_number t ep.
Proof.
  unfold range_of_match.
  destruct (str_find "{" t (m_end m)) as [bp|] eqn:Eb; [|discriminate].
  apply str_find_some in Eb.
  pose proof (first_brace_in_text _ _ _ Eb) as Hlen.
  destruct (brace_walk t (List.length t - bp) bp 0) as [[ep|]|x] eqn:Ew; simpl;
    try discriminate.
  intros E. inversion E. rewrite !line_of_line_number.
  exists bp, ep. split; [exact Eb|]. split; [|split; reflexivity].
  apply brace_walk_first_close; [lia | exact Ew].
Qed.

(** X1.  Every range [find_method_ranges] returns belongs to a declaration
    match of its group's name, and is delimited by the first opening brace
    after that match and the closing brace that first returns the depth to
    zero; the closing brace comes after the opening one, and strictly
    between them the depth stays at least one. *)
Theorem returned_range_is_balanced_region (t : text) (rs : Ranges)
    (name : string) (ranges : list Range) (s e : nat) :
  find_method_ranges t = Ok rs ->
  In (name, ranges) rs -> In (s, e) ranges ->
  exists m bp ep,
    In m (finditer METHOD_START_RE t) /\ m_group m = name /\
    first_brace t (m_end m) bp /\ first_close t bp ep /\
    bp < ep /\
    s = line_number t bp /\ e = line_number t ep /\
    forall k, bp <= k < ep -> (1 <= depth_after t bp k)%Z.
Proof.
  intros Hrs Hg Hse.
  destruct (returned_range_match t rs name ranges s e Hrs Hg Hse)
    as (m & Hm & Hn & Hr).
  destruct (range_of_match_inv t m s e Hr) as (bp & ep & Hb & Hc & Hs & He).
  exists m, bp, ep.
  split; [exact Hm|]. split; [exact Hn|]. split; [exact Hb|].
  split; [exact Hc|]. split.
  { destruct Hb as (_ & Hb & _). destruct Hc as (Hle & [Hc _] & _).
    destruct (Nat.eq_dec bp ep) as [->|]; [congruence | lia]. }
  split; [exact Hs|]. split; [exact He|].
  destruct Hb as (_ & Hb & _). apply (depth_positive_inside t bp ep Hb Hc).
Qed.

Lemma returned_range_is_balanced_region_witness :
  let t := txt "void Update() { if (x) { y(); } }" in
  let rs := [("Update", [(1, 1)]); ("FixedUpdate", []); ("LateUpdate", [])] in
  find_method_ranges t = Ok rs /\
  exists m bp ep,
    In m (finditer METHOD_START_RE t) /\ m_group m = "Update" /\
    first_brace t (m_end m) bp /\ first_close t bp ep /\
    bp < ep /\
    1 = line_number t bp /\ 1 = line_number t ep /\
    forall k, bp <= k < ep -> (1 <= depth_after t bp k)%Z.
Proof.
  intros t rs.
  assert (Hrs : find_method_ranges t = Ok rs) by (vm_compute; reflexivity).
  split; [exact Hrs|].
  apply (returned_range_is_balanced_region t rs "Update" [(1, 1)] 1 1 Hrs);
    simpl; auto.
Defined.

(** X2.  Every range [find_method_ranges] returns is filed under one of the
    three method names, and its lines satisfy
    [1 <= start_line <= end_line <= len(text.splitlines())]. *)
Theorem returned_range_within_file (t : text) (rs : Ranges) (name : string)
    (ranges : list Range) (s e : nat) :
  find_method_ranges t = Ok rs ->
  In (name, ranges) rs -> In (s, e) ranges ->
  In name ["Update"; "FixedUpdate"; "LateUpdate"] /\
  1 <= s /\ s <= e /\ e <= List.length (splitlines t).
Proof. apply extracted_range_in_file. Qed.

Lemma returned_range_within_file_witness :
  let t := txt "class A {" ++ [LF] ++ txt "void LateUpdate()" ++ [LF]
           ++ txt "{" ++ [LF] ++ txt "}" ++ [LF] ++ txt "}" ++ [LF] in
  let rs := [("Update", []); ("FixedUpdate", []); ("LateUpdate", [(3, 4)])] in
  find_method_ranges t = Ok rs /\
  List.length (splitlines t) = 5 /\
  In "LateUpdate" ["Update"; "FixedUpdate"; "LateUpdate"] /\
  1 <= 3 /\ 3 <= 4 /\ 4 <= List.length (splitlines t).
Proof.
  intros t rs.
  assert (Hrs : find_method_ranges t = Ok rs) by (vm_compute; reflexivity).
  split; [exact Hrs|]. split; [reflexivity|].
  apply (returned_range_within_file t rs "LateUpdate" [(3, 4)] 3 4 Hrs);
    simpl; auto.
Defined.

(** ** Order of the ranges of a group *)

Lemma match_at_ok (r : regex) : matcher_ok (match_at r).
Proof.
  intros t s x H. apply match_at_inv in H. destruct H as [Hs He].
  split; [exact Hs|]. now apply (ends_ge r t s).
Qed.

Lemma ends_group_ge (pre : regex) (ws : list string) (post : regex)
    (t : text) (i : nat) (w : string) (e : nat) :
  In (w, e) (ends_group pre ws post t i) -> i <= e.
Proof.
  unfold ends_group. intros H.
  apply in_flat_map in H. destruct H as (j & Hj & H).
  apply in_flat_map in H. destruct H as (w' & _ & H).
  apply in_map_iff in H. destruct H as (e' & E & He). inversion E. subst.
  pose proof (ends_ge pre t i j Hj). pose proof (ends_ge _ t j e He). lia.
Qed.

Lemma match_group_at_ok (pre : regex) (ws : list string) (post : regex) :
  matcher_ok (match_group_at pre ws post).
Proof.
  intros t s x. unfold match_group_at.
  destruct (ends_group pre ws post t s) as [|[w e] l] eqn:E; [discriminate|].
  intros H. inversion H. subst x. simpl. split; [reflexivity|].
  apply (ends_group_ge pre ws post t s w e). rewrite E. now left.
Qed.

(** The matches [finditer] yields come one after the other. *)
Lemma finditer_from_sorted (mt : matcher) (t : text) (starts : list nat) :
  matcher_ok mt ->
  forall pos,
  Forall (fun x => pos <= m_start x /\ m_start x <= m_end x)
         (finditer_from mt t starts pos) /\
  StronglySorted (fun x y => m_end x <= m_start y)
                 (finditer_from mt t starts pos).
Proof.
  intros Hok. induction starts as [|s starts IH]; intros pos; simpl.
  - split; constructor.
  - destruct (s <? pos) eqn:E; [apply IH|].
    apply Nat.ltb_ge in E.
    destruct (mt t s) as [x|] eqn:Ex; [|apply IH].
    destruct (Hok t s x Ex) as [Hs He].
    destruct (IH (m_end x)) as [Hall Hsorted]. split.
    + constructor; [lia|]. eapply Forall_impl; [|exact Hall].
      intros y Hy. simpl in Hy. lia.
    + constructor; [exact Hsorted|].
      eapply Forall_impl; [|exact Hall]. intros y Hy. simpl in Hy. lia.
Qed.

Lemma StronglySorted_weaken_in {A} (R R' : A -> A -> Prop) (l : list A) :
  (forall x y, In x l -> In y l -> R x y -> R' x y) ->
  StronglySorted R l -> StronglySorted R' l.
Proof.
  intros Himp H. induction H as [|x l Hs IH Hall]; [constructor|].
  constructor.
  - apply IH. intros a b Ha Hb. apply Himp; now right.
  - rewrite Forall_forall in *. intros y Hy.
    apply Himp; [now left | now right | now apply Hall].
Qed.

(** The ends of the matches [finditer] yields never decrease. *)
Lemma finditer_ends_sorted (mt : matcher) (t : text) :
  matcher_ok mt ->
  StronglySorted (fun x y => m_end x <= m_end y) (finditer mt t).
Proof.
  intros Hok. unfold finditer.
  destruct (finditer_from_sorted mt t (positions t) Hok 0) as [Hall Hs].
  apply (StronglySorted_weaken_in (fun x y => m_end x <= m_start y));
    [|exact Hs].
  intros x y _ Hy Hxy. rewrite Forall_forall in Hall.
  specialize (Hall y Hy). simpl in Hall. lia.
Qed.

Lemma StronglySorted_filter {A} (R : A -> A -> Prop) (P : A -> bool)
    (l : list A) :
  StronglySorted R l -> StronglySorted R (filter P l).
Proof.
  induction 1 as [|x l Hs IH Hall]; simpl; [constructor|].
  destruct (P x); [|exact IH]. constructor; [exact IH|].
  apply Forall_forall. intros y Hy. apply filter_In in Hy.
  rewrite Forall_forall in Hall. now apply Hall.
Qed.

Lemma StronglySorted_flat_map {A B} (R : A -> A -> Prop) (Q : B -> B -> Prop)
    (g : A -> list B) (l : list A) :
  (forall x, StronglySorted Q (g x)) ->
  (forall x y a b, R x y -> In a (g x) -> In b (g y) -> Q a b) ->
  StronglySorted R l -> StronglySorted Q (flat_map g l).
Proof.
  intros Hg HRQ. induction 1 as [|x l Hs IH Hall]; simpl; [constructor|].
  rewrite Forall_forall in Hall.
  assert (H : forall l1, StronglySorted Q l1 ->
              (forall a, In a l1 -> In a (g x)) ->
              StronglySorted Q (l1 ++ flat_map g l)).
  { induction 1 as [|a l1 Hs1 IH1 Hall1]; intros Hsub; simpl; [exact IH|].
    constructor.
    - apply IH1. intros b Hb. apply Hsub. now right.
    - apply Forall_app. split; [exact Hall1|].
      apply Forall_forall. intros b Hb. apply in_flat_map in Hb.
      destruct Hb as (y & Hy & Hb).
      apply (HRQ x y a b); [now apply Hall | apply Hsub; now left | exact Hb]. }
  apply H; [apply Hg | auto].
Qed.

Lemma first_brace_mono (t : text) (from1 from2 bp1 bp2 : nat) :
  from1 <= from2 -> first_brace t from1 bp1 -> first_brace t from2 bp2 ->
  bp1 <= bp2.
Proof.
  intros Hle (H1 & Hb1 & Hf1) (H2 & Hb2 & Hf2).
  destruct (Nat.le_gt_cases bp1 bp2) as [H|H]; [exact H|].
  exfalso. apply (Hf1 bp2); [lia | exact Hb2].
Qed.

(** X3.  Within each group the ranges stand in the textual order of their
    declarations, so their start lines never decrease. *)
Theorem group_start_lines_sorted (t : text) (rs : Ranges) (name : string)
    (ranges : list Range) :
  find_method_ranges t = Ok rs -> In (name, ranges) rs ->
  StronglySorted (fun a b => fst a <= fst b) ranges.
Proof.
  intros Hrs Hg.
  destruct (find_method_ranges_spec t) as (rs' & Hrs' & Hkeys & Hlook).
  rewrite Hrs in Hrs'. inversion Hrs'. subst rs'. clear Hrs'.
  assert (Hname : In name METHOD_NAMES).
  { rewrite <- Hkeys. apply in_map_iff. now exists (name, ranges). }
  assert (Hnd : NoDup (map fst rs)).
  { rewrite Hkeys. repeat constructor; simpl; intuition discriminate. }
  pose proof (lookup_in rs name ranges Hnd Hg) as Hl.
  rewrite (Hlook name Hname) in Hl. inversion Hl. subst ranges.
  unfold ranges_named.
  apply (StronglySorted_flat_map (fun x y => m_end x <= m_end y)).
  - intros x. unfold contribution.
    destruct (range_of_match t x) as [[r|]|]; repeat constructor.
  - intros x y [s1 e1] [s2 e2] Hxy Ha Hb. simpl.
    unfold contribution in Ha, Hb.
    destruct (range_of_match t x) as [[r1|]|] eqn:E1; try contradiction.
    destruct (range_of_match t y) as [[r2|]|] eqn:E2; try contradiction.
    destruct Ha as [->|[]]. destruct Hb as [->|[]].
    destruct (range_of_match_inv t x s1 e1 E1) as (bp1 & ep1 & Hb1 & _ & -> & _).
    destruct (range_of_match_inv t y s2 e2 E2) as (bp2 & ep2 & Hb2 & _ & -> & _).
    apply line_number_mono.
    now apply (first_brace_mono t (m_end x) (m_end y)).
  - apply StronglySorted_filter.
    apply finditer_ends_sorted. apply match_group_at_ok.
Qed.

Lemma group_start_lines_sorted_witness :
  let t := txt "void Update() { }" ++ [LF] ++ txt "void Update() {" ++ [LF]
           ++ txt "}" ++ [LF] ++ txt "void Update() { }" in
  let rs := [("Update", [(1, 1); (2, 3); (4, 4)]); ("FixedUpdate", []);
             ("LateUpdate", [])] in
  find_method_ranges t = Ok rs /\
  StronglySorted (fun a b => fst a <= fst b) [(1, 1); (2, 3); (4, 4)].
Proof.
  intros t rs.
  assert (Hrs : find_method_ranges t = Ok rs) by (vm_compute; reflexivity).
  split; [exact Hrs|].
  apply (group_start_lines_sorted t rs "Update" _ Hrs). simpl. auto.
Defined.

(** ** The findings of one file *)

Lemma evaluate_inv (f : string) (t : text) (fs : list Finding) :
  evaluate f t = Ok fs ->
  exists rs,
    find_method_ranges t = Ok rs /\
    map fst rs = METHOD_NAMES /\
    fs = file_scope_findings f t
         ++ flat_map (group_findings f (splitlines t)) rs.
Proof.
  intros H. destruct (scan_file_spec f t []) as (rs & Hrs & Hkeys & Hscan).
  unfold evaluate in H. rewrite Hscan in H. inversion H.
  exists rs. split; [exact Hrs|]. split; [exact Hkeys|].
  unfold file_scope_findings. simpl. now rewrite <- !app_assoc.
Qed.

Lemma escaped_line_of_pos (t : text) (pos : nat) : 1 <= escaped_line_of t pos.
Proof. unfold escaped_line_of. lia. Qed.

(** What the file-scope rules append: file, line, rule and severity. *)
Lemma file_scope_findings_shape (f : string) (t : text) :
  Forall (fun x => file x = f /\ 1 <= line x /\
                   In (rule x) file_rule_ids /\
                   In (rule x, severity x) rule_severity_table)
         (file_scope_findings f t).
Proof.
  assert (Hshape : forall x, file x = f -> 1 <= line x ->
            In (rule x) file_rule_ids ->
            In (rule x, severity x) rule_severity_table ->
            file x = f /\ 1 <= line x /\ In (rule x) file_rule_ids /\
            In (rule x, severity x) rule_severity_table) by auto.
  unfold file_scope_findings. rewrite !Forall_app. repeat split.
  - unfold using_findings.
    destruct (re_search (match_at RE_using_unityeditor) t) as [m|];
      constructor; [|constructor].
    apply Hshape; [reflexivity | apply escaped_line_of_pos | solve_in | solve_in].
  - apply Forall_forall. intros x Hx. apply in_map_iff in Hx.
    destruct Hx as (m & <- & _).
    apply Hshape; [reflexivity | apply escaped_line_of_pos | solve_in | solve_in].
  - apply Forall_forall. intros x Hx. apply in_map_iff in Hx.
    destruct Hx as (m & <- & _).
    apply Hshape; [reflexivity | apply escaped_line_of_pos | solve_in | solve_in].
  - unfold unsubscribe_findings.
    destruct (found (re_search (match_at RE_subscribe_event) t)
              && negb (found (re_search (match_at RE_unsubscribe_event) t)));
      constructor; [|constructor].
    apply Hshape; [reflexivity | simpl; lia | solve_in | solve_in].
  - unfold coroutine_findings.
    destruct (found (re_search (match_at RE_start_coroutine) t)
              && (negb (str_contains (txt "OnDisable") t)
                  && negb (str_contains (txt "OnDestroy") t)
                  && negb (str_contains (txt "StopCoroutine") t)));
      constructor; [|constructor].
    apply Hshape; [reflexivity | simpl; lia | solve_in | solve_in].
Qed.

(** What the body-scope rules of one of the three methods append. *)
Lemma body_rule_table_shape (f name : string) (s : nat) :
  In name METHOD_NAMES ->
  Forall (fun rf => file (snd rf) = f /\ line (snd rf) = s /\
                    In (rule (snd rf)) body_rule_ids /\
                    In (rule (snd rf), severity (snd rf)) rule_severity_table)
         (body_rule_table f name s).
Proof.
  intros Hname. simpl in Hname.
  destruct Hname as [<-|[<-|[<-|[]]]]; unfold body_rule_table; simpl;
    repeat (constructor;
            [split; [reflexivity|]; split; [reflexivity|];
             split; solve_in|]);
    constructor.
Qed.

(** A member of the body-scope part of the findings of a file. *)
Lemma in_group_findings (f : string) (lines : list text) (rs : Ranges)
    (x : Finding) :
  In x (flat_map (group_findings f lines) rs) <->
  exists name ranges s e r,
    In (name, ranges) rs /\ In (s, e) ranges /\
    In (r, x) (body_rule_table f name s) /\
    triggered (body_text lines s e) r = true.
Proof.
  split.
  - intros Hx. apply in_flat_map in Hx. destruct Hx as ([name ranges] & Hg & Hx).
    unfold group_findings in Hx. cbn [fst snd] in Hx.
    apply in_flat_map in Hx. destruct Hx as ([s e] & Hse & Hx).
    unfold body_findings in Hx. apply in_map_iff in Hx.
    destruct Hx as ([r fd] & Hfd & Hin). cbn [fst snd] in *. subst fd.
    apply filter_In in Hin. destruct Hin as [Hin Htr]. cbn [fst] in Htr.
    exists name, ranges, s, e, r. auto.
  - intros (name & ranges & s & e & r & Hg & Hse & Hin & Htr).
    apply in_flat_map. exists (name, ranges). split; [exact Hg|].
    unfold group_findings. cbn [fst snd].
    apply in_flat_map. exists (s, e). split; [exact Hse|].
    unfold body_findings. apply in_map_iff. exists (r, x).
    split; [reflexivity|]. apply filter_In. split; [exact Hin | exact Htr].
Qed.

Lemma file_body_ids_disjoint (r : string) :
  In r file_rule_ids -> In r body_rule_ids -> False.
Proof.
  unfold file_rule_ids. simpl. intros H1 H2.
  repeat (destruct H1 as [<-|H1];
          [repeat (destruct H2 as [H2|H2]; [discriminate H2|]); exact H2|]).
  exact H1.
Qed.

(** X4.  Every finding of a file carries the file's relative path, a line
    of at least 1, and one of the fifteen rule identifiers with the
    severity that goes with it: [warn], [info] or [ok], never [error]. *)
Theorem findings_well_formed (f : string) (t : text) (fs : list Finding) :
  evaluate f t = Ok fs ->
  Forall (fun x => file x = f /\ 1 <= line x /\
                   In (rule x, severity x) rule_severity_table /\
                   severity x <> "error") fs.
Proof.
  intros H. destruct (evaluate_inv f t fs H) as (rs & Hrs & Hkeys & ->).
  assert (Hsev : forall r sv, In (r, sv) rule_severity_table -> sv <> "error").
  { intros r sv Hin. simpl in Hin.
    repeat (destruct Hin as [Hin|Hin];
            [inversion Hin; subst; discriminate|]).
    contradiction. }
  apply Forall_app. split.
  - eapply Forall_impl; [|apply file_scope_findings_shape].
    intros x (Hf & Hl & _ & Ht). simpl. eauto.
  - apply Forall_forall. intros x Hx. apply in_group_findings in Hx.
    destruct Hx as (name & ranges & s & e & r & Hg & Hse & Hin & _).
    destruct (extracted_range_in_file t rs name ranges s e Hrs Hg Hse)
      as (Hname & Hs & _).
    pose proof (body_rule_table_shape f name s Hname) as Hshape.
    rewrite Forall_forall in Hshape.
    destruct (Hshape _ Hin) as (Hf & Hl & _ & Ht). cbn [snd] in *.
    repeat split; [exact Hf | lia | exact Ht | eapply Hsev; exact Ht].
Qed.

Lemma findings_well_formed_witness :
  let t := txt "void FixedUpdate() { rb.AddForce(up); Debug.Log(1); } x += 1;" in
  let fs :=
    [mkFinding "a.cs" 1 "info" "event-unsubscribe-missing"
       "Subscriptions detected but no obvious unsubscription; ensure to unsubscribe in OnDisable/OnDestroy.";
     mkFinding "a.cs" 1 "info" "fixedupdate-debuglog"
       "Debug logging inside FixedUpdate() can be noisy.";
     mkFinding "a.cs" 1 "ok" "fixedupdate-physics"
       "Physics calls in FixedUpdate (generally correct)."] in
  evaluate "a.cs" t = Ok fs /\
  Forall (fun x => file x = "a.cs" /\ 1 <= line x /\
                   In (rule x, severity x) rule_severity_table /\
                   severity x <> "error") fs.
Proof.
  intros t fs.
  assert (H : evaluate "a.cs" t = Ok fs) by (vm_compute; reflexivity).
  split; [exact H | exact (findings_well_formed "a.cs" t fs H)].
Defined.

Lemma file_scope_findings_ids (f : string) (t : text) (x : Finding) :
  In x (file_scope_findings f t) -> In (rule x) file_rule_ids.
Proof.
  intros Hx. pose proof (file_scope_findings_shape f t) as H.
  rewrite Forall_forall in H. now destruct (H x Hx) as (_ & _ & Hr & _).
Qed.

Lemma body_scope_finding_spec (f : string) (t : text) (fs : list Finding)
    (rs : Ranges) (x : Finding) :
  evaluate f t = Ok fs -> find_method_ranges t = Ok rs ->
  In (rule x) body_rule_ids ->
  (In x fs <->
   exists name ranges s e r,
     In (name, ranges) rs /\ In (s, e) ranges /\
     In (r, x) (body_rule_table f name s) /\
     triggered (body_text (splitlines t) s e) r = true).
Proof.
  intros H Hrs Hid.
  destruct (evaluate_inv f t fs H) as (rs' & Hrs' & _ & ->).
  rewrite Hrs in Hrs'. inversion Hrs'. subst rs'.
  rewrite <- in_group_findings. rewrite in_app_iff. split.
  - intros [Hx|Hx]; [|exact Hx]. exfalso.
    apply (file_body_ids_disjoint (rule x)); [|exact Hid].
    now apply (file_scope_findings_ids f t).
  - auto.
Qed.

(** X5.  A finding with a body-scope rule identifier is among the findings
    of a file exactly when some returned range of some group has the
    finding in its rule table (so: the group's name in the identifier, the
    range's start line as line) and the rule's pattern is found in the body
    text of that range. *)
Theorem body_scope_finding_iff (f : string) (t : text) (fs : list Finding)
    (rs : Ranges) (x : Finding) :
  evaluate f t = Ok fs -> find_method_ranges t = Ok rs ->
  In (rule x) body_rule_ids ->
  (In x fs <->
   exists name ranges s e r,
     In (name, ranges) rs /\ In (s, e) ranges /\
     In (r, x) (body_rule_table f name s) /\
     triggered (body_text (splitlines t) s e) r = true).
Proof. apply body_scope_finding_spec. Qed.

Lemma body_scope_finding_iff_witness :
  let t := txt "void LateUpdate() { var l = xs.Where(p).ToList(); }" in
  let rs := [("Update", []); ("FixedUpdate", []); ("LateUpdate", [(1, 1)])] in
  let x := linq_finding "a.cs" "LateUpdate" 1 in
  evaluate "a.cs" t = Ok [x] /\
  find_method_ranges t = Ok rs /\
  In (rule x) body_rule_ids /\
  (In x [x] <->
   exists name ranges s e r,
     In (name, ranges) rs /\ In (s, e) ranges /\
     In (r, x) (body_rule_table "a.cs" name s) /\
     triggered (body_text (splitlines t) s e) r = true).
Proof.
  intros t rs x.
  assert (H : evaluate "a.cs" t = Ok [x]) by (vm_compute; reflexivity).
  assert (Hrs : find_method_ranges t = Ok rs) by (vm_compute; reflexivity).
  assert (Hid : In (rule x) body_rule_ids) by solve_in.
  split; [exact H|]. split; [exact Hrs|]. split; [exact Hid|].
  exact (body_scope_finding_iff "a.cs" t [x] rs x H Hrs Hid).
Defined.

(** X6.  A [fixedupdate-physics] finding only ever comes from a range of
    the group [FixedUpdate]: it is reported at the start line of such a
    range whose body text holds a physics call, with severity [ok]. *)
Theorem physics_only_in_fixedupdate (f : string) (t : text)
    (fs : list Finding) (rs : Ranges) (x : Finding) :
  evaluate f t = Ok fs -> find_method_ranges t = Ok rs ->
  In x fs -> rule x = "fixedupdate-physics" ->
  exists ranges s e,
    In ("FixedUpdate", ranges) rs /\ In (s, e) ranges /\
    x = physics_finding f s /\ severity x = "ok" /\
    triggered (body_text (splitlines t) s e) RE_fixedupdate_physics_calls
    = true.
Proof.
  intros H Hrs Hx Hrule.
  assert (Hid : In (rule x) body_rule_ids) by (rewrite Hrule; solve_in).
  apply (body_scope_finding_spec f t fs rs x H Hrs Hid) in Hx.
  destruct Hx as (name & ranges & s & e & r & Hg & Hse & Hin & Htr).
  destruct (extracted_range_in_file t rs name ranges s e Hrs Hg Hse)
    as (Hname & _).
  simpl in Hname.
  destruct Hname as [<-|[<-|[<-|[]]]]; simpl in Hin;
    repeat (destruct Hin as [Hin|Hin];
            [inversion Hin; subst; try discriminate Hrule|]);
    try contradiction.
  exists ranges, s, e. auto.
Qed.

Lemma physics_only_in_fixedupdate_witness :
  let t := txt "void Update() { rb.velocity = v; } void FixedUpdate() { rb.velocity = v; }" in
  let x := physics_finding "a.cs" 1 in
  let rs := [("Update", [(1, 1)]); ("FixedUpdate", [(1, 1)]); ("LateUpdate", [])] in
  evaluate "a.cs" t = Ok [x] /\
  find_method_ranges t = Ok rs /\
  exists ranges s e,
    In ("FixedUpdate", ranges) rs /\ In (s, e) ranges /\
    x = physics_finding "a.cs" s /\ severity x = "ok" /\
    triggered (body_text (splitlines t) s e) RE_fixedupdate_physics_calls
    = true.
Proof.
  intros t x rs.
  assert (H : evaluate "a.cs" t = Ok [x]) by (vm_compute; reflexivity).
  assert (Hrs : find_method_ranges t = Ok rs) by (vm_compute; reflexivity).
  split; [exact H|]. split; [exact Hrs|].
  apply (physics_only_in_fixedupdate "a.cs" t [x] rs x H Hrs);
    [now left | reflexivity].
Defined.

(** X7.  Every body-scope finding of a file is reported at a line of the
    file: between 1 and [len(text.splitlines())]. *)
Theorem body_scope_finding_line_in_file (f : string) (t : text)
    (fs : list Finding) (x : Finding) :
  evaluate f t = Ok fs -> In x fs -> In (rule x) body_rule_ids ->
  1 <= line x <= List.length (splitlines t).
Proof.
  intros H Hx Hid.
  destruct (evaluate_inv f t fs H) as (rs & Hrs & _ & ->).
  apply in_app_or in Hx. destruct Hx as [Hx|Hx].
  - exfalso. apply (file_body_ids_disjoint (rule x)); [|exact Hid].
    now apply (file_scope_findings_ids f t).
  - pose proof (body_scope_lines_in_file f t rs Hrs) as Hall.
    rewrite Forall_forall in Hall. now apply Hall.
Qed.

Lemma body_scope_finding_line_in_file_witness :
  let t := txt "class A {" ++ [LF] ++ txt "void Update()" ++ [LF]
           ++ txt "{ Instantiate(p); }" ++ [LF] ++ txt "}" in
  let x := expensive_finding "a.cs" "Update" 3 in
  evaluate "a.cs" t = Ok [x] /\
  List.length (splitlines t) = 4 /\
  1 <= line x <= List.length (splitlines t).
Proof.
  intros t x.
  assert (H : evaluate "a.cs" t = Ok [x]) by (vm_compute; reflexivity).
  split; [exact H|]. split; [reflexivity|].
  apply (body_scope_finding_line_in_file "a.cs" t [x] x H);
    [now left | solve_in].
Defined.

Lemma word_beyond (t : text) (i : nat) :
  List.length t < i -> xorb (word_before t i) (word_at t i) = false.
Proof.
  intros H. destruct i as [|j]; [lia|]. unfold word_before, word_at.
  assert (H1 : nth_error t j = None) by (apply nth_error_None; lia).
  assert (H2 : nth_error t (S j) = None) by (apply nth_error_None; lia).
  now rewrite H1, H2.
Qed.

(** Whether a text holds a declaration can be decided on its offsets. *)
Lemma no_declaration_check (t : text) :
  forallb (fun i => negb (found (METHOD_START_RE t i))) (positions t) = true ->
  no_declaration t.
Proof.
  intros H i. rewrite forallb_forall in H.
  destruct (Nat.le_gt_cases i (List.length t)) as [Hle|Hgt].
  - specialize (H i (proj2 (in_positions t i) Hle)).
    destruct (METHOD_START_RE t i); [discriminate H | reflexivity].
  - unfold METHOD_START_RE, match_group_at, ends_group, METHOD_START_pre.
    cbn [ends]. rewrite (word_beyond t i Hgt). reflexivity.
Qed.

(** X8.  A file in which no position starts a declaration of one of the
    three methods gets the findings of the file-scope rules and no
    other. *)
Theorem no_declaration_file_scope_only (f : string) (t : text) :
  no_declaration t ->
  evaluate f t = Ok (file_scope_findings f t) /\
  Forall (fun x => In (rule x) file_rule_ids) (file_scope_findings f t).
Proof.
  intros Hno. split.
  - destruct (scan_file_spec f t []) as (rs & Hrs & _ & Hscan).
    unfold find_method_ranges in Hrs.
    rewrite (no_declaration_finditer t Hno) in Hrs. simpl in Hrs.
    inversion Hrs. subst rs. unfold evaluate. rewrite Hscan. f_equal.
    change (flat_map (group_findings f (splitlines t)) initial_ranges)
      with (@nil Finding).
    unfold file_scope_findings. now rewrite app_nil_r.
  - apply Forall_forall. intros x. apply file_scope_findings_ids.
Qed.

Lemma no_declaration_file_scope_only_witness :
  let t := txt "void Start() { GetComponent<A>(); } async void Run() { }" in
  no_declaration t /\
  evaluate "a.cs" t = Ok (file_scope_findings "a.cs" t) /\
  file_scope_findings "a.cs" t =
    [mkFinding "a.cs" 1 "warn" "async-void"
       "Avoid async void (except event handlers); prefer async Task."].
Proof.
  intros t.
  assert (Hno : no_declaration t)
    by (apply no_declaration_check; vm_compute; reflexivity).
  split; [exact Hno|].
  split; [exact (proj1 (no_declaration_file_scope_only "a.cs" t Hno))|].
  vm_compute. reflexivity.
Defined.

(** ** The file-scope rules, one by one *)

Lemma str_contains_iff (sub t : text) :
  str_contains sub t = true <-> substring sub t.
Proof.
  induction t as [|c t IH].
  - simpl. rewrite orb_false_r, prefixb_true. split.
    + intros (post & H). exists 0, [], post. auto.
    + intros (i & pre & post & H & _).
      destruct pre; [|discriminate]. exists post. exact H.
  - cbn [str_contains]. rewrite orb_true_iff, IH, prefixb_true. split.
    + intros [(post & H)|(i & pre & post & H & Hi)].
      * exists 0, [], post. auto.
      * exists (S i), (c :: pre), post. split; [simpl; now rewrite H|].
        simpl. now rewrite Hi.
    + intros (i & pre & post & H & Hi). destruct pre as [|c' pre].
      * left. exists post. exact H.
      * right. simpl in H. inversion H. subst c'.
        exists (List.length pre), pre, post. auto.
Qed.

(** The match [search] returns is the leftmost one. *)
Lemma search_from_leftmost (mt : matcher) (t : text) (a n : nat) (m : Match) :
  matcher_ok mt ->
  search_from mt t (seq a n) = Some m ->
  a <= m_start m /\ mt t (m_start m) = Some m /\
  forall s, a <= s < m_start m -> mt t s = None.
Proof.
  intros Hok. revert a. induction n as [|n IH]; intros a H; [discriminate|].
  simpl in H. destruct (mt t a) as [x|] eqn:E.
  - inversion H. subst x. destruct (Hok t a m E) as [Hs _]. rewrite Hs.
    split; [lia|]. split; [exact E|]. intros s Hlt. lia.
  - destruct (IH (S a) H) as (Hle & Hm & Hfirst).
    split; [lia|]. split; [exact Hm|]. intros s Hs.
    destruct (Nat.eq_dec s a) as [->|Hne]; [exact E|]. apply Hfirst. lia.
Qed.

Lemma evaluate_with_rule (f : string) (t : text) (fs : list Finding)
    (r : string) :
  evaluate f t = Ok fs -> In r file_rule_ids ->
  with_rule r fs =
    with_rule r (using_findings f t) ++ with_rule r (empty_catch_findings f t)
    ++ with_rule r (async_void_findings f t)
    ++ with_rule r (unsubscribe_findings f t)
    ++ with_rule r (coroutine_findings f t).
Proof.
  intros H Hr.
  destruct (evaluate_with_file_rule f t r) as (fs' & Hfs' & Heq).
  { intros Hb. exact (file_body_ids_disjoint r Hr Hb). }
  rewrite H in Hfs'. inversion Hfs'. subst fs'. exact Heq.
Qed.

(** X9.  The editor-import rule reports at most one finding per file,
    however many imports the file has: one exactly when the pattern matches
    somewhere, and then for the leftmost match. *)
Theorem using_rule_once_per_file (f : string) (t : text) (fs : list Finding) :
  evaluate f t = Ok fs ->
  List.length (with_rule "using-UnityEditor-in-runtime" fs) <= 1 /\
  (triggered t RE_using_unityeditor = false ->
   with_rule "using-UnityEditor-in-runtime" fs = []) /\
  (triggered t RE_using_unityeditor = true ->
   exists m,
     with_rule "using-UnityEditor-in-runtime" fs = [using_finding f t m] /\
     match_at RE_using_unityeditor t (m_start m) = Some m /\
     forall s, s < m_start m -> match_at RE_using_unityeditor t s = None).
Proof.
  intros H.
  rewrite (evaluate_with_rule f t fs _ H) by solve_in.
  rewrite (with_rule_same _ _ (using_findings_rule f t)).
  rewrite (with_rule_other "using-UnityEditor-in-runtime" _ _
             (empty_catch_findings_rule f t)) by discriminate.
  rewrite (with_rule_other "using-UnityEditor-in-runtime" _ _
             (async_void_findings_rule f t)) by discriminate.
  rewrite (with_rule_other "using-UnityEditor-in-runtime" _ _
             (unsubscribe_findings_rule f t)) by discriminate.
  rewrite (with_rule_other "using-UnityEditor-in-runtime" _ _
             (coroutine_findings_rule f t)) by discriminate.
  rewrite !app_nil_r. unfold using_findings, triggered.
  destruct (re_search (match_at RE_using_unityeditor) t) as [m|] eqn:E; simpl.
  - split; [lia|]. split; [discriminate|]. intros _. exists m.
    split; [reflexivity|].
    destruct (search_from_leftmost _ t 0 _ m (match_at_ok _) E)
      as (_ & Hm & Hfirst).
    split; [exact Hm|]. intros s Hs. apply Hfirst. lia.
  - split; [lia|]. split; [reflexivity | discriminate].
Qed.

Lemma using_rule_once_per_file_witness :
  let t := txt "using System;" ++ [LF] ++ txt "using UnityEditor;" ++ [LF]
           ++ txt "  using UnityEditor ;" ++ [LF] in
  let m := mkMatch 14 32 "" in
  re_search (match_at RE_using_unityeditor) t = Some m /\
  evaluate "a.cs" t = Ok [using_finding "a.cs" t m] /\
  List.length (with_rule "using-UnityEditor-in-runtime"
                 [using_finding "a.cs" t m]) <= 1 /\
  List.length (finditer (match_at RE_using_unityeditor) t) = 2.
Proof.
  intros t m.
  assert (H : evaluate "a.cs" t = Ok [using_finding "a.cs" t m])
    by (vm_compute; reflexivity).
  split; [vm_compute; reflexivity|].
  split; [exact H|].
  split; [exact (proj1 (using_rule_once_per_file "a.cs" t _ H))|].
  vm_compute. reflexivity.
Defined.

(** X10.  The coroutine rule reports one finding, of severity [info] and at
    line 1, when the text holds a [StartCoroutine(] call and contains none
    of [OnDisable], [OnDestroy], [StopCoroutine]; when one of these three
    words occurs anywhere in the text, or there is no such call, it
    reports none. *)
Theorem coroutine_rule_correct (f : string) (t : text) (fs : list Finding) :
  evaluate f t = Ok fs ->
  (triggered t RE_start_coroutine = true ->
   ~ substring (txt "OnDisable") t -> ~ substring (txt "OnDestroy") t ->
   ~ substring (txt "StopCoroutine") t ->
   with_rule "coroutine-stop-missing" fs =
     [mkFinding f 1 "info" "coroutine-stop-missing"
        "StartCoroutine used without a stop path."]) /\
  (triggered t RE_start_coroutine = false \/
   substring (txt "OnDisable") t \/ substring (txt "OnDestroy") t \/
   substring (txt "StopCoroutine") t ->
   with_rule "coroutine-stop-missing" fs = []).
Proof.
  intros H.
  rewrite (evaluate_with_rule f t fs _ H) by solve_in.
  rewrite (with_rule_same _ _ (coroutine_findings_rule f t)).
  rewrite (with_rule_other "coroutine-stop-missing" _ _
             (using_findings_rule f t)) by discriminate.
  rewrite (with_rule_other "coroutine-stop-missing" _ _
             (empty_catch_findings_rule f t)) by discriminate.
  rewrite (with_rule_other "coroutine-stop-missing" _ _
             (async_void_findings_rule f t)) by discriminate.
  rewrite (with_rule_other "coroutine-stop-missing" _ _
             (unsubscribe_findings_rule f t)) by discriminate.
  simpl app. unfold coroutine_findings.
  change (found (re_search (match_at RE_start_coroutine) t))
    with (triggered t RE_start_coroutine).
  pose proof (str_contains_iff (txt "OnDisable") t) as H1.
  pose proof (str_contains_iff (txt "OnDestroy") t) as H2.
  pose proof (str_contains_iff (txt "StopCoroutine") t) as H3.
  destruct (str_contains (txt "OnDisable") t);
  destruct (str_contains (txt "OnDestroy") t);
  destruct (str_contains (txt "StopCoroutine") t);
  destruct (triggered t RE_start_coroutine); simpl;
  (split;
   [intros T N1 N2 N3;
    first [reflexivity
          |discriminate T
          |exfalso; apply N1; apply H1; reflexivity
          |exfalso; apply N2; apply H2; reflexivity
          |exfalso; apply N3; apply H3; reflexivity]
   |intros [E|[E|[E|E]]];
    first [reflexivity
          |discriminate E
          |apply H1 in E; discriminate E
          |apply H2 in E; discriminate E
          |apply H3 in E; discriminate E]]).
Qed.

Lemma coroutine_rule_correct_witness :
  let t := txt "void Start() { StartCoroutine(Run()); }" in
  let t' := txt "void Start() { StartCoroutine(Run()); } // no OnDestroy here" in
  let fd := mkFinding "a.cs" 1 "info" "coroutine-stop-missing"
              "StartCoroutine used without a stop path." in
  evaluate "a.cs" t = Ok [fd] /\
  (triggered t RE_start_coroutine = true /\
   ~ substring (txt "OnDisable") t /\ ~ substring (txt "OnDestroy") t /\
   ~ substring (txt "StopCoroutine") t) /\
  with_rule "coroutine-stop-missing" [fd] = [fd] /\
  evaluate "a.cs" t' = Ok [] /\
  substring (txt "OnDestroy") t' /\
  with_rule "coroutine-stop-missing" [] = [].
Proof.
  intros t t' fd.
  assert (H : evaluate "a.cs" t = Ok [fd]) by (vm_compute; reflexivity).
  assert (H' : evaluate "a.cs" t' = Ok []) by (vm_compute; reflexivity).
  assert (Hno : forall w, str_contains (txt w) t = false ->
                          ~ substring (txt w) t).
  { intros w E S. apply str_contains_iff in S. congruence. }
  assert (T : triggered t RE_start_coroutine = true) by (vm_compute; reflexivity).
  assert (N1 : ~ substring (txt "OnDisable") t) by (apply Hno; reflexivity).
  assert (N2 : ~ substring (txt "OnDestroy") t) by (apply Hno; reflexivity).
  assert (N3 : ~ substring (txt "StopCoroutine") t) by (apply Hno; reflexivity).
  assert (S' : substring (txt "OnDestroy") t')
    by (apply str_contains_iff; vm_compute; reflexivity).
  split; [exact H|]. split; [auto|].
  split; [exact (proj1 (coroutine_rule_correct "a.cs" t [fd] H) T N1 N2 N3)|].
  split; [exact H'|]. split; [exact S'|].
  exact (proj2 (coroutine_rule_correct "a.cs" t' [] H') (or_intror (or_intror (or_introl S')))).
Defined.

(** ** The occurrence rules *)

Lemma finditer_from_spans (mt : matcher) (t : text) (starts : list nat) :
  matcher_ok mt ->
  (forall s x, mt t s = Some x -> m_start x < m_end x) ->
  forall pos, spans_in_order pos (finditer_from mt t starts pos).
Proof.
  intros Hok Hne. induction starts as [|s starts IH]; intros pos; simpl.
  - exact I.
  - destruct (s <? pos) eqn:E; [apply IH|]. apply Nat.ltb_ge in E.
    destruct (mt t s) as [x|] eqn:Ex; [|apply IH].
    destruct (Hok t s x Ex) as [Hs _]. simpl.
    split; [lia|]. split; [now apply (Hne s)|]. apply IH.
Qed.

Lemma empty_catch_starts_with_catch (t : text) (s e : nat) :
  In e (ends RE_empty_catch t s) ->
  occurs_at (txt "catch") t s /\ s + 5 <= e.
Proof.
  unfold RE_empty_catch. cbn [ends]. intros He.
  apply in_flat_map in He. destruct He as (a & Ha & He).
  destruct (prefixb (txt "catch") (skipn s t)) eqn:E; [|contradiction].
  destruct Ha as [<-|[]]. split.
  - apply prefixb_skipn_occurs; [discriminate | exact E].
  - change (In e (ends (Seq ws_star (Seq (Lit "(") (Seq (StarCls (not_char ")"))
              (Seq (Lit ")") (Seq ws_star (Seq (Lit "{")
              (Seq (Alt (Seq ws_star (Seq (Lit "//")
                      (Seq (StarCls (not_char LF)) (Cls (Ascii.eqb LF)))))
                        ws_star) (Lit "}")))))))) t (s + 5))) in He.
    pose proof (ends_ge _ t (s + 5) e He). simpl in *. lia.
Qed.

Lemma async_void_starts_with_async (t : text) (s e : nat) :
  In e (ends RE_async_void t s) ->
  occurs_at (txt "async") t s /\ s + 5 < e.
Proof.
  intros He.
  destruct (async_void_shape t s e He)
    as (m1 & m2 & m3 & m4 & _ & _ & H1 & _ & _ & H2 & _ & H3 & _ & H4 & _ & _ & ->).
  split; [|lia].
  unfold RE_async_void in He. cbn [ends] in He.
  apply in_flat_map in He. destruct He as (s' & Hb & He).
  destruct (xorb (word_before t s) (word_at t s)); [|contradiction].
  destruct Hb as [<-|[]].
  apply in_flat_map in He. destruct He as (a & Ha & _).
  destruct (prefixb (txt "async") (skipn s t)) eqn:E; [|contradiction].
  apply prefixb_skipn_occurs; [discriminate | exact E].
Qed.

(** X11.  The empty-catch rule and the async-void rule report one finding
    per match of their pattern, in textual order, all of severity [warn].
    The matches counted are those of a left-to-right scan: each starts with
    the keyword ([catch], [async]), is not empty, and starts at or after
    the end of the match before it. *)
Theorem occurrence_rules_one_per_match (f : string) (t : text)
    (fs : list Finding) :
  evaluate f t = Ok fs ->
  let catches := finditer (match_at RE_empty_catch) t in
  let asyncs := finditer (match_at RE_async_void) t in
  with_rule "empty-catch-block" fs = map (empty_catch_finding f t) catches /\
  with_rule "async-void" fs = map (async_void_finding f t) asyncs /\
  spans_in_order 0 catches /\ spans_in_order 0 asyncs /\
  Forall (fun m => occurs_at (txt "catch") t (m_start m)) catches /\
  Forall (fun m => occurs_at (txt "async") t (m_start m)) asyncs /\
  Forall (fun x => severity x = "warn")
         (with_rule "empty-catch-block" fs ++ with_rule "async-void" fs).
Proof.
  intros H catches asyncs.
  assert (Hc : with_rule "empty-catch-block" fs
               = map (empty_catch_finding f t) catches).
  { rewrite (evaluate_with_rule f t fs _ H) by solve_in.
    rewrite (with_rule_same _ _ (empty_catch_findings_rule f t)).
    rewrite (with_rule_other "empty-catch-block" _ _
               (using_findings_rule f t)) by discriminate.
    rewrite (with_rule_other "empty-catch-block" _ _
               (async_void_findings_rule f t)) by discriminate.
    rewrite (with_rule_other "empty-catch-block" _ _
               (unsubscribe_findings_rule f t)) by discriminate.
    rewrite (with_rule_other "empty-catch-block" _ _
               (coroutine_findings_rule f t)) by discriminate.
    simpl. now rewrite app_nil_r. }
  assert (Ha : with_rule "async-void" fs
               = map (async_void_finding f t) asyncs).
  { destruct (evaluate_async_void f t) as (fs' & Hfs' & Hr).
    rewrite H in Hfs'. inversion Hfs'. subst fs'. exact Hr. }
  split; [exact Hc|]. split; [exact Ha|]. split; [|split; [|split; [|split]]].
  - apply finditer_from_spans; [apply match_at_ok|].
    intros s x Hx. apply match_at_inv in Hx. destruct Hx as [-> Hx].
    apply empty_catch_starts_with_catch in Hx. lia.
  - apply finditer_from_spans; [apply match_at_ok|].
    intros s x Hx. apply match_at_inv in Hx. destruct Hx as [-> Hx].
    apply async_void_starts_with_async in Hx. lia.
  - apply Forall_forall. intros m Hm. apply finditer_from_matcher in Hm.
    destruct Hm as (s & _ & Hm). apply match_at_inv in Hm.
    destruct Hm as [-> Hm]. now apply empty_catch_starts_with_catch in Hm.
  - apply Forall_forall. intros m Hm. apply finditer_from_matcher in Hm.
    destruct Hm as (s & _ & Hm). apply match_at_inv in Hm.
    destruct Hm as [-> Hm]. now apply async_void_starts_with_async in Hm.
  - rewrite Hc, Ha. apply Forall_app. split; apply Forall_forall;
      intros x Hx; apply in_map_iff in Hx; now destruct Hx as (m & <- & _).
Qed.

Lemma occurrence_rules_one_per_match_witness :
  let t := txt "try { a(); } catch (E e) { } try { b(); } catch { } catch(E e){ // x"
           ++ [LF] ++ txt "} async void F() { }" in
  let c1 := mkMatch 13 28 "" in
  let c2 := mkMatch 52 70 "" in
  let a1 := mkMatch 71 84 "" in
  evaluate "a.cs" t =
    Ok [empty_catch_finding "a.cs" t c1; empty_catch_finding "a.cs" t c2;
        async_void_finding "a.cs" t a1] /\
  finditer (match_at RE_empty_catch) t = [c1; c2] /\
  finditer (match_at RE_async_void) t = [a1] /\
  spans_in_order 0 [c1; c2].
Proof.
  intros t c1 c2 a1.
  assert (H : evaluate "a.cs" t =
    Ok [empty_catch_finding "a.cs" t c1; empty_catch_finding "a.cs" t c2;
        async_void_finding "a.cs" t a1]) by (vm_compute; reflexivity).
  assert (Hc : finditer (match_at RE_empty_catch) t = [c1; c2])
    by (vm_compute; reflexivity).
  split; [exact H|]. split; [exact Hc|]. split; [vm_compute; reflexivity|].
  rewrite <- Hc.
  exact (proj1 (proj2 (proj2 (occurrence_rules_one_per_match "a.cs" t _ H)))).
Defined.

(** ** The loop over the files *)

Lemma evaluate_total (f : string) (t : text) : exists fs, evaluate f t = Ok fs.
Proof.
  destruct (scan_file_spec f t []) as (rs & _ & _ & H). unfold evaluate. eauto.
Qed.

(** One file leaves the findings collected so far in place and appends
    its own. *)
Lemma scan_file_appends (f : string) (t : text) (acc fs : list Finding) :
  evaluate f t = Ok fs -> scan_file f t acc = Ok (acc ++ fs).
Proof.
  intros H.
  destruct (scan_file_spec f t acc) as (rs & Hrs & _ & Hacc).
  destruct (scan_file_spec f t []) as (rs' & Hrs' & _ & Hnil).
  rewrite Hrs in Hrs'. inversion Hrs'. subst rs'.
  unfold evaluate in H. rewrite Hnil in H. inversion H.
  rewrite Hacc. reflexivity.
Qed.

(** When every file can be read, the loop appends the findings of each. *)
Lemma scan_files_all_read (files : list (string * result text)) :
  forall acc : list Finding,
  Forall (fun ft => readable (snd ft)) files ->
  exists per_file,
    Forall2 (fun ft fs => exists t, snd ft = Ok t /\ evaluate (fst ft) t = Ok fs)
            files per_file /\
    scan_files files acc = Ok (acc ++ List.concat per_file).
Proof.
  induction files as [|[f rd] files IH]; intros acc Hall.
  - exists []. split; [constructor|]. simpl. now rewrite app_nil_r.
  - inversion Hall as [|? ? [t Ht] Hrest]; subst. cbn [snd] in Ht. subst rd.
    destruct (evaluate_total f t) as (fs & Hfs).
    destruct (IH (acc ++ fs) Hrest) as (per & Hper & Hscan).
    exists (fs :: per). split.
    + constructor; [exists t; auto | exact Hper].
    + simpl. rewrite (scan_file_appends f t acc fs Hfs). simpl.
      rewrite Hscan. now rewrite <- app_assoc.
Qed.

(** The first file that cannot be read ends the loop with its exception. *)
Lemma scan_files_first_unread (good : list (string * result text)) :
  forall (f : string) (e : exn) (rest : list (string * result text))
         (acc : list Finding),
  Forall (fun ft => readable (snd ft)) good ->
  scan_files (good ++ (f, Raise e) :: rest) acc = Raise e.
Proof.
  induction good as [|[g rd] good IH]; intros f e rest acc Hall.
  - reflexivity.
  - inversion Hall as [|? ? [t Ht] Hrest]; subst. cbn [snd] in Ht. subst rd.
    destruct (evaluate_total g t) as (fs & Hfs).
    simpl. rewrite (scan_file_appends g t acc fs Hfs). simpl.
    now apply IH.
Qed.

(** Either every file can be read, or there is a first one that cannot. *)
Lemma all_read_or_first_unread (files : list (string * result text)) :
  Forall (fun ft => readable (snd ft)) files \/
  exists good f e rest,
    files = good ++ (f, Raise e) :: rest /\
    Forall (fun ft => readable (snd ft)) good.
Proof.
  induction files as [|[f rd] files IH]; [left; constructor|].
  destruct rd as [t|e].
  - destruct IH as [IH|(good & g & e & rest & -> & Hgood)].
    + left. constructor; [exists t; reflexivity | exact IH].
    + right. exists ((f, Ok t) :: good), g, e, rest. split; [reflexivity|].
      constructor; [exists t; reflexivity | exact Hgood].
  - right. exists [], f, e, files. split; [reflexivity | constructor].
Qed.

Lemma per_file_read (files : list (string * result text))
    (per_file : list (list Finding)) :
  Forall2 (fun ft fs' =>
             exists t, snd ft = Ok t /\ evaluate (fst ft) t = Ok fs')
          files per_file ->
  Forall (fun ft => readable (snd ft)) files.
Proof.
  induction 1 as [|ft fs' l l' Hhd _ IH]; constructor; [|exact IH].
  destruct Hhd as (t & Ht & _). exists t. exact Ht.
Qed.

Lemma per_file_unique (files : list (string * result text)) :
  forall per1 per2 : list (list Finding),
  Forall2 (fun ft fs' =>
             exists t, snd ft = Ok t /\ evaluate (fst ft) t = Ok fs')
          files per1 ->
  Forall2 (fun ft fs' =>
             exists t, snd ft = Ok t /\ evaluate (fst ft) t = Ok fs')
          files per2 ->
  per1 = per2.
Proof.
  induction files as [|ft l IH]; intros per1 per2 H1 H2.
  - inversion H1. inversion H2. reflexivity.
  - inversion H1 as [|? fs1 ? l1 (t1 & Ht1 & He1) Hr1]; subst.
    inversion H2 as [|? fs2 ? l2 (t2 & Ht2 & He2) Hr2]; subst.
    rewrite Ht1 in Ht2. inversion Ht2. subst t2.
    rewrite He1 in He2. inversion He2. subst fs2.
    f_equal. now apply IH.
Qed.

Lemma scan_files_spec (files : list (string * result text))
    (acc : list Finding) :
  (forall fs,
     scan_files files acc = Ok fs <->
     exists per_file,
       Forall2 (fun ft fs' =>
                  exists t, snd ft = Ok t /\ evaluate (fst ft) t = Ok fs')
               files per_file /\
       fs = acc ++ List.concat per_file) /\
  (forall e,
     scan_files files acc = Raise e <->
     exists good f rest,
       files = good ++ (f, Raise e) :: rest /\
       Forall (fun ft => readable (snd ft)) good).
Proof.
  pose proof (per_file_read files) as Hread.
  pose proof (per_file_unique files) as Hfun.
  split.
  - intros fs. split.
    + intros H.
      destruct (all_read_or_first_unread files)
        as [Hall|(good & f & e & rest & -> & Hgood)].
      * destruct (scan_files_all_read files acc Hall) as (per & Hper & Hscan).
        exists per. split; [exact Hper|]. rewrite Hscan in H. now inversion H.
      * rewrite (scan_files_first_unread good f e rest acc Hgood) in H.
        discriminate H.
    + intros (per & Hper & ->).
      destruct (scan_files_all_read files acc (Hread per Hper))
        as (per' & Hper' & Hscan).
      rewrite Hscan. now rewrite (Hfun per per' Hper Hper').
  - intros e. split.
    + intros H.
      destruct (all_read_or_first_unread files)
        as [Hall|(good & f & e' & rest & -> & Hgood)].
      * destruct (scan_files_all_read files acc Hall) as (per & _ & Hscan).
        rewrite Hscan in H. discriminate H.
      * rewrite (scan_files_first_unread good f e' rest acc Hgood) in H.
        inversion H. subst e'. exists good, f, rest. auto.
    + intros (good & f & rest & -> & Hgood).
      now apply scan_files_first_unread.
Qed.

(** X12.  The loop over the files raises exactly when reading a file
    raises, and then with the exception of the first such file, whatever
    was collected before; the scanning of a text that was read raises
    nothing.  When every file is read, the loop keeps the findings it
    starts with and appends the findings of each file, each as the file
    would get them scanned on its own, in the order of the files. *)
Theorem scan_files_concat (files : list (string * result text))
    (acc : list Finding) :
  (forall fs,
     scan_files files acc = Ok fs <->
     exists per_file,
       Forall2 (fun ft fs' =>
                  exists t, snd ft = Ok t /\ evaluate (fst ft) t = Ok fs')
               files per_file /\
       fs = acc ++ List.concat per_file) /\
  (forall e,
     scan_files files acc = Raise e <->
     exists good f rest,
       files = good ++ (f, Raise e) :: rest /\
       Forall (fun ft => readable (snd ft)) good).
Proof. apply scan_files_spec. Qed.

Lemma scan_files_concat_witness :
  let a := ("A.cs", Ok (txt "async void Run() { }")) in
  let b := ("B.cs", Ok (txt "x += 1;")) in
  let dir := ("Dir.cs", @Raise text OSError) in
  let fa := mkFinding "A.cs" 1 "warn" "async-void"
              "Avoid async void (except event handlers); prefer async Task." in
  let fb := mkFinding "B.cs" 1 "info" "event-unsubscribe-missing"
              "Subscriptions detected but no obvious unsubscription; ensure to unsubscribe in OnDisable/OnDestroy." in
  scan_files [a; b] [] = Ok [fa; fb] /\
  (exists per_file,
     Forall2 (fun ft fs' =>
                exists t, snd ft = Ok t /\ evaluate (fst ft) t = Ok fs')
             [a; b] per_file /\
     [fa; fb] = [] ++ List.concat per_file) /\
  (exists good f rest,
     [a; dir; b] = good ++ (f, Raise OSError) :: rest /\
     Forall (fun ft => readable (snd ft)) good) /\
  scan_files [a; dir; b] [] = Raise OSError.
Proof.
  intros a b dir fa fb.
  assert (H : scan_files [a; b] [] = Ok [fa; fb]) by (vm_compute; reflexivity).
  assert (Hsplit : exists good f rest,
            [a; dir; b] = good ++ (f, Raise OSError) :: rest /\
            Forall (fun ft => readable (snd ft)) good).
  { exists [a], "Dir.cs", [b]. split; [reflexivity|].
    constructor; [|constructor]. eexists. reflexivity. }
  split; [exact H|].
  split; [exact (proj1 (proj1 (scan_files_concat [a; b] []) [fa; fb]) H)|].
  split; [exact Hsplit|].
  exact (proj2 (proj2 (scan_files_concat [a; dir; b] []) OSError) Hsplit).
Defined.







(** ** Line numbers and the lines of [splitlines], for plain line ends *)

Lemma splitlines_aux_head (t : text) :
  forall cur, cur <> [] ->
  exists pre b rest,
    splitlines_aux t cur = (rev cur ++ pre) :: rest /\ t = pre ++ b.
Proof.
  induction t as [|c t IH]; intros cur Hcur.
  - exists [], [], []. split; [|reflexivity]. simpl.
    destruct cur; [congruence|]. now rewrite app_nil_r.
  - destruct (Ascii.eqb c CR) eqn:Ecr.
    + apply Ascii.eqb_eq in Ecr. subst c.
      destruct t as [|d t''].
      * exists [], [CR], []. split; [|reflexivity]. simpl. now rewrite app_nil_r.
      * destruct (Ascii.eqb d LF) eqn:Elf.
        -- apply Ascii.eqb_eq in Elf. subst d. rewrite splitlines_aux_CRLF.
           exists [], (CR :: LF :: t''), (splitlines_aux t'' []).
           split; [now rewrite app_nil_r | reflexivity].
        -- rewrite (splitlines_aux_CR d t'' cur Elf).
           exists [], (CR :: d :: t''), (splitlines_aux (d :: t'') []).
           split; [now rewrite app_nil_r | reflexivity].
    + destruct (is_linebreak c) eqn:Elb.
      * rewrite (splitlines_aux_break c t cur Ecr Elb).
        exists [], (c :: t), (splitlines_aux t []).
        split; [now rewrite app_nil_r | reflexivity].
      * rewrite (splitlines_aux_char c t cur Ecr Elb).
        destruct (IH (c :: cur) ltac:(discriminate)) as (pre & b & rest & Hs & Ht).
        exists (c :: pre), b, rest. split.
        -- rewrite Hs. simpl. now rewrite <- app_assoc.
        -- simpl. now rewrite Ht.
Qed.

Lemma plain_line_ends_CR (t' : text) :
  plain_line_ends (CR :: t') = true ->
  exists t'', t' = LF :: t'' /\ plain_line_ends t'' = true.
Proof.
  intros H.
  change (plain_line_ends (CR :: t'))
    with (match t' with
          | d :: _ => Ascii.eqb d LF && plain_line_ends t'
          | [] => false
          end) in H.
  destruct t' as [|d t'']; [discriminate|].
  apply andb_true_iff in H. destruct H as [Hd H].
  apply Ascii.eqb_eq in Hd. subst d. exists t''. split; [reflexivity|].
  change (plain_line_ends (LF :: t''))
    with (Ascii.eqb LF LF && plain_line_ends t'') in H.
  now apply andb_true_iff in H.
Qed.

Lemma plain_line_ends_break (c : ascii) (t' : text) :
  Ascii.eqb c CR = false -> is_linebreak c = true ->
  plain_line_ends (c :: t') = true -> c = LF /\ plain_line_ends t' = true.
Proof.
  intros H1 H2 H.
  change (plain_line_ends (c :: t'))
    with (if Ascii.eqb c CR then
            match t' with
            | d :: _ => Ascii.eqb d LF && plain_line_ends t'
            | [] => false
            end
          else if is_linebreak c then Ascii.eqb c LF && plain_line_ends t'
          else plain_line_ends t') in H.
  rewrite H1, H2 in H. apply andb_true_iff in H. destruct H as [Hc H].
  apply Ascii.eqb_eq in Hc. auto.
Qed.

Lemma plain_line_ends_char (c : ascii) (t' : text) :
  Ascii.eqb c CR = false -> is_linebreak c = false ->
  plain_line_ends (c :: t') = true -> plain_line_ends t' = true.
Proof.
  intros H1 H2 H.
  change (plain_line_ends (c :: t'))
    with (if Ascii.eqb c CR then
            match t' with
            | d :: _ => Ascii.eqb d LF && plain_line_ends t'
            | [] => false
            end
          else if is_linebreak c then Ascii.eqb c LF && plain_line_ends t'
          else plain_line_ends t') in H.
  now rewrite H1, H2 in H.
Qed.

Lemma not_break_not_CR (c : ascii) :
  is_linebreak c = false -> Ascii.eqb c CR = false.
Proof.
  intros H. destruct (Ascii.eqb c CR) eqn:E; [|reflexivity].
  apply Ascii.eqb_eq in E. subst c. discriminate H.
Qed.

Lemma not_break_not_LF (c : ascii) :
  is_linebreak c = false -> Ascii.eqb LF c = false.
Proof.
  intros H. destruct (Ascii.eqb LF c) eqn:E; [|reflexivity].
  apply LF_is_linebreak in E. congruence.
Qed.

(** In a text with plain line ends, the line that [splitlines] puts at the
    index counted with newlines is the stretch of text around the offset. *)
Lemma splitlines_aux_line (n : nat) :
  forall (t cur : text) (pos : nat) (c : ascii),
  List.length t <= n -> plain_line_ends t = true ->
  nth_error t pos = Some c -> is_linebreak c = false ->
  exists l a b,
    nth_error (splitlines_aux t cur)
              (List.length (filter (Ascii.eqb LF) (firstn pos t))) = Some l /\
    rev cur ++ t = a ++ l ++ b /\
    List.length a <= List.length cur + pos < List.length a + List.length l.
Proof.
  induction n as [|n IH]; intros t cur pos c Hn Hplain Hc Hnb.
  { destruct t; [destruct pos; discriminate | simpl in Hn; lia]. }
  destruct t as [|x t]; [destruct pos; discriminate|].
  cbn [List.length] in Hn.
  destruct pos as [|p].
  - cbn [nth_error] in Hc. inversion Hc. subst x.
    cbn [firstn filter List.length].
    rewrite (splitlines_aux_char c t cur (not_break_not_CR c Hnb) Hnb).
    destruct (splitlines_aux_head t (c :: cur) ltac:(discriminate))
      as (pre & b & rest & Hs & Ht).
    exists (rev (c :: cur) ++ pre), [], b. rewrite Hs. split; [reflexivity|].
    split.
    + simpl. rewrite Ht, <- !app_assoc. reflexivity.
    + rewrite length_app, length_rev. simpl. lia.
  - cbn [nth_error] in Hc. rewrite newlines_cons.
    destruct (Ascii.eqb x CR) eqn:Ecr.
    + apply Ascii.eqb_eq in Ecr. subst x.
      destruct (plain_line_ends_CR t Hplain) as (t'' & -> & Hplain'').
      destruct p as [|q].
      { cbn [nth_error] in Hc. inversion Hc. subst c. discriminate Hnb. }
      cbn [nth_error] in Hc. rewrite splitlines_aux_CRLF, newlines_cons.
      change (Ascii.eqb LF CR) with false. change (Ascii.eqb LF LF) with true.
      cbv iota. cbn [Nat.add nth_error List.length] in *.
      destruct (IH t'' [] q c ltac:(lia) Hplain'' Hc Hnb)
        as (l & a & b & Hl & Heq & Hlen).
      exists l, (rev cur ++ CR :: LF :: a), b. split; [exact Hl|]. split.
      * simpl in Heq. rewrite Heq, <- !app_assoc. reflexivity.
      * rewrite length_app, length_rev. simpl in *. lia.
    + destruct (is_linebreak x) eqn:Elb.
      * destruct (plain_line_ends_break x t Ecr Elb Hplain) as [-> Hplain'].
        rewrite (splitlines_aux_break LF t cur Ecr Elb).
        change (Ascii.eqb LF LF) with true. cbv iota.
        cbn [Nat.add nth_error].
        destruct (IH t [] p c ltac:(lia) Hplain' Hc Hnb)
          as (l & a & b & Hl & Heq & Hlen).
        exists l, (rev cur ++ LF :: a), b. split; [exact Hl|]. split.
        -- simpl in Heq. rewrite Heq, <- !app_assoc. reflexivity.
        -- rewrite length_app, length_rev. simpl in *. lia.
      * pose proof (plain_line_ends_char x t Ecr Elb Hplain) as Hplain'.
        rewrite (splitlines_aux_char x t cur Ecr Elb).
        rewrite (not_break_not_LF x Elb). cbn [Nat.add].
        destruct (IH t (x :: cur) p c ltac:(lia) Hplain' Hc Hnb)
          as (l & a & b & Hl & Heq & Hlen).
        exists l, a, b. split; [exact Hl|]. split.
        -- rewrite <- Heq. simpl. now rewrite <- app_assoc.
        -- simpl in Hlen. lia.
Qed.

Lemma splitlines_line_holds (t : text) (pos : nat) (c : ascii) :
  plain_line_ends t = true ->
  nth_error t pos = Some c -> is_linebreak c = false ->
  exists l, nth_error (splitlines t) (line_number t pos - 1) = Some l /\
            line_holds t l pos.
Proof.
  intros Hplain Hc Hnb.
  destruct (splitlines_aux_line (List.length t) t [] pos c (Nat.le_refl _)
              Hplain Hc Hnb) as (l & a & b & Hl & Heq & Hlen).
  exists l. split.
  - unfold line_number, splitlines. cbn [Nat.sub]. rewrite Nat.sub_0_r.
    exact Hl.
  - exists a, b. simpl in *. split; [exact Heq | lia].
Qed.

(** X14.  In a text whose line breaks are all newlines or carriage return
    plus newline, the lines the body text of a returned range starts and
    ends with are the lines of the braces: line [start_line] of
    [text.splitlines()] is a stretch of the text that covers the opening
    brace, and line [end_line] one that covers the closing brace. *)
Theorem range_lines_hold_braces (t : text) (rs : Ranges) (name : string)
    (ranges : list Range) (s e : nat) :
  plain_line_ends t = true ->
  find_method_ranges t = Ok rs ->
  In (name, ranges) rs -> In (s, e) ranges ->
  exists bp ep ls le,
    nth_error t bp = Some "{"%char /\ nth_error t ep = Some "}"%char /\
    s = line_number t bp /\ e = line_number t ep /\
    nth_error (splitlines t) (s - 1) = Some ls /\ line_holds t ls bp /\
    nth_error (splitlines t) (e - 1) = Some le /\ line_holds t le ep.
Proof.
  intros Hplain Hrs Hg Hse.
  destruct (returned_range_match t rs name ranges s e Hrs Hg Hse)
    as (m & _ & _ & Hr).
  destruct (range_of_match_inv t m s e Hr) as (bp & ep & Hb & Hc & -> & ->).
  destruct Hb as (_ & Hb & _). destruct Hc as (_ & [Hc _] & _).
  destruct (splitlines_line_holds t bp "{" Hplain Hb eq_refl) as (ls & Hls & Hhs).
  destruct (splitlines_line_holds t ep "}" Hplain Hc eq_refl) as (le & Hle & Hhe).
  exists bp, ep, ls, le. repeat split; assumption.
Qed.

Lemma range_lines_hold_braces_witness :
  let t := txt "class A {" ++ [CR; LF] ++ txt "  void Update()" ++ [CR; LF]
           ++ txt "  { x(); " ++ [LF] ++ txt "  } // end" ++ [LF] ++ txt "}" in
  let rs := [("Update", [(3, 4)]); ("FixedUpdate", []); ("LateUpdate", [])] in
  plain_line_ends t = true /\
  find_method_ranges t = Ok rs /\
  nth_error (splitlines t) (3 - 1) = Some (txt "  { x(); ") /\
  nth_error (splitlines t) (4 - 1) = Some (txt "  } // end") /\
  exists bp ep ls le,
    nth_error t bp = Some "{"%char /\ nth_error t ep = Some "}"%char /\
    3 = line_number t bp /\ 4 = line_number t ep /\
    nth_error (splitlines t) (3 - 1) = Some ls /\ line_holds t ls bp /\
    nth_error (splitlines t) (4 - 1) = Some le /\ line_holds t le ep.
Proof.
  intros t rs.
  assert (Hp : plain_line_ends t = true) by (vm_compute; reflexivity).
  assert (Hrs : find_method_ranges t = Ok rs) by (vm_compute; reflexivity).
  split; [exact Hp|]. split; [exact Hrs|].
  split; [vm_compute; reflexivity|]. split; [vm_compute; reflexivity|].
  apply (range_lines_hold_braces t rs "Update" [(3, 4)] 3 4 Hp Hrs);
    simpl; auto.
Defined.

(** ** What counts as a declaration *)





